(** * pysph.cpy: launch geometry, kernel dispatch and the transpiler's unit list

    A shallow embedding of [pysph/cpy/low_level.py] and
    [pysph/cpy/transpiler.py].

    Conventions of the embedding.
    - Python integers are [Z]; [//] is [Z.div] (both floor), [%] is
      [Z.modulo] for a positive divisor. A numpy integer is a [Z] kept
      within 64 bits: each operation on it wraps around.
    - Text is [list ascii] (one entry per character, code points below 256);
      literals are written with [list_ascii_of_string].
    - A Python object compared by identity (a function, a class) is
      [Obj id]; a code string handed to [add_code] is [Str s] and is
      compared by value.
    - Code that raises returns an [exn]; the recursion of [Transpiler.add]
      is bounded by fuel, and running out of fuel stands for a recursion
      that does not return. *)

From Stdlib Require Import ZArith Lia List Ascii String Bool Arith.
From Stdlib Require Import Relations.Relation_Operators Relations.Operators_Properties Wellfounded.
From stdpp Require Import base gmap strings list.

Import ListNotations.

Abbreviation str := (list ascii) (only parsing).
Notation "'txt' s" := (list_ascii_of_string s) (at level 10, only parsing).

(** ** The occupancy partitioner *)

Module Splay.
Local Open Scope Z_scope.

(** [queue.device]: the two limits [splay] reads. *)
Record Device := mkDevice {
  max_work_group_size : Z;
  max_compute_units : Z
}.

(** The bounds computed at the top of [splay]. *)
Definition max_work_items (dev : Device) (kernel_specific_max_wg_size : option Z) : Z :=
  let m := Z.min 128 (max_work_group_size dev) in
  match kernel_specific_max_wg_size with
  | Some k => Z.min m k
  | None => m
  end.

Definition min_work_items (dev : Device) (cap : option Z) : Z :=
  Z.min 64 (max_work_items dev cap).

Definition full_groups (dev : Device) : Z := max_compute_units dev * 4 * 8.

(** The four regimes: [(group_count, work_items_per_group)]. *)
Definition splay_groups (dev : Device) (n : Z) (cap : option Z) : Z * Z :=
  let max_wi := max_work_items dev cap in
  let min_wi := min_work_items dev cap in
  let fg := full_groups dev in
  if n <? min_wi then (1, min_wi)
  else if n <? fg * min_wi then ((n + min_wi - 1) / min_wi, min_wi)
  else if n <? fg * max_wi then
    let grp := (n + min_wi - 1) / min_wi in
    (fg, ((grp + fg - 1) / fg) * min_wi)
  else ((n + max_wi - 1) / max_wi, max_wi).

(** [splay(queue, n, kernel_specific_max_wg_size)]: the two 1-tuples
    [(group_count*work_items_per_group,), (work_items_per_group,)]. *)
Definition splay (dev : Device) (n : Z) (kernel_specific_max_wg_size : option Z)
  : list Z * list Z :=
  let '(group_count, work_items_per_group) :=
    splay_groups dev n kernel_specific_max_wg_size in
  ([group_count * work_items_per_group], [work_items_per_group]).

Definition global_size (dev : Device) (n : Z) (cap : option Z) : Z :=
  let '(gc, w) := splay_groups dev n cap in gc * w.

Definition local_size (dev : Device) (n : Z) (cap : option Z) : Z :=
  snd (splay_groups dev n cap).

(** Device limits a runtime can report: positive sizes, and a kernel cap,
    when given, positive too. *)
Definition limits_ok (dev : Device) (cap : option Z) : Prop :=
  1 <= max_work_group_size dev /\ 0 <= max_compute_units dev /\
  match cap with Some k => 1 <= k | None => True end.

(** *** Facts about the partitioner *)

Lemma ceil_mul_ge (n d : Z) : 0 < d -> n <= (n + d - 1) / d * d.
Proof.
  intros Hd.
  pose proof (Z.div_mod (n + d - 1) d ltac:(lia)) as E.
  pose proof (Z.mod_pos_bound (n + d - 1) d Hd) as B.
  nia.
Qed.

Lemma ceil_pos (n d : Z) : 0 < d -> 1 <= n -> 1 <= (n + d - 1) / d.
Proof.
  intros Hd Hn.
  apply Z.div_le_lower_bound; lia.
Qed.

Lemma ceil_le (n d k : Z) : 0 < d -> n <= k * d -> (n + d - 1) / d <= k.
Proof.
  intros Hd Hn.
  assert ((n + d - 1) / d < k + 1); [|lia].
  apply Z.div_lt_upper_bound; nia.
Qed.

Lemma min_work_items_pos dev cap :
  limits_ok dev cap -> 1 <= min_work_items dev cap <= max_work_items dev cap.
Proof.
  unfold limits_ok, min_work_items, max_work_items.
  destruct cap; lia.
Qed.

Lemma max_work_items_le dev cap :
  max_work_items dev cap <= 128 /\
  max_work_items dev cap <= max_work_group_size dev /\
  match cap with Some k => max_work_items dev cap <= k | None => True end.
Proof. unfold max_work_items. destruct cap; lia. Qed.

(** The work-group size is positive, divides the global size, and the
    global size covers all [n] items. *)
Lemma splay_groups_cover dev n cap :
  limits_ok dev cap -> 1 <= n ->
  let '(gc, w) := splay_groups dev n cap in
  1 <= w /\ n <= gc * w.
Proof.
  intros Hl Hn.
  pose proof (min_work_items_pos dev cap Hl) as [Hmin Hmax].
  unfold splay_groups.
  set (mx := max_work_items dev cap) in *.
  set (mn := min_work_items dev cap) in *.
  set (fg := full_groups dev).
  destruct (Z.ltb_spec n mn) as [H1|H1]; [lia|].
  destruct (Z.ltb_spec n (fg * mn)) as [H2|H2].
  { split; [lia|]. apply ceil_mul_ge; lia. }
  destruct (Z.ltb_spec n (fg * mx)) as [H3|H3].
  - assert (0 < fg) by nia.
    pose proof (ceil_mul_ge n mn ltac:(lia)) as G1.
    pose proof (ceil_pos n mn ltac:(lia) Hn) as G2.
    set (grp := (n + mn - 1) / mn) in *.
    pose proof (ceil_mul_ge grp fg ltac:(lia)) as G3.
    pose proof (ceil_pos grp fg ltac:(lia) G2) as G4.
    split; nia.
  - split; [lia|]. apply ceil_mul_ge; lia.
Qed.

(** When the smaller bound divides the larger one (the cap is at most 64,
    or exactly 128) the work-group size stays within the cap. *)
Lemma splay_groups_within_cap dev n cap :
  limits_ok dev cap -> 1 <= n ->
  max_work_items dev cap <= 64 \/ max_work_items dev cap = 128 ->
  snd (splay_groups dev n cap) <= max_work_items dev cap.
Proof.
  intros Hl Hn Hc.
  pose proof (min_work_items_pos dev cap Hl) as [Hmin Hmax].
  unfold splay_groups.
  assert (Hmn : min_work_items dev cap = Z.min 64 (max_work_items dev cap))
    by reflexivity.
  set (mx := max_work_items dev cap) in *.
  set (mn := min_work_items dev cap) in *.
  set (fg := full_groups dev).
  destruct (Z.ltb_spec n mn) as [H1|H1]; [simpl; lia|].
  destruct (Z.ltb_spec n (fg * mn)) as [H2|H2]; [simpl; lia|].
  destruct (Z.ltb_spec n (fg * mx)) as [H3|H3]; [|simpl; lia].
  simpl. destruct Hc as [Hc|Hc]; [nia|].
  assert (mn = 64) by lia.
  assert (0 < fg) by nia.
  assert ((n + mn - 1) / mn <= 2 * fg) by (apply ceil_le; lia).
  assert (((n + mn - 1) / mn + fg - 1) / fg <= 2) by (apply ceil_le; lia).
  nia.
Qed.

(** For [n >= 1] and positive device limits the returned pair satisfies
    [global_size % local_size == 0] and [global_size >= n]. *)
Lemma splay_divisible_and_covers dev n cap :
  limits_ok dev cap -> 1 <= n ->
  global_size dev n cap mod local_size dev n cap = 0 /\
  n <= global_size dev n cap /\
  splay dev n cap = ([global_size dev n cap], [local_size dev n cap]).
Proof.
  intros Hl Hn.
  pose proof (splay_groups_cover dev n cap Hl Hn) as H.
  unfold global_size, local_size, splay.
  destruct (splay_groups dev n cap) as [gc w]. simpl.
  destruct H as [Hw Hc]. repeat split; [|lia].
  apply Z.mod_mul. lia.
Qed.

(** C1: a kernel whose work-group limit is 96, on a device with 20 compute
    units, launched over 41000 items: [splay] returns a work-group size of
    128, above [max_wg = min(128, 256, 96) = 96]. *)
Theorem splay_exceeds_max_wg :
  let dev := mkDevice 256 20 in
  max_work_items dev (Some 96) = 96 /\
  splay dev 41000 (Some 96) = ([81920], [128]) /\
  ~ (local_size dev 41000 (Some 96) <= max_work_items dev (Some 96)).
Proof.
  cbv zeta. split; [reflexivity|]. split; [reflexivity|].
  vm_compute. intros H. apply H. reflexivity.
Qed.

(** *** Further facts about the partitioner *)

Lemma splay_groups_le_128 dev n cap :
  limits_ok dev cap -> 1 <= n -> snd (splay_groups dev n cap) <= 128.
Proof.
  intros Hl Hn.
  pose proof (min_work_items_pos dev cap Hl) as [Hmin Hmax].
  pose proof (max_work_items_le dev cap) as [H128 _].
  unfold splay_groups.
  assert (Hmn : min_work_items dev cap = Z.min 64 (max_work_items dev cap))
    by reflexivity.
  set (mx := max_work_items dev cap) in *.
  set (mn := min_work_items dev cap) in *.
  set (fg := full_groups dev).
  destruct (Z.ltb_spec n mn) as [H1|H1]; [simpl; lia|].
  destruct (Z.ltb_spec n (fg * mn)) as [H2|H2]; [simpl; lia|].
  destruct (Z.ltb_spec n (fg * mx)) as [H3|H3]; [|simpl; lia].
  simpl. destruct (Z.le_gt_cases mx 64) as [Hc|Hc]; [nia|].
  assert (mn = 64) by lia.
  assert (0 < fg) by nia.
  assert ((n + mn - 1) / mn <= 2 * fg) by (apply ceil_le; nia).
  assert (((n + mn - 1) / mn + fg - 1) / fg <= 2) by (apply ceil_le; lia).
  nia.
Qed.

(** X1. For [n >= 1] and positive device limits [splay] returns two
    1-tuples [(g,)] and [(l,)] with [1 <= l <= 128], [g % l == 0] and
    [g >= n]: every item is covered by whole work-groups, and 128 is never
    exceeded whatever the device allows. *)
Theorem splay_covers_in_whole_groups dev n cap :
  limits_ok dev cap -> 1 <= n ->
  exists g l,
    splay dev n cap = ([g], [l]) /\
    1 <= l <= 128 /\ g mod l = 0 /\ n <= g.
Proof.
  intros Hl Hn.
  pose proof (splay_groups_cover dev n cap Hl Hn) as H.
  pose proof (splay_groups_le_128 dev n cap Hl Hn) as H'.
  unfold splay. destruct (splay_groups dev n cap) as [gc w]. simpl in H'.
  destruct H as [Hw Hc].
  exists (gc * w), w. split; [reflexivity|]. split; [lia|]. split; [|lia].
  apply Z.mod_mul. lia.
Qed.

(** X2. The work-group size stays within [max_wg] whenever the cap is at
    most 64, or is exactly 128, or [n] lies outside the third regime
    ([n < full_groups*min_wg] or [n >= full_groups*max_wg]). *)
Theorem splay_within_cap dev n cap :
  limits_ok dev cap -> 1 <= n ->
  max_work_items dev cap <= 64 \/ max_work_items dev cap = 128 \/
  n < full_groups dev * min_work_items dev cap \/
  full_groups dev * max_work_items dev cap <= n ->
  local_size dev n cap <= max_work_items dev cap.
Proof.
  intros Hl Hn [Hc|[Hc|Hc]].
  - apply splay_groups_within_cap; [assumption..|left; exact Hc].
  - apply splay_groups_within_cap; [assumption..|right; exact Hc].
  - pose proof (min_work_items_pos dev cap Hl) as [Hmin Hmax].
    unfold local_size, splay_groups.
    destruct (Z.ltb_spec n (min_work_items dev cap)) as [H1|H1]; [simpl; lia|].
    destruct (Z.ltb_spec n (full_groups dev * min_work_items dev cap)) as [H2|H2];
      [simpl; lia|].
    destruct (Z.ltb_spec n (full_groups dev * max_work_items dev cap)) as [H3|H3];
      [lia|simpl; lia].
Qed.

(** X3. Outside the third regime the padding is less than one work-group:
    [global_size < n + local_size]; below [min_wg] items a single group of
    [min_wg] items is launched. *)
Theorem splay_padding dev n cap :
  limits_ok dev cap -> 1 <= n ->
  (n < full_groups dev * min_work_items dev cap \/
   full_groups dev * max_work_items dev cap <= n ->
   global_size dev n cap < n + local_size dev n cap) /\
  (n < min_work_items dev cap ->
   splay dev n cap = ([min_work_items dev cap], [min_work_items dev cap])).
Proof.
  intros Hl Hn.
  pose proof (min_work_items_pos dev cap Hl) as [Hmin Hmax].
  assert (forall d, 0 < d -> (n + d - 1) / d * d < n + d) as Hceil.
  { intros d Hd.
    pose proof (Z.div_mod (n + d - 1) d ltac:(lia)) as E.
    pose proof (Z.mod_pos_bound (n + d - 1) d Hd) as B. nia. }
  split.
  - intros Hc. unfold global_size, local_size, splay_groups.
    destruct (Z.ltb_spec n (min_work_items dev cap)) as [H1|H1]; [simpl; lia|].
    destruct (Z.ltb_spec n (full_groups dev * min_work_items dev cap)) as [H2|H2].
    { simpl. apply Hceil. lia. }
    destruct (Z.ltb_spec n (full_groups dev * max_work_items dev cap)) as [H3|H3];
      [lia|].
    simpl. apply Hceil. lia.
  - intros H1. unfold splay, splay_groups.
    destruct (Z.ltb_spec n (min_work_items dev cap)) as [_|H]; [|lia].
    rewrite Z.mul_1_l. reflexivity.
Qed.

(** *** The partitioner on a numpy integer *)

(** [Kernel.__call__] hands [splay] the value of [np.prod], a numpy integer
    of numpy's default width, 64 bits on the platforms pysph drives OpenCL
    devices from. Arithmetic on such a scalar stays in 64 bits: a result out
    of range wraps around (numpy warns, it does not raise). [//] is floor
    division and gives 0 for a zero divisor, as [Z.div] does. *)
Definition int64_min : Z := - 2 ^ 63.
Definition int64_max : Z := 2 ^ 63 - 1.

Definition wrap64 (z : Z) : Z := (z + 2 ^ 63) mod 2 ^ 64 - 2 ^ 63.

Definition int64_add (a b : Z) : Z := wrap64 (a + b).
Definition int64_sub (a b : Z) : Z := wrap64 (a - b).
Definition int64_mul (a b : Z) : Z := wrap64 (a * b).
Definition int64_floordiv (a b : Z) : Z := wrap64 (a / b).

(** [splay(queue, n, kernel_specific_max_wg_size)] for [n] a numpy integer:
    the limits read from the device are Python integers, and so is all that
    is computed from them alone; whatever is computed from [n] is a numpy
    integer. The comparisons are exact. *)
Definition splay_int64 (dev : Device) (n : Z) (kernel_specific_max_wg_size : option Z)
  : list Z * list Z :=
  let max_wi := max_work_items dev kernel_specific_max_wg_size in
  let min_wi := min_work_items dev kernel_specific_max_wg_size in
  let fg := full_groups dev in
  if n <? min_wi then
    let group_count := 1 in
    let work_items_per_group := min_wi in
    ([group_count * work_items_per_group], [work_items_per_group])
  else if n <? fg * min_wi then
    let group_count :=
      int64_floordiv (int64_sub (int64_add n min_wi) 1) min_wi in
    let work_items_per_group := min_wi in
    ([int64_mul group_count work_items_per_group], [work_items_per_group])
  else if n <? fg * max_wi then
    let group_count := fg in
    let grp := int64_floordiv (int64_sub (int64_add n min_wi) 1) min_wi in
    let work_items_per_group :=
      int64_mul (int64_floordiv (int64_sub (int64_add grp fg) 1) fg) min_wi in
    ([int64_mul group_count work_items_per_group], [work_items_per_group])
  else
    let group_count :=
      int64_floordiv (int64_sub (int64_add n max_wi) 1) max_wi in
    let work_items_per_group := max_wi in
    ([int64_mul group_count work_items_per_group], [work_items_per_group]).

Lemma wrap64_small (z : Z) : int64_min <= z <= int64_max -> wrap64 z = z.
Proof.
  unfold wrap64, int64_min, int64_max. intros H.
  rewrite Z.mod_small; lia.
Qed.

Lemma wrap64_range (z : Z) : int64_min <= wrap64 z <= int64_max.
Proof.
  unfold wrap64, int64_min, int64_max.
  pose proof (Z.mod_pos_bound (z + 2 ^ 63) (2 ^ 64) ltac:(lia)). lia.
Qed.

(** A sum that wraps and comes back into range with the next operand is
    exact. *)
Lemma wrap64_sub_l (a b : Z) : wrap64 (wrap64 a - b) = wrap64 (a - b).
Proof.
  unfold wrap64. f_equal.
  replace ((a + 2 ^ 63) mod 2 ^ 64 - 2 ^ 63 - b + 2 ^ 63)
    with ((a + 2 ^ 63) mod 2 ^ 64 - b) by lia.
  rewrite Zminus_mod_idemp_l. f_equal. lia.
Qed.

Lemma wrap64_mul_l (a b : Z) : wrap64 (wrap64 a * b) = wrap64 (a * b).
Proof.
  unfold wrap64. f_equal.
  pose proof (Z.div_mod (a + 2 ^ 63) (2 ^ 64) ltac:(lia)) as E.
  replace (((a + 2 ^ 63) mod 2 ^ 64 - 2 ^ 63) * b + 2 ^ 63)
    with (a * b + 2 ^ 63 + (- ((a + 2 ^ 63) / 2 ^ 64) * b) * 2 ^ 64) by lia.
  apply Z_mod_plus_full.
Qed.

(** Rounding [n] up to a multiple of [d] stays within 64 bits when
    [n + d - 1] does. *)
Lemma int64_round_up (n d : Z) :
  1 <= n -> 1 <= d -> n + d - 1 <= int64_max ->
  int64_floordiv (int64_sub (int64_add n d) 1) d = (n + d - 1) / d /\
  int64_mul ((n + d - 1) / d) d = (n + d - 1) / d * d.
Proof.
  intros Hn Hd Hmax.
  assert (0 <= (n + d - 1) / d) as Hq by (apply Z.div_pos; lia).
  pose proof (Z.mul_div_le (n + d - 1) d ltac:(lia)) as Hm.
  assert ((n + d - 1) / d <= n + d - 1) as Hq' by nia.
  unfold int64_floordiv, int64_sub, int64_add, int64_mul.
  assert (int64_min <= 0) as H0 by (unfold int64_min; lia).
  rewrite wrap64_sub_l.
  rewrite (wrap64_small (n + d - 1)) by lia.
  rewrite (wrap64_small ((n + d - 1) / d)) by lia.
  split; [reflexivity|]. apply wrap64_small. nia.
Qed.

(** As long as [2*n + 128] fits in 64 bits nothing wraps: [splay] returns
    for the numpy integer what it returns for the Python integer. *)
Lemma splay_int64_exact dev n cap :
  limits_ok dev cap -> 1 <= n -> 2 * n + 128 <= int64_max ->
  splay_int64 dev n cap = splay dev n cap.
Proof.
  intros Hl Hn Hmax.
  pose proof (min_work_items_pos dev cap Hl) as [Hmin Hmx].
  pose proof (max_work_items_le dev cap) as [H128 _].
  assert (min_work_items dev cap <= 64) as H64 by (unfold min_work_items; lia).
  assert (int64_min <= 0) as H0 by (unfold int64_min; lia).
  unfold splay_int64, splay, splay_groups.
  set (mx := max_work_items dev cap) in *.
  set (mn := min_work_items dev cap) in *.
  set (fg := full_groups dev).
  destruct (Z.ltb_spec n mn) as [H1|H1]; [reflexivity|].
  destruct (Z.ltb_spec n (fg * mn)) as [H2|H2].
  { cbv zeta.
    destruct (int64_round_up n mn Hn ltac:(lia) ltac:(lia)) as [-> ->]. reflexivity. }
  destruct (Z.ltb_spec n (fg * mx)) as [H3|H3].
  - cbv zeta.
    destruct (int64_round_up n mn Hn ltac:(lia) ltac:(lia)) as [-> _].
    assert (0 < fg) as Hfg by nia.
    pose proof (ceil_pos n mn ltac:(lia) Hn) as G2.
    pose proof (Z.mul_div_le (n + mn - 1) mn ltac:(lia)) as G1.
    set (grp := (n + mn - 1) / mn) in *.
    assert (grp + fg - 1 <= 2 * n) as G3 by nia.
    destruct (int64_round_up grp fg G2 ltac:(lia) ltac:(lia)) as [-> _].
    pose proof (Z.mul_div_le (grp + fg - 1) fg ltac:(lia)) as G4.
    assert (0 <= (grp + fg - 1) / fg) as G5 by (apply Z.div_pos; lia).
    set (q := (grp + fg - 1) / fg) in *.
    assert (fg * (q * mn) <= 2 * n) as G6 by nia.
    assert (0 <= q * mn) as G7 by nia.
    assert (q * mn <= fg * (q * mn)) as G8 by nia.
    unfold int64_mul.
    rewrite (wrap64_small (q * mn)) by lia.
    rewrite (wrap64_small (fg * (q * mn))) by lia.
    reflexivity.
  - cbv zeta.
    destruct (int64_round_up n mx Hn ltac:(lia) ltac:(lia)) as [-> ->]. reflexivity.
Qed.

End Splay.

(** ** Text: the precision rewrite and line splitting *)

Section Text.

(** [str.isalnum] on the code points 128..255. The pattern [\b] follows the
    interpreter's character tables there (ASCII-only for Python 2 byte
    strings, Unicode for Python 3); below 128 the classes are fixed. *)
Variable unicode_alnum : ascii -> bool.

(** [\w]: letters, digits and the underscore. *)
Definition is_word (c : ascii) : bool :=
  let n := nat_of_ascii c in
  if (n <? 128)%nat then
    ((48 <=? n) && (n <=? 57) || (65 <=? n) && (n <=? 90)
     || (97 <=? n) && (n <=? 122) || (n =? 95))%nat
  else unicode_alnum c.

Definition double_kw : str := txt "double".
Definition float_kw : str := txt "float".

Fixpoint starts_with (p s : str) : bool :=
  match p, s with
  | [], _ => true
  | _ :: _, [] => false
  | a :: p', b :: s' => Ascii.eqb a b && starts_with p' s'
  end.

(** [\b] after a word character: the text ends or a non-word character
    follows. *)
Definition boundary_after (s : str) : bool :=
  match s with
  | [] => true
  | c :: _ => negb (is_word c)
  end.

(** Whether [\bdouble\b] matches at the head of [s]; [prev_word] tells
    whether the character before [s] is a word character ([false] at the
    start of the text). *)
Definition match_here (prev_word : bool) (s : str) : bool :=
  negb prev_word && starts_with double_kw s && boundary_after (skipn 6 s).

(** The left-to-right scan of [re.sub]: a match is replaced and the scan
    resumes after it; otherwise one character is copied. *)
Fixpoint sub_scan (fuel : nat) (prev_word : bool) (s : str) : str :=
  match fuel with
  | O => s
  | S k =>
      if match_here prev_word s then float_kw ++ sub_scan k true (skipn 6 s)
      else match s with
           | [] => []
           | c :: t => c :: sub_scan k (is_word c) t
           end
  end.

Definition sub_from (prev_word : bool) (s : str) : str :=
  sub_scan (length s) prev_word s.

(** [re.sub(r'\bdouble\b', 'float', s)] *)
Definition re_sub_double (s : str) : str := sub_from false s.

(** [convert_to_float_if_needed(code)], with [get_config().use_double]
    passed in. *)
Definition convert_to_float_if_needed (use_double : bool) (code : str) : str :=
  if negb use_double then re_sub_double code else code.

(** [Kernel._to_float] *)
Definition _to_float (s : str) : str := re_sub_double s.

(** A standalone occurrence of [double] somewhere in [s]. *)
Fixpoint has_standalone (prev_word : bool) (s : str) : bool :=
  match s with
  | [] => false
  | c :: t => match_here prev_word s || has_standalone (is_word c) t
  end.

(** The same, as a decomposition of the text. *)
Definition boundary_before (pre : str) : bool :=
  match last pre with
  | None => true
  | Some c => negb (is_word c)
  end.

Definition standalone_double (s : str) : Prop :=
  exists pre post,
    s = pre ++ double_kw ++ post /\
    boundary_before pre = true /\ boundary_after post = true.

(** *** [str.splitlines] and [str.join] *)

(** The line boundaries of [str.splitlines]: LF, VT, FF, CR, FS, GS, RS and
    NEL (CR LF counts once). *)
Definition is_linebreak (c : ascii) : bool :=
  let n := nat_of_ascii c in
  ((n =? 10) || (n =? 11) || (n =? 12) || (n =? 13)
   || (n =? 28) || (n =? 29) || (n =? 30) || (n =? 133))%nat.

Definition CR : ascii := ascii_of_nat 13.
Definition LF : ascii := ascii_of_nat 10.

(** [cur] is the line read so far. *)
Fixpoint splitlines_from (cur : str) (s : str) : list str :=
  match s with
  | [] => match cur with [] => [] | _ => [cur] end
  | c :: t =>
      if Ascii.eqb c CR then
        match t with
        | c' :: t' =>
            if Ascii.eqb c' LF then cur :: splitlines_from [] t'
            else cur :: splitlines_from [] t
        | [] => cur :: splitlines_from [] t
        end
      else if is_linebreak c then cur :: splitlines_from [] t
      else splitlines_from (cur ++ [c]) t
  end.

Definition splitlines (s : str) : list str := splitlines_from [] s.

(** [sep.join(parts)] *)
Fixpoint join (sep : str) (parts : list str) : str :=
  match parts with
  | [] => []
  | [p] => p
  | p :: rest => p ++ sep ++ join sep rest
  end.

Definition newline : str := [LF].

(** *** Facts about the rewrite *)

Lemma starts_with_app (p s : str) :
  starts_with p s = true <-> exists r, s = p ++ r.
Proof.
  revert s. induction p as [|a p IH]; intros s; simpl.
  - split; [eauto|reflexivity].
  - destruct s as [|b s].
    + split; [discriminate|]. intros [r Hr]. discriminate Hr.
    + rewrite andb_true_iff, IH. split.
      * intros [Hab [r ->]]. apply Ascii.eqb_eq in Hab. subst. eauto.
      * intros [r Hr]. injection Hr as -> ->. split; [apply Ascii.eqb_refl|eauto].
Qed.

Lemma match_here_inv pw s :
  match_here pw s = true ->
  pw = false /\ exists r, s = double_kw ++ r /\ boundary_after r = true.
Proof.
  unfold match_here. rewrite !andb_true_iff, negb_true_iff.
  intros [[Hp Hs] Hb]. split; [exact Hp|].
  apply starts_with_app in Hs as [r ->]. exists r. split; [reflexivity|exact Hb].
Qed.

Lemma match_here_intro r :
  boundary_after r = true -> match_here false (double_kw ++ r) = true.
Proof. intros Hb. unfold match_here. simpl. exact Hb. Qed.

Lemma match_here_prev_word s : match_here true s = false.
Proof. reflexivity. Qed.

Lemma sub_scan_fuel k1 : forall k2 pw s,
  (length s <= k1)%nat -> (length s <= k2)%nat ->
  sub_scan k1 pw s = sub_scan k2 pw s.
Proof.
  induction k1 as [|k1 IH]; intros k2 pw s H1 H2.
  - destruct s; [|simpl in H1; lia]. destruct k2, pw; reflexivity.
  - destruct k2 as [|k2].
    { destruct s; [destruct pw; reflexivity|simpl in H2; lia]. }
    cbn [sub_scan]. destruct (match_here pw s) eqn:Hm.
    + apply match_here_inv in Hm as [_ [r [-> _]]].
      change (skipn 6 (double_kw ++ r)) with r.
      change (length (double_kw ++ r)) with (6 + length r)%nat in H1, H2.
      f_equal. apply IH; lia.
    + destruct s as [|c t]; [reflexivity|].
      simpl in H1, H2. f_equal. apply IH; lia.
Qed.

(** The scan, unfolded once. *)
Lemma sub_from_match pw r :
  match_here pw (double_kw ++ r) = true ->
  sub_from pw (double_kw ++ r) = float_kw ++ sub_from true r.
Proof.
  intros Hm. unfold sub_from.
  change (length (double_kw ++ r)) with (S (5 + length r)).
  cbn [sub_scan]. rewrite Hm. f_equal.
  change (skipn 6 (double_kw ++ r)) with r.
  apply sub_scan_fuel; lia.
Qed.

Lemma sub_from_nil pw : sub_from pw [] = [].
Proof. reflexivity. Qed.

Lemma sub_from_copy pw c t :
  match_here pw (c :: t) = false ->
  sub_from pw (c :: t) = c :: sub_from (is_word c) t.
Proof.
  intros Hm. unfold sub_from. cbn [length sub_scan]. rewrite Hm. reflexivity.
Qed.

Lemma is_word_double_kw : forallb is_word double_kw = true.
Proof. reflexivity. Qed.

Lemma boundary_after_not_word c t :
  boundary_after (c :: t) = true -> is_word c = false.
Proof. simpl. apply negb_true_iff. Qed.

(** A character that is not a word character cannot start the keyword. *)
Lemma match_here_not_word pw c t :
  is_word c = false -> match_here pw (c :: t) = false.
Proof.
  intros Hc. destruct (match_here pw (c :: t)) eqn:Hm; [|reflexivity].
  apply match_here_inv in Hm as [_ [r [E _]]].
  injection E as -> _. discriminate Hc.
Qed.

(** After a word character nothing is rewritten until that word ends. *)
Lemma sub_from_word_run w : forall post,
  forallb is_word w = true -> boundary_after post = true ->
  sub_from true (w ++ post) = w ++ sub_from false post.
Proof.
  induction w as [|c w IH]; intros post Hw Hb.
  - simpl. destruct post as [|c t]; [reflexivity|].
    apply boundary_after_not_word in Hb.
    rewrite !sub_from_copy by (apply match_here_not_word; exact Hb).
    reflexivity.
  - simpl in Hw. apply andb_true_iff in Hw as [Hc Hw].
    change ((c :: w) ++ post) with (c :: (w ++ post)).
    rewrite sub_from_copy by reflexivity.
    rewrite Hc, IH by assumption. reflexivity.
Qed.

Lemma boundary_after_sub_from r :
  boundary_after (sub_from true r) = boundary_after r.
Proof.
  destruct r as [|c t]; [reflexivity|].
  rewrite sub_from_copy by reflexivity. reflexivity.
Qed.

(** A run of word characters read off the output after a word character
    was copied from the input. *)
Lemma sub_from_word_prefix p : forall t r',
  forallb is_word p = true -> sub_from true t = p ++ r' ->
  exists r, t = p ++ r /\ r' = sub_from true r.
Proof.
  induction p as [|a p IH]; intros t r' Hp E.
  - exists t. split; [reflexivity|]. symmetry. exact E.
  - simpl in Hp. apply andb_true_iff in Hp as [Ha Hp].
    destruct t as [|c t]; [discriminate E|].
    rewrite sub_from_copy in E by reflexivity.
    injection E as -> E. rewrite Ha in E.
    destruct (IH t r' Hp E) as [r [-> ->]].
    exists r. split; reflexivity.
Qed.

Lemma match_here_output pw c t :
  match_here pw (c :: sub_from (is_word c) t) = true ->
  match_here pw (c :: t) = true.
Proof.
  intros Hm. apply match_here_inv in Hm as [-> [r' [E Hb]]].
  change (double_kw ++ r') with ("d"%char :: (txt "ouble" ++ r')) in E.
  injection E as -> E.
  change (is_word "d") with true in E.
  destruct (sub_from_word_prefix (txt "ouble") t r' eq_refl E) as [r [-> ->]].
  rewrite boundary_after_sub_from in Hb.
  exact (match_here_intro r Hb).
Qed.

Lemma has_standalone_float pw out :
  has_standalone pw (float_kw ++ out) = has_standalone true out.
Proof. destruct pw; reflexivity. Qed.

Lemma no_standalone_from n : forall s pw,
  (length s <= n)%nat -> has_standalone pw (sub_from pw s) = false.
Proof.
  induction n as [|n IH]; intros s pw Hn.
  - destruct s; [reflexivity|simpl in Hn; lia].
  - destruct (match_here pw s) eqn:Hm.
    + pose proof Hm as Hi. apply match_here_inv in Hi as [_ [r [-> _]]].
      rewrite sub_from_match by exact Hm.
      rewrite has_standalone_float. apply IH.
      change (length (double_kw ++ r)) with (6 + length r)%nat in Hn. lia.
    + destruct s as [|c t]; [reflexivity|].
      rewrite sub_from_copy by exact Hm.
      cbn [has_standalone]. apply orb_false_iff. split.
      * destruct (match_here pw (c :: sub_from (is_word c) t)) eqn:Hm'; [|reflexivity].
        apply match_here_output in Hm'. congruence.
      * apply IH. simpl in Hn. lia.
Qed.

(** The boolean search agrees with the decomposition of the text. *)
Definition boundary_before_from (pw : bool) (pre : str) : bool :=
  match last pre with
  | None => negb pw
  | Some c => negb (is_word c)
  end.

Lemma boundary_before_from_cons pw c pre :
  boundary_before_from pw (c :: pre) = boundary_before_from (is_word c) pre.
Proof.
  unfold boundary_before_from. destruct pre as [|c' pre]; [reflexivity|].
  rewrite last_cons. destruct (last (c' :: pre)) eqn:E; [reflexivity|].
  apply last_None in E. discriminate E.
Qed.

Lemma has_standalone_spec s : forall pw,
  has_standalone pw s = true <->
  exists pre post, s = pre ++ double_kw ++ post /\
    boundary_before_from pw pre = true /\ boundary_after post = true.
Proof.
  induction s as [|c t IH]; intros pw.
  - split; [discriminate|]. intros (pre & post & E & _).
    destruct pre; discriminate E.
  - cbn [has_standalone]. rewrite orb_true_iff, IH. split.
    + intros [Hm | (pre & post & -> & Hb & Ha)].
      * apply match_here_inv in Hm as [-> [r [-> Hr]]].
        exists [], r. repeat split. exact Hr.
      * exists (c :: pre), post. rewrite boundary_before_from_cons. repeat split; assumption.
    + intros (pre & post & E & Hb & Ha). destruct pre as [|c' pre].
      * left. simpl in E. rewrite E. unfold boundary_before_from in Hb. simpl in Hb.
        apply negb_true_iff in Hb. subst pw. apply match_here_intro. exact Ha.
      * right. injection E as -> ->. rewrite boundary_before_from_cons in Hb.
        exists pre, post. repeat split; assumption.
Qed.

Lemma has_standalone_iff s :
  has_standalone false s = true <-> standalone_double s.
Proof. apply has_standalone_spec. Qed.

Lemma forallb_word_last (a l : str) c :
  forallb is_word (a ++ l) = true -> last a = Some c -> is_word c = true.
Proof.
  rewrite forallb_app, andb_true_iff. intros [Ha _] Hl.
  rewrite forallb_forall in Ha. apply Ha.
  apply list_elem_of_In. apply last_Some_elem_of. exact Hl.
Qed.

Lemma boundary_before_app (a l : str) :
  l <> [] -> boundary_before (a ++ l) = boundary_before l.
Proof.
  intros Hl. unfold boundary_before.
  destruct l as [|c l] using rev_ind; [congruence|].
  rewrite app_assoc, !last_snoc. reflexivity.
Qed.

Lemma boundary_after_app (l b : str) :
  l <> [] -> boundary_after (l ++ b) = boundary_after l.
Proof. destruct l; [congruence|reflexivity]. Qed.

(** A text that ends in a non-word character and begins with a match
    contains that match whole. *)
Lemma match_here_app_inv pw (a b : str) :
  a <> [] -> boundary_before a = true ->
  match_here pw (a ++ b) = true ->
  exists l, a = double_kw ++ l /\ l <> [] /\ match_here pw a = true.
Proof.
  intros Ha Hb Hm.
  apply match_here_inv in Hm as [-> [r [E Hr]]].
  apply app_eq_app in E as [l [[-> ->] | [E ->]]].
  - destruct l as [|c l].
    + exfalso. clear -Hb. vm_compute in Hb. discriminate Hb.
    + exists (c :: l). split; [reflexivity|]. split; [discriminate|].
      apply match_here_intro. exact Hr.
  - exfalso. unfold boundary_before in Hb.
    destruct (last a) as [c|] eqn:El.
    + assert (is_word c = true) as Hc.
      { apply (forallb_word_last a l); [|exact El]. rewrite <- E. reflexivity. }
      rewrite Hc in Hb. discriminate Hb.
    + apply last_None in El. contradiction.
Qed.

Lemma match_here_app_false pw (a b : str) :
  a <> [] -> boundary_before a = true ->
  match_here pw (a ++ b) = false -> match_here pw a = false.
Proof.
  intros Ha Hb Hm. destruct (match_here pw a) eqn:Hm'; [|reflexivity].
  apply match_here_inv in Hm' as [-> [l [-> Hl]]].
  destruct l as [|c l].
  - vm_compute in Hb. discriminate Hb.
  - rewrite <- Hm. symmetry. rewrite <- app_assoc. apply match_here_intro. exact Hl.
Qed.

(** The scan of a text that ends in a non-word character does not depend on
    what follows it. *)
Lemma sub_from_app n : forall (a b : str) pw,
  (length a <= n)%nat -> a <> [] -> boundary_before a = true ->
  sub_from pw (a ++ b) = sub_from pw a ++ sub_from false b.
Proof.
  induction n as [|n IH]; intros a b pw Hn Ha Hb.
  { destruct a; [congruence|simpl in Hn; lia]. }
  destruct (match_here pw (a ++ b)) eqn:Hm.
  - destruct (match_here_app_inv pw a b Ha Hb Hm) as (l & -> & Hl & Hm').
    rewrite <- app_assoc in Hm |- *.
    rewrite (sub_from_match _ _ Hm), (sub_from_match _ _ Hm').
    rewrite boundary_before_app in Hb by exact Hl.
    change (length (double_kw ++ l)) with (6 + length l)%nat in Hn.
    rewrite IH by (assumption || lia).
    rewrite app_assoc. reflexivity.
  - pose proof (match_here_app_false pw a b Ha Hb Hm) as Hm'.
    destruct a as [|c a]; [congruence|].
    change ((c :: a) ++ b) with (c :: (a ++ b)) in *.
    rewrite (sub_from_copy _ _ _ Hm), (sub_from_copy _ _ _ Hm').
    destruct a as [|c' a].
    + unfold boundary_before in Hb. simpl in Hb.
      apply negb_true_iff in Hb. rewrite Hb. reflexivity.
    + rewrite IH; [reflexivity|simpl in *; lia|discriminate|].
      rewrite <- Hb. symmetry. apply (boundary_before_app [c]). discriminate.
Qed.

(** A maximal run of word characters other than the keyword itself is not
    matched at its head. *)
Lemma match_here_word_run (w post : str) :
  forallb is_word w = true -> w <> double_kw -> boundary_after post = true ->
  match_here false (w ++ post) = false.
Proof.
  intros Hw Hne Hp.
  destruct (match_here false (w ++ post)) eqn:Hm; [|reflexivity]. exfalso.
  apply match_here_inv in Hm as [_ [r [E Hr]]].
  apply app_eq_app in E as [l [[-> ->] | [E ->]]].
  - destruct l as [|c l].
    + apply Hne. apply app_nil_r.
    + rewrite forallb_app in Hw. apply andb_true_iff in Hw as [_ Hw].
      simpl in Hw. apply andb_true_iff in Hw as [Hc _].
      simpl in Hr. rewrite Hc in Hr. discriminate Hr.
  - destruct l as [|c l].
    + apply Hne. rewrite app_nil_r in E. symmetry. exact E.
    + assert (is_word c = true) as Hc.
      { pose proof is_word_double_kw as Hd. rewrite E, forallb_app in Hd.
        apply andb_true_iff in Hd as [_ Hd]. simpl in Hd.
        apply andb_true_iff in Hd as [Hd _]. exact Hd. }
      simpl in Hp. rewrite Hc in Hp. discriminate Hp.
Qed.

(** Identifiers are kept: a maximal run of word characters that is not
    exactly [double] (for instance [double_t] or [mydouble]) is copied
    unchanged, and the text on either side is rewritten on its own. *)
Lemma re_sub_double_keeps_identifier (pre w post : str) :
  boundary_before pre = true -> forallb is_word w = true ->
  boundary_after post = true -> w <> double_kw ->
  re_sub_double (pre ++ w ++ post) = re_sub_double pre ++ w ++ re_sub_double post.
Proof.
  intros Hb Hw Hp Hne. unfold re_sub_double.
  assert (sub_from false (w ++ post) = w ++ sub_from false post) as Hrun.
  { destruct w as [|c w].
    - reflexivity.
    - pose proof (match_here_word_run (c :: w) post Hw Hne Hp) as Hm.
      change ((c :: w) ++ post) with (c :: (w ++ post)) in *.
      rewrite (sub_from_copy _ _ _ Hm).
      simpl in Hw. apply andb_true_iff in Hw as [Hc Hw].
      rewrite Hc, sub_from_word_run by assumption. reflexivity. }
  destruct pre as [|c pre].
  - exact Hrun.
  - rewrite (sub_from_app (length (c :: pre))) by (auto; discriminate).
    rewrite Hrun. reflexivity.
Qed.

(** A text without a standalone [double] is a fixed point of the rewrite. *)
Lemma sub_from_fixed s : forall pw,
  has_standalone pw s = false -> sub_from pw s = s.
Proof.
  induction s as [|c t IH]; intros pw H; [reflexivity|].
  cbn [has_standalone] in H. apply orb_false_iff in H as [Hm Ht].
  rewrite sub_from_copy by exact Hm. rewrite IH by exact Ht. reflexivity.
Qed.

(** The 64-bit policy leaves the text alone; under the 32-bit policy no
    standalone [double] remains. *)
Lemma convert_use_double code : convert_to_float_if_needed true code = code.
Proof. reflexivity. Qed.

Lemma convert_no_standalone code :
  has_standalone false (convert_to_float_if_needed false code) = false.
Proof. apply (no_standalone_from (length code)). lia. Qed.

(** *** Further facts about the rewrite *)

(** X4. The rewrite changes a text exactly when the text holds a
    standalone [double], and rewriting twice is rewriting once. *)
Theorem re_sub_double_fixed_point (s : str) :
  (re_sub_double s = s <-> has_standalone false s = false) /\
  re_sub_double (re_sub_double s) = re_sub_double s.
Proof.
  assert (has_standalone false (re_sub_double s) = false) as Hclean
    by (apply (no_standalone_from (length s)); lia).
  split; [split|].
  - intros E. rewrite E in Hclean. exact Hclean.
  - apply sub_from_fixed.
  - apply sub_from_fixed. exact Hclean.
Qed.

Lemma sub_from_length n : forall s pw,
  (length s <= n)%nat ->
  (length (sub_from pw s) <= length s)%nat /\
  (has_standalone pw s = true -> (length (sub_from pw s) < length s)%nat).
Proof.
  induction n as [|n IH]; intros s pw Hn.
  - destruct s; [|simpl in Hn; lia]. split; [reflexivity|discriminate].
  - destruct (match_here pw s) eqn:Hm.
    + pose proof Hm as Hi. apply match_here_inv in Hi as [_ [r [-> _]]].
      rewrite sub_from_match by exact Hm.
      change (length (double_kw ++ r)) with (6 + length r)%nat in *.
      change (length (float_kw ++ sub_from true r))
        with (5 + length (sub_from true r))%nat.
      destruct (IH r true ltac:(lia)) as [Hle _]. split; lia.
    + destruct s as [|c t]; [split; [reflexivity|discriminate]|].
      rewrite sub_from_copy by exact Hm.
      destruct (IH t (is_word c) ltac:(simpl in Hn; lia)) as [Hle Hlt].
      cbn [has_standalone length]. rewrite Hm. simpl orb. split; [lia|].
      intros H. specialize (Hlt H). lia.
Qed.

(** X5. The rewritten text is never longer than the text, and strictly
    shorter when a standalone [double] was replaced. *)
Theorem re_sub_double_length (s : str) :
  (length (re_sub_double s) <= length s)%nat /\
  (has_standalone false s = true -> (length (re_sub_double s) < length s)%nat).
Proof. apply (sub_from_length (length s)). lia. Qed.

(** A non-word character cuts the scan in two. *)
Lemma sub_from_cut n : forall (p rest : str) c pw,
  (length p <= n)%nat -> is_word c = false ->
  sub_from pw (p ++ c :: rest) = sub_from pw p ++ c :: sub_from false rest.
Proof.
  induction n as [|n IH]; intros p rest c pw Hn Hc.
  - destruct p; [|simpl in Hn; lia]. simpl.
    rewrite sub_from_copy by (apply match_here_not_word; exact Hc).
    rewrite Hc. reflexivity.
  - destruct p as [|x p].
    { simpl. rewrite sub_from_copy by (apply match_here_not_word; exact Hc).
      rewrite Hc. reflexivity. }
    assert (forall l, boundary_after (l ++ c :: rest) = true ->
                      boundary_after l = true \/ l = []) as Hba.
    { intros [|y l] H; [right; reflexivity|left; exact H]. }
    destruct (match_here pw ((x :: p) ++ c :: rest)) eqn:Hm.
    + pose proof Hm as Hi. apply match_here_inv in Hi as [-> [r [E Hr]]].
      apply app_eq_app in E as [l [[E ->] | [E E']]].
      * rewrite E in *. rewrite <- app_assoc in Hm |- *.
        assert (match_here false (double_kw ++ l) = true) as Hm'.
        { apply match_here_intro. destruct l; [reflexivity|exact Hr]. }
        rewrite (sub_from_match _ _ Hm), (sub_from_match _ _ Hm').
        change (length (double_kw ++ l)) with (6 + length l)%nat in Hn.
        rewrite IH by (assumption || lia). rewrite <- app_assoc. reflexivity.
      * destruct l as [|y l].
        -- rewrite app_nil_r in E. simpl in E'. subst r. rewrite <- E in *.
           rewrite (sub_from_match _ _ Hm).
           rewrite sub_from_copy by reflexivity. rewrite Hc. reflexivity.
        -- exfalso. injection E' as -> _.
           pose proof is_word_double_kw as Hd. rewrite E, forallb_app in Hd.
           apply andb_true_iff in Hd as [_ Hd]. simpl in Hd.
           apply andb_true_iff in Hd as [Hd _]. congruence.
    + assert (match_here pw (x :: p) = false) as Hm'.
      { destruct (match_here pw (x :: p)) eqn:Hm'; [|reflexivity].
        apply match_here_inv in Hm' as [-> [l [E Hl]]].
        rewrite E, <- app_assoc in Hm. rewrite <- Hm. symmetry.
        apply match_here_intro. destruct l; [simpl; rewrite Hc; reflexivity|exact Hl]. }
      change ((x :: p) ++ c :: rest) with (x :: (p ++ c :: rest)) in *.
      rewrite (sub_from_copy _ _ _ Hm), (sub_from_copy _ _ _ Hm').
      rewrite IH by (simpl in Hn; lia || assumption). reflexivity.
Qed.

(** The rewrite works line by line: no match spans a line feed. *)
Lemma re_sub_double_join (parts : list str) :
  re_sub_double (join newline parts) = join newline (map re_sub_double parts).
Proof.
  induction parts as [|p [|q rest] IH]; [reflexivity|reflexivity|].
  change (join newline (p :: q :: rest)) with (p ++ LF :: join newline (q :: rest)).
  change (map re_sub_double (p :: q :: rest))
    with (re_sub_double p :: map re_sub_double (q :: rest)).
  change (map re_sub_double (q :: rest))
    with (re_sub_double q :: map re_sub_double rest) in *.
  change (join newline (re_sub_double p :: re_sub_double q :: map re_sub_double rest))
    with (re_sub_double p ++ LF :: join newline (re_sub_double q :: map re_sub_double rest)).
  rewrite <- IH. unfold re_sub_double.
  apply (sub_from_cut (length p)); [lia|reflexivity].
Qed.

End Text.

(** ** Python values shared by the two modules *)

(** The exceptions the modelled code can raise. [OSError] is what [inspect]
    raises when the source of a Python-level object cannot be read
    ([IOError] before Python 3.3); [TranslatorError] stands for whatever the
    code generator raises on a function it cannot translate, [CLError] for
    the errors of the OpenCL runtime. *)
Inductive exn :=
| IndexError
| AttributeError
| TypeError
| KeyError
| NotImplementedError
| UnboundLocalError
| OSError
| TranslatorError
| CLError.

(** An object handed to [Transpiler.add]: a function or class, equal only to
    itself, or a code string, equal to any string with the same text. *)
Inductive PyObj :=
| Obj (id : nat)
| Str (s : str).

Definition PyObj_eqb (a b : PyObj) : bool :=
  match a, b with
  | Obj i, Obj j => Nat.eqb i j
  | Str s, Str t => bool_decide (s = t)
  | _, _ => false
  end.

(** [class CodeBlock] *)
Record CodeBlock := mkCodeBlock {
  obj : PyObj;
  code : str
}.

(** [CodeBlock.__eq__(self, other)] for [other] another block, and for
    [other] any other object. *)
Definition CodeBlock_eq (self other : CodeBlock) : bool :=
  PyObj_eqb (obj self) (obj other).

Definition CodeBlock_eq_obj (self : CodeBlock) (other : PyObj) : bool :=
  PyObj_eqb (obj self) other.

(** [x in blocks] for [x] a function, a class or a string: the comparison
    falls to [CodeBlock.__eq__] of each element. *)
Definition contains (x : PyObj) (blocks : list CodeBlock) : bool :=
  existsb (fun cb => CodeBlock_eq_obj cb x) blocks.

Inductive Backend := Cython | OpenCL | OtherBackend.

(** The result of a call that can return, raise or fail to return; the
    state is kept in the first two cases since the caller can observe it. *)
Inductive outcome (S : Type) :=
| Done (s : S)
| Raised (e : exn) (s : S)
| Diverged.
Arguments Done {S} s.
Arguments Raised {S} e s.
Arguments Diverged {S}.

(** [for x in l: body(x)] over a state. *)
Fixpoint for_each {S A : Type} (body : A -> S -> outcome S) (l : list A) (s : S)
  : outcome S :=
  match l with
  | [] => Done s
  | x :: rest =>
      match body x s with
      | Done s' => for_each body rest s'
      | o => o
      end
  end.

(** ** The transpiler *)

Section Pysph.

Variable unicode_alnum : ascii -> bool.

(** [dir(math)] of the running interpreter. *)
Variable math_dir : list str.

(** [get_calls(dedent(source of the object))], in the order the list
    comprehension of [filter_calls] walks it; [None] when [inspect] has no
    source for the object. *)
Variable source_calls : nat -> option (list str).

(** Whether the object is a builtin, that is, written in C (as [math.sin]
    or [len] are). [inspect.getsourcelines] rejects a builtin with
    [TypeError]; for any other object whose source it cannot read it raises
    [OSError]. *)
Variable builtin_object : nat -> bool.

(** [getattr(importlib.import_module(func.__module__), name)]; [None] when
    the module has no such attribute. *)
Variable module_getattr : nat -> str -> option PyObj.

(** What the code generators return for one object: for the Cython backend
    [parse] followed by [get_code], for OpenCL [parse]. *)
Variable cython_code : PyObj -> exn + str.
Variable opencl_code : PyObj -> exn + str.

(** [CLUDA_PREAMBLE] rendered with [double_support=True]. *)
Variable cluda : str.

Definition private_name (x : str) : bool := starts_with (txt "_") x.

Definition BUILTINS : list str :=
  List.filter (fun x => negb (private_name x)) math_dir ++
  [txt "max"; txt "abs"; txt "min"; txt "range"; txt "declare";
   txt "local_barrier"; txt "annotate"; txt "printf"].

Definition is_builtin (x : str) : bool := bool_decide (x ∈ BUILTINS).

Definition filter_calls (calls : list str) : list str :=
  List.filter (fun x => negb (is_builtin x)) calls.

(** The list comprehension [[getattr(mod, call) for call in calls]]: the
    first missing attribute raises. *)
Fixpoint resolve_all (f : nat) (calls : list str) : exn + list PyObj :=
  match calls with
  | [] => inr []
  | c :: rest =>
      match module_getattr f c with
      | None => inl AttributeError
      | Some o =>
          match resolve_all f rest with
          | inl e => inl e
          | inr os => inr (o :: os)
          end
      end
  end.

(** [inspect.getsourcelines] accepts modules, classes, functions and the
    like: a string is rejected with [TypeError], as a builtin is. *)
Definition get_all_functions (func : PyObj) : exn + list PyObj :=
  match func with
  | Str _ => inl TypeError
  | Obj f =>
      match source_calls f with
      | None => inl (if builtin_object f then TypeError else OSError)
      | Some calls => resolve_all f (filter_calls calls)
      end
  end.

(** [class Transpiler]; [header] is unset for a backend the constructor
    does not know. *)
Record Transpiler := mkTranspiler {
  backend : Backend;
  blocks : list CodeBlock;
  header : option str;
  source : str
}.

Definition cython_header : str := txt "
from libc.stdio cimport printf
from libc.math cimport *
from libc.math cimport fabs as abs
from libc.math cimport M_PI as pi
from cython.parallel import parallel, prange
".

Definition opencl_defines : str := txt "
#define max(x, y) fmax((double)(x), (double)(y))

__constant double pi=M_PI;
".

Definition Transpiler_init (b : Backend) : Transpiler :=
  mkTranspiler b []
    match b with
    | Cython => Some cython_header
    | OpenCL => Some (cluda ++ opencl_defines)
    | OtherBackend => None
    end
    [].

Definition set_blocks (tp : Transpiler) (bs : list CodeBlock) : Transpiler :=
  mkTranspiler (backend tp) bs (header tp) (source tp).

(** The two branches that bind [code] in [add]; with any other backend the
    name is unbound when the block is built. *)
Definition generate (b : Backend) (o : PyObj) : exn + str :=
  match b with
  | Cython => cython_code o
  | OpenCL => opencl_code o
  | OtherBackend => inl UnboundLocalError
  end.

(** [Transpiler.add], on the block list. *)
Fixpoint add_blocks (b : Backend) (fuel : nat) (o : PyObj) (bs : list CodeBlock)
  : outcome (list CodeBlock) :=
  match fuel with
  | O => Diverged
  | S k =>
      if contains o bs then Done bs
      else
        match get_all_functions o with
        | inl e => Raised e bs
        | inr fs =>
            match for_each (add_blocks b k) fs bs with
            | Done bs1 =>
                match generate b o with
                | inl e => Raised e bs1
                | inr c => Done (bs1 ++ [mkCodeBlock o c])
                end
            | other => other
            end
        end
  end.

Definition map_outcome {S T : Type} (f : S -> T) (o : outcome S) : outcome T :=
  match o with
  | Done s => Done (f s)
  | Raised e s => Raised e (f s)
  | Diverged => Diverged
  end.

Definition add (fuel : nat) (tp : Transpiler) (o : PyObj) : outcome Transpiler :=
  map_outcome (set_blocks tp) (add_blocks (backend tp) fuel o (blocks tp)).

Definition add_code (tp : Transpiler) (c : str) : Transpiler :=
  set_blocks tp (blocks tp ++ [mkCodeBlock (Str c) c]).

Definition get_code (tp : Transpiler) : exn + str :=
  match header tp with
  | None => inl AttributeError
  | Some h => inr (join newline (h :: map code (blocks tp)))
  end.

(** What [compile] hands to the build step. *)
Inductive Build :=
| ExtModule (src : str)
| CLProgram (src : str) (options : list str).

(** [Transpiler.compile], with [get_config().use_double] passed in; the
    loaded module is left to the build collaborator. *)
Definition compile (use_double : bool) (tp : Transpiler)
  : exn + (Transpiler * option Build) :=
  match backend tp with
  | Cython =>
      match get_code tp with
      | inl e => inl e
      | inr src =>
          inr (mkTranspiler (backend tp) (blocks tp) (header tp) src,
               Some (ExtModule src))
      end
  | OpenCL =>
      match get_code tp with
      | inl e => inl e
      | inr c =>
          let src := convert_to_float_if_needed unicode_alnum use_double c in
          inr (mkTranspiler (backend tp) (blocks tp) (header tp) src,
               Some (CLProgram src [txt "-w"]))
      end
  | OtherBackend => inr (tp, None)
  end.

(** *** The runs of [add] that return or raise *)

(** [add_run b o bs r]: the call [add(o)] on the block list [bs] ends in
    [r]; [each_run] is the loop over the callees. *)
Inductive add_run (b : Backend)
  : PyObj -> list CodeBlock -> outcome (list CodeBlock) -> Prop :=
| run_known o bs :
    contains o bs = true -> add_run b o bs (Done bs)
| run_unresolved o bs e :
    contains o bs = false -> get_all_functions o = inl e ->
    add_run b o bs (Raised e bs)
| run_callee_raised o bs fs e bs1 :
    contains o bs = false -> get_all_functions o = inr fs ->
    each_run b fs bs (Raised e bs1) -> add_run b o bs (Raised e bs1)
| run_untranslated o bs fs bs1 e :
    contains o bs = false -> get_all_functions o = inr fs ->
    each_run b fs bs (Done bs1) -> generate b o = inl e ->
    add_run b o bs (Raised e bs1)
| run_appended o bs fs bs1 c :
    contains o bs = false -> get_all_functions o = inr fs ->
    each_run b fs bs (Done bs1) -> generate b o = inr c ->
    add_run b o bs (Done (bs1 ++ [mkCodeBlock o c]))
with each_run (b : Backend)
  : list PyObj -> list CodeBlock -> outcome (list CodeBlock) -> Prop :=
| each_nil bs : each_run b [] bs (Done bs)
| each_stop f fs bs e bs1 :
    add_run b f bs (Raised e bs1) -> each_run b (f :: fs) bs (Raised e bs1)
| each_next f fs bs bs1 r :
    add_run b f bs (Done bs1) -> each_run b fs bs1 r ->
    each_run b (f :: fs) bs r.

Scheme add_run_min := Minimality for add_run Sort Prop
  with each_run_min := Minimality for each_run Sort Prop.
Combined Scheme add_each_ind from add_run_min, each_run_min.

(** The state an outcome leaves behind. *)
Definition final {S : Type} (r : outcome S) (s : S) : Prop :=
  match r with
  | Done s' => s' = s
  | Raised _ s' => s' = s
  | Diverged => False
  end.

(** [f] calls [g]: [g] is one of the objects [get_all_functions(f)]
    returns. *)
Definition calls (f g : PyObj) : Prop :=
  exists fs, get_all_functions f = inr fs /\ In g fs.

(** Reachability along calls, and membership in a call cycle. *)
Definition reaches : PyObj -> PyObj -> Prop := clos_refl_trans PyObj calls.
Definition on_cycle (f : PyObj) : Prop := clos_trans PyObj calls f f.

(** The objects of the registered units, in order. *)
Definition objs (bs : list CodeBlock) : list PyObj := map obj bs.

(** Dependency order: the callees of every unit are registered before it. *)
Definition ordered (bs : list CodeBlock) : Prop :=
  forall pre cb post g,
    bs = pre ++ cb :: post -> calls (obj cb) g -> contains g pre = true.


(** *** Membership *)

Lemma PyObj_eqb_eq a b : PyObj_eqb a b = true <-> a = b.
Proof.
  destruct a as [i|s], b as [j|t]; simpl.
  - rewrite Nat.eqb_eq. split; [intros ->; reflexivity|intros [= ->]; reflexivity].
  - split; discriminate.
  - split; discriminate.
  - rewrite bool_decide_eq_true. split; [intros ->; reflexivity|intros [= ->]; reflexivity].
Qed.

Lemma PyObj_eq_dec (a b : PyObj) : {a = b} + {a <> b}.
Proof.
  destruct (PyObj_eqb a b) eqn:E.
  - left. apply PyObj_eqb_eq. exact E.
  - right. intros H. apply PyObj_eqb_eq in H. congruence.
Qed.

Lemma contains_In x bs : contains x bs = true <-> In x (objs bs).
Proof.
  unfold contains, objs. rewrite existsb_exists, in_map_iff.
  split; intros [cb [H1 H2]]; exists cb.
  - apply PyObj_eqb_eq in H2. split; assumption.
  - split; [assumption|]. apply PyObj_eqb_eq. exact H1.
Qed.

Lemma contains_false x bs : contains x bs = false <-> ~ In x (objs bs).
Proof.
  rewrite <- contains_In. destruct (contains x bs); split; congruence.
Qed.

Lemma contains_app x l1 l2 :
  contains x (l1 ++ l2) = contains x l1 || contains x l2.
Proof. apply existsb_app. Qed.

Lemma contains_split x bs :
  contains x bs = true ->
  exists pre cb post, bs = pre ++ cb :: post /\ obj cb = x.
Proof.
  intros H. apply contains_In in H. unfold objs in H.
  apply in_map_iff in H as [cb [E H]].
  apply in_split in H as [pre [post ->]]. eauto.
Qed.

(** Deduplication looks at the originating object only: the generated text
    of the registered units plays no part. *)
Lemma contains_ignores_code x bs bs' :
  objs bs = objs bs' -> contains x bs = contains x bs'.
Proof.
  intros E. destruct (contains x bs') eqn:H'.
  - apply contains_In. rewrite E. apply contains_In. exact H'.
  - apply contains_false. rewrite E. apply contains_false. exact H'.
Qed.

(** *** Fuel and runs *)

Lemma for_each_sound (b : Backend) (body : PyObj -> list CodeBlock -> outcome (list CodeBlock)) :
  (forall f bs r, body f bs = r -> r <> Diverged -> add_run b f bs r) ->
  forall fs bs r, for_each body fs bs = r -> r <> Diverged -> each_run b fs bs r.
Proof.
  intros Hbody fs. induction fs as [|f fs IH]; intros bs r E Hr; simpl in E.
  - subst r. constructor.
  - destruct (body f bs) as [bs1|e bs1|] eqn:Ef.
    + apply each_next with bs1; [apply Hbody; [exact Ef|discriminate]|].
      apply IH; assumption.
    + subst r. apply each_stop. apply Hbody; [exact Ef|discriminate].
    + congruence.
Qed.

(** A call that does not run out of fuel is a run. *)
Lemma add_blocks_sound b n : forall o bs r,
  add_blocks b n o bs = r -> r <> Diverged -> add_run b o bs r.
Proof.
  induction n as [|n IH]; intros o bs r E Hr; simpl in E; [congruence|].
  destruct (contains o bs) eqn:Hc.
  { subst r. apply run_known. exact Hc. }
  destruct (get_all_functions o) as [e|fs] eqn:Hg.
  { subst r. apply run_unresolved; assumption. }
  destruct (for_each (add_blocks b n) fs bs) as [bs1|e bs1|] eqn:Hf.
  - pose proof (for_each_sound b _ IH fs bs _ Hf ltac:(discriminate)) as Hrun.
    destruct (generate b o) as [e|c] eqn:Hgen; subst r.
    + eapply run_untranslated; eassumption.
    + eapply run_appended; eassumption.
  - pose proof (for_each_sound b _ IH fs bs _ Hf ltac:(discriminate)) as Hrun.
    subst r. eapply run_callee_raised; eassumption.
  - congruence.
Qed.

(** Every run is computed by [add_blocks] once the fuel is large enough. *)
Lemma add_run_complete b :
  (forall o bs r, add_run b o bs r ->
     exists n, forall m, (n <= m)%nat -> add_blocks b m o bs = r) /\
  (forall fs bs r, each_run b fs bs r ->
     exists n, forall m, (n <= m)%nat -> for_each (add_blocks b m) fs bs = r).
Proof.
  apply add_each_ind.
  - intros o bs Hc. exists 1%nat. intros [|m] Hm; [lia|]. simpl. rewrite Hc. reflexivity.
  - intros o bs e Hc Hg. exists 1%nat. intros [|m] Hm; [lia|]. simpl.
    rewrite Hc, Hg. reflexivity.
  - intros o bs fs e bs1 Hc Hg _ [n Hn]. exists (S n). intros [|m] Hm; [lia|].
    simpl. rewrite Hc, Hg, Hn by lia. reflexivity.
  - intros o bs fs bs1 e Hc Hg _ [n Hn] Hgen. exists (S n). intros [|m] Hm; [lia|].
    simpl. rewrite Hc, Hg, Hn, Hgen by lia. reflexivity.
  - intros o bs fs bs1 c Hc Hg _ [n Hn] Hgen. exists (S n). intros [|m] Hm; [lia|].
    simpl. rewrite Hc, Hg, Hn, Hgen by lia. reflexivity.
  - intros bs. exists 0%nat. reflexivity.
  - intros f fs bs e bs1 _ [n Hn]. exists n. intros m Hm. simpl.
    rewrite Hn by lia. reflexivity.
  - intros f fs bs bs1 r _ [n1 Hn1] _ [n2 Hn2]. exists (Nat.max n1 n2).
    intros m Hm. simpl. rewrite Hn1 by lia. apply Hn2. lia.
Qed.

Lemma add_run_not_diverged b :
  (forall o bs r, add_run b o bs r -> r <> Diverged) /\
  (forall fs bs r, each_run b fs bs r -> r <> Diverged).
Proof. apply add_each_ind; intros; try discriminate; assumption. Qed.

Lemma for_each_mono {S A : Type} (body1 body2 : A -> S -> outcome S) :
  (forall x s r, body1 x s = r -> r <> Diverged -> body2 x s = r) ->
  forall l s r, for_each body1 l s = r -> r <> Diverged -> for_each body2 l s = r.
Proof.
  intros H l. induction l as [|x l IH]; intros s r E Hr; simpl in *; [exact E|].
  destruct (body1 x s) as [s1|e s1|] eqn:E1.
  - rewrite (H x s _ E1) by discriminate. apply IH; assumption.
  - rewrite (H x s _ E1) by discriminate. exact E.
  - congruence.
Qed.

(** More fuel does not change a result. *)
Lemma add_blocks_fuel_mono b n : forall m o bs r,
  add_blocks b n o bs = r -> r <> Diverged -> (n <= m)%nat ->
  add_blocks b m o bs = r.
Proof.
  induction n as [|n IH]; intros m o bs r E Hr Hnm; simpl in E; [congruence|].
  destruct m as [|m]; [lia|]. simpl.
  destruct (contains o bs); [exact E|].
  destruct (get_all_functions o) as [e|fs]; [exact E|].
  destruct (for_each (add_blocks b n) fs bs) as [bs1|e bs1|] eqn:Hf; [| |congruence].
  - rewrite (for_each_mono (add_blocks b n) (add_blocks b m)
               (fun x s r' E' H' => IH m x s r' E' H' ltac:(lia)) fs bs _ Hf)
      by discriminate.
    exact E.
  - rewrite (for_each_mono (add_blocks b n) (add_blocks b m)
               (fun x s r' E' H' => IH m x s r' E' H' ltac:(lia)) fs bs _ Hf)
      by discriminate.
    exact E.
Qed.

(** *** What a run does to the unit list *)

(** Units are only ever appended. *)
Lemma run_extends b :
  (forall o bs r, add_run b o bs r ->
     forall s, final r s -> exists mid, s = bs ++ mid) /\
  (forall fs bs r, each_run b fs bs r ->
     forall s, final r s -> exists mid, s = bs ++ mid).
Proof.
  apply add_each_ind; simpl.
  - intros o bs _ s <-. exists []. symmetry. apply app_nil_r.
  - intros o bs e _ _ s <-. exists []. symmetry. apply app_nil_r.
  - intros o bs fs e bs1 _ _ _ IH s Hs. apply IH. exact Hs.
  - intros o bs fs bs1 e _ _ _ IH _ s <-. apply IH. reflexivity.
  - intros o bs fs bs1 c _ _ _ IH _ s <-.
    destruct (IH bs1 eq_refl) as [mid ->].
    exists (mid ++ [mkCodeBlock o c]). symmetry. apply app_assoc.
  - intros bs s <-. exists []. symmetry. apply app_nil_r.
  - intros f fs bs e bs1 _ IH s Hs. apply IH. exact Hs.
  - intros f fs bs bs1 r _ IH1 _ IH2 s Hs.
    destruct (IH1 bs1 eq_refl) as [m1 ->].
    destruct (IH2 s Hs) as [m2 ->].
    exists (m1 ++ m2). symmetry. apply app_assoc.
Qed.

Lemma contains_extends x bs mid :
  contains x bs = true -> contains x (bs ++ mid) = true.
Proof. intros H. rewrite contains_app, H. reflexivity. Qed.

(** A call that returns leaves its object registered, and the loop leaves
    every callee registered. *)
Lemma run_registers b :
  (forall o bs r, add_run b o bs r ->
     forall s, r = Done s -> contains o s = true) /\
  (forall fs bs r, each_run b fs bs r ->
     forall s, r = Done s -> forall f, In f fs -> contains f s = true).
Proof.
  apply add_each_ind.
  - intros o bs Hc s [= <-]. exact Hc.
  - discriminate.
  - discriminate.
  - discriminate.
  - intros o bs fs bs1 c _ _ _ _ _ s [= <-].
    rewrite contains_app. apply orb_true_iff. right. simpl.
    rewrite orb_false_r. apply PyObj_eqb_eq. reflexivity.
  - intros bs s _ f [].
  - discriminate.
  - intros f fs bs bs1 r _ IH1 Hrun IH2 s -> g [<-|Hg].
    + destruct (proj2 (run_extends b) _ _ _ Hrun s eq_refl) as [mid ->].
      apply contains_extends. apply (IH1 bs1). reflexivity.
    + apply (IH2 s); [reflexivity|exact Hg].
Qed.

Lemma ordered_nil : ordered [].
Proof. intros pre cb post g E. destruct pre; discriminate E. Qed.

Lemma app_singleton_split {A : Type} (pre post l : list A) (x y : A) :
  l ++ [y] = pre ++ x :: post ->
  (pre = l /\ x = y /\ post = []) \/
  (exists post', l = pre ++ x :: post' /\ post = post' ++ [y]).
Proof.
  intros E. destruct post as [|z post] using rev_ind.
  - apply app_inj_tail in E as [-> ->]. left. repeat split.
  - right. rewrite app_comm_cons, app_assoc in E.
    apply app_inj_tail in E as [-> ->]. exists post. split; reflexivity.
Qed.

Lemma ordered_snoc bs cb :
  ordered bs ->
  (forall g, calls (obj cb) g -> contains g bs = true) ->
  ordered (bs ++ [cb]).
Proof.
  intros Ho Hcb pre cb' post g E Hg.
  apply app_singleton_split in E as [(-> & -> & ->) | (post' & -> & ->)].
  - apply Hcb. exact Hg.
  - apply (Ho pre cb' post' g eq_refl Hg).
Qed.

(** Dependency order is kept by every run, whether it returns or raises. *)
Lemma run_ordered b :
  (forall o bs r, add_run b o bs r ->
     ordered bs -> forall s, final r s -> ordered s) /\
  (forall fs bs r, each_run b fs bs r ->
     ordered bs -> forall s, final r s -> ordered s).
Proof.
  pose proof (proj2 (run_registers b)) as Hreg.
  apply add_each_ind; simpl.
  - intros o bs _ Ho s <-. exact Ho.
  - intros o bs e _ _ Ho s <-. exact Ho.
  - intros o bs fs e bs1 _ _ _ IH Ho s Hs. apply IH; assumption.
  - intros o bs fs bs1 e _ _ _ IH _ Ho s <-. apply IH; [assumption|reflexivity].
  - intros o bs fs bs1 c _ Hg Hrun IH _ Ho s <-.
    apply ordered_snoc; [apply IH; [assumption|reflexivity]|].
    simpl. intros g [fs' [Hg' Hin]]. rewrite Hg in Hg'. injection Hg' as <-.
    apply (Hreg fs bs _ Hrun bs1 eq_refl g Hin).
  - intros bs Ho s <-. exact Ho.
  - intros f fs bs e bs1 _ IH Ho s Hs. apply IH; assumption.
  - intros f fs bs bs1 r _ IH1 _ IH2 Ho s Hs.
    apply IH2; [|exact Hs]. apply IH1; [exact Ho|reflexivity].
Qed.

(** Whatever a run registers is reachable from the object it was called
    on. *)
Lemma run_new_reachable b :
  (forall o bs r, add_run b o bs r ->
     forall s x, final r s -> In x (objs s) -> In x (objs bs) \/ reaches o x) /\
  (forall fs bs r, each_run b fs bs r ->
     forall s x, final r s -> In x (objs s) ->
       In x (objs bs) \/ exists f, In f fs /\ reaches f x).
Proof.
  assert (forall o fs x, get_all_functions o = inr fs ->
            (exists f, In f fs /\ reaches f x) -> reaches o x) as Hstep.
  { intros o fs x Hg [f [Hf Hr]]. apply rt_trans with f; [|exact Hr].
    apply rt_step. exists fs. split; assumption. }
  apply add_each_ind; simpl.
  - intros o bs _ s x <- Hx. left. exact Hx.
  - intros o bs e _ _ s x <- Hx. left. exact Hx.
  - intros o bs fs e bs1 _ Hg _ IH s x Hs Hx.
    destruct (IH s x Hs Hx) as [H|H]; [left; exact H|right; eauto].
  - intros o bs fs bs1 e _ Hg _ IH _ s x <- Hx.
    destruct (IH bs1 x eq_refl Hx) as [H|H]; [left; exact H|right; eauto].
  - intros o bs fs bs1 c _ Hg _ IH _ s x <- Hx.
    unfold objs in Hx. rewrite map_app in Hx. apply in_app_or in Hx as [Hx|Hx].
    + destruct (IH bs1 x eq_refl Hx) as [H|H]; [left; exact H|right; eauto].
    + simpl in Hx. destruct Hx as [<-|[]]. right. apply rt_refl.
  - intros bs s x <- Hx. left. exact Hx.
  - intros f fs bs e bs1 _ IH s x Hs Hx.
    destruct (IH s x Hs Hx) as [H|H]; [left; exact H|].
    right. exists f. split; [left; reflexivity|exact H].
  - intros f fs bs bs1 r _ IH1 _ IH2 s x Hs Hx.
    destruct (IH2 s x Hs Hx) as [H|[g [Hg H]]].
    + destruct (IH1 bs1 x eq_refl H) as [H1|H1]; [left; exact H1|].
      right. exists f. split; [left; reflexivity|exact H1].
    + right. exists g. split; [right; exact Hg|exact H].
Qed.

(** *** Dependency order excludes cycles *)

Lemma calls_reaches_cycle (o f : PyObj) :
  calls o f -> reaches f o -> on_cycle o.
Proof.
  intros Hof Hr. unfold on_cycle.
  assert (forall z, clos_refl_trans_n1 PyObj calls f z ->
            clos_trans PyObj calls o z) as H.
  { intros z Hz. induction Hz as [|y z Hyz _ IH].
    - apply t_step. exact Hof.
    - apply t_trans with y; [exact IH|apply t_step; exact Hyz]. }
  apply H. apply clos_rt_rtn1. exact Hr.
Qed.

Lemma ordered_descendants bs :
  ordered bs ->
  forall n pre cb post g,
    (length pre < n)%nat -> bs = pre ++ cb :: post ->
    clos_trans_1n PyObj calls (obj cb) g -> contains g pre = true.
Proof.
  intros Ho n. induction n as [|n IH]; intros pre cb post g Hn E Hg; [lia|].
  inversion Hg as [y Hy | y z Hy Hz]; subst.
  - apply (Ho pre cb post g eq_refl Hy).
  - pose proof (Ho pre cb post y eq_refl Hy) as Hc.
    apply contains_split in Hc as (pre1 & cb1 & post1 & -> & <-).
    rewrite contains_app. apply orb_true_iff. left.
    apply (IH pre1 cb1 (post1 ++ cb :: post) g);
      [|rewrite <- app_assoc; reflexivity|exact Hz].
    rewrite length_app in Hn. simpl in Hn. lia.
Qed.

(** In a dependency-ordered list no registered object lies on a call
    cycle. *)
Lemma ordered_acyclic bs f :
  ordered bs -> contains f bs = true -> ~ on_cycle f.
Proof.
  intros Ho Hc Hcyc.
  assert (forall n pre cb post, (length pre < n)%nat -> bs = pre ++ cb :: post ->
            ~ clos_trans_1n PyObj calls (obj cb) (obj cb)) as Hno.
  { intros n. induction n as [|n IH]; intros pre cb post Hn E Hcb; [lia|].
    pose proof (ordered_descendants bs Ho (S n) pre cb post _ Hn E Hcb) as Hin.
    apply contains_split in Hin as (pre1 & cb1 & post1 & -> & Eo).
    apply (IH pre1 cb1 (post1 ++ cb :: post)).
    - rewrite length_app in Hn. simpl in Hn. lia.
    - rewrite E, <- app_assoc. reflexivity.
    - rewrite Eo. exact Hcb. }
  apply contains_split in Hc as (pre & cb & post & E & <-).
  apply (Hno (S (length pre)) pre cb post); [lia|exact E|].
  apply clos_trans_t1n. exact Hcyc.
Qed.

(** A dependency-ordered list is closed under calls. *)
Lemma ordered_closed bs f g :
  ordered bs -> contains f bs = true -> reaches f g -> contains g bs = true.
Proof.
  intros Ho Hc Hr. apply clos_rt_rt1n in Hr.
  induction Hr as [f | f y g Hy _ IH]; [exact Hc|].
  apply IH. apply contains_split in Hc as (pre & cb & post & -> & <-).
  apply contains_extends. apply (Ho pre cb post y eq_refl Hy).
Qed.

(** A call on a cycle member never returns, whatever the fuel. *)
Lemma run_done_acyclic b o bs s :
  ordered bs -> add_run b o bs (Done s) -> ~ on_cycle o.
Proof.
  intros Ho Hrun. apply (ordered_acyclic s).
  - apply (proj1 (run_ordered b) _ _ _ Hrun Ho). reflexivity.
  - apply (proj1 (run_registers b) _ _ _ Hrun). reflexivity.
Qed.

Lemma NoDup_snoc {A : Type} (l : list A) (x : A) :
  NoDup l -> ~ In x l -> NoDup (l ++ [x]).
Proof.
  intros Hl Hx. apply NoDup_app. split; [exact Hl|]. split.
  - intros y Hy Hy'. apply list_elem_of_In in Hy, Hy'.
    destruct Hy' as [<-|[]]. exact (Hx Hy).
  - apply NoDup_singleton.
Qed.

(** No object is registered twice. *)
Lemma run_nodup b :
  (forall o bs r, add_run b o bs r ->
     ordered bs -> NoDup (objs bs) -> forall s, final r s -> NoDup (objs s)) /\
  (forall fs bs r, each_run b fs bs r ->
     ordered bs -> NoDup (objs bs) -> forall s, final r s -> NoDup (objs s)).
Proof.
  apply add_each_ind; simpl.
  - intros o bs _ _ Hn s <-. exact Hn.
  - intros o bs e _ _ _ Hn s <-. exact Hn.
  - intros o bs fs e bs1 _ _ _ IH Ho Hn s Hs. apply IH; assumption.
  - intros o bs fs bs1 e _ _ _ IH _ Ho Hn s <-. apply IH; [assumption..|reflexivity].
  - intros o bs fs bs1 c Hc Hg Hrun IH Hgen Ho Hn s <-.
    unfold objs. rewrite map_app. simpl. apply NoDup_snoc.
    { apply IH; [assumption..|reflexivity]. }
    intros Hin.
    destruct (proj2 (run_new_reachable b) _ _ _ Hrun bs1 o eq_refl Hin)
      as [Hold | [f [Hf Hr]]].
    + apply contains_false in Hc. exact (Hc Hold).
    + apply (run_done_acyclic b o bs _ Ho (run_appended b o bs fs bs1 c Hc Hg Hrun Hgen)).
      apply (calls_reaches_cycle o f); [|exact Hr].
      exists fs. split; assumption.
  - intros bs _ Hn s <-. exact Hn.
  - intros f fs bs e bs1 _ IH Ho Hn s Hs. apply IH; assumption.
  - intros f fs bs bs1 r Hrun IH1 _ IH2 Ho Hn s Hs.
    apply IH2; [| |exact Hs].
    + apply (proj1 (run_ordered b) _ _ _ Hrun Ho). reflexivity.
    + apply IH1; [assumption..|reflexivity].
Qed.

(** *** Termination *)

Lemma each_run_total b fs :
  (forall f, In f fs -> forall bs, exists r, add_run b f bs r) ->
  forall bs, exists r, each_run b fs bs r.
Proof.
  induction fs as [|f fs IH]; intros H bs.
  - exists (Done bs). constructor.
  - destruct (H f (or_introl eq_refl) bs) as [[bs1|e bs1|] Hf].
    + destruct (IH (fun g Hg => H g (or_intror Hg)) bs1) as [r Hr].
      exists r. eapply each_next; eassumption.
    + exists (Raised e bs1). apply each_stop. exact Hf.
    + exfalso. exact (proj1 (add_run_not_diverged b) _ _ _ Hf eq_refl).
Qed.

(** Where the calls below [o] are well founded, [add(o)] returns or
    raises. *)
Lemma add_run_total b o :
  Acc (fun g f => calls f g) o -> forall bs, exists r, add_run b o bs r.
Proof.
  induction 1 as [o _ IH]. intros bs.
  destruct (contains o bs) eqn:Hc.
  { exists (Done bs). apply run_known. exact Hc. }
  destruct (get_all_functions o) as [e|fs] eqn:Hg.
  { exists (Raised e bs). apply run_unresolved; assumption. }
  destruct (each_run_total b fs) with (bs := bs) as [[bs1|e bs1|] Hr].
  { intros f Hf. apply IH. exists fs. split; assumption. }
  - destruct (generate b o) as [e|c] eqn:Hgen.
    + exists (Raised e bs1). eapply run_untranslated; eassumption.
    + exists (Done (bs1 ++ [mkCodeBlock o c])). eapply run_appended; eassumption.
  - exists (Raised e bs1). eapply run_callee_raised; eassumption.
  - exfalso. exact (proj2 (add_run_not_diverged b) _ _ _ Hr eq_refl).
Qed.

(** A finite call graph without cycles is well founded. *)
Lemma acyclic_finite_acc (o : PyObj) (U : list PyObj) :
  (forall g, reaches o g -> In g U) ->
  (forall g, reaches o g -> ~ on_cycle g) ->
  Acc (fun g f => calls f g) o.
Proof.
  intros HU Hacyc.
  assert (forall k (p : list PyObj) x,
            (length U <= length p + k)%nat -> NoDup p ->
            (forall y, In y p -> reaches o y /\ clos_trans PyObj calls y x) ->
            reaches o x -> Acc (fun g f => calls f g) x) as H.
  { induction k as [|k IH]; intros p x Hlen Hnd Hp Hx.
    - exfalso.
      assert (NoDup (x :: p)) as Hnd'.
      { apply NoDup_cons. split; [|exact Hnd].
        intros Hin. apply list_elem_of_In in Hin.
        apply (Hacyc x Hx). apply (Hp x Hin). }
      assert (length (x :: p) <= length U)%nat as Hle.
      { apply submseteq_length. apply NoDup_submseteq; [exact Hnd'|].
        intros y Hy. apply list_elem_of_In. apply list_elem_of_In in Hy.
        apply HU. destruct Hy as [<-|Hy]; [exact Hx|apply (Hp y Hy)]. }
      simpl in Hle. lia.
    - constructor. intros z Hxz.
      apply (IH (x :: p)).
      + simpl. lia.
      + apply NoDup_cons. split; [|exact Hnd].
        intros Hin. apply list_elem_of_In in Hin.
        apply (Hacyc x Hx). apply (Hp x Hin).
      + intros y [<-|Hy].
        * split; [exact Hx|apply t_step; exact Hxz].
        * split; [apply (Hp y Hy)|].
          apply t_trans with x; [apply (Hp y Hy)|apply t_step; exact Hxz].
      + apply rt_trans with x; [exact Hx|apply rt_step; exact Hxz]. }
  apply (H (length U) [] o); [simpl; lia|constructor| |apply rt_refl].
  intros y [].
Qed.

(** A run raises only what the resolution or the translation of some
    reachable object raises. *)
Lemma run_raised_cause b :
  (forall o bs r, add_run b o bs r -> forall e s, r = Raised e s ->
     exists g, reaches o g /\
       (get_all_functions g = inl e \/ generate b g = inl e)) /\
  (forall fs bs r, each_run b fs bs r -> forall e s, r = Raised e s ->
     exists f g, In f fs /\ reaches f g /\
       (get_all_functions g = inl e \/ generate b g = inl e)).
Proof.
  apply add_each_ind.
  - discriminate.
  - intros o bs e _ Hg e' s [= <- _]. exists o. split; [apply rt_refl|]. left. exact Hg.
  - intros o bs fs e bs1 _ Hg _ IH e' s [= <- <-].
    destruct (IH e bs1 eq_refl) as (f & g & Hf & Hr & Hcause).
    exists g. split; [|exact Hcause].
    apply rt_trans with f; [|exact Hr]. apply rt_step. exists fs. split; assumption.
  - intros o bs fs bs1 e _ _ _ _ Hgen e' s [= <- _].
    exists o. split; [apply rt_refl|]. right. exact Hgen.
  - discriminate.
  - discriminate.
  - intros f fs bs e bs1 _ IH e' s [= <- <-].
    destruct (IH e bs1 eq_refl) as (g & Hr & Hcause).
    exists f, g. split; [left; reflexivity|]. split; assumption.
  - intros f fs bs bs1 r _ _ _ IH e s ->.
    destruct (IH e s eq_refl) as (f' & g & Hf & Hr & Hcause).
    exists f', g. split; [right; exact Hf|]. split; assumption.
Qed.

(** *** Transpilers built by [add] *)

(** [built_from reqs tp]: [tp] is what the constructor and a sequence of
    [add] calls on the objects [reqs] (latest first) leave, whether the
    calls returned or raised. *)
Inductive built_from : list PyObj -> Transpiler -> Prop :=
| built_init b : built_from [] (Transpiler_init b)
| built_add reqs tp n o tp' :
    built_from reqs tp -> final (add n tp o) tp' -> built_from (o :: reqs) tp'.

Lemma add_final n tp o tp' :
  final (add n tp o) tp' ->
  exists r s, add_run (backend tp) o (blocks tp) r /\ final r s /\
    tp' = set_blocks tp s /\ add_blocks (backend tp) n o (blocks tp) = r.
Proof.
  unfold add. intros H.
  destruct (add_blocks (backend tp) n o (blocks tp)) as [s|e s|] eqn:E;
    simpl in H; [| |contradiction].
  - exists (Done s), s. repeat split; [|symmetry; exact H].
    apply (add_blocks_sound _ n); [exact E|discriminate].
  - exists (Raised e s), s. repeat split; [|symmetry; exact H].
    apply (add_blocks_sound _ n); [exact E|discriminate].
Qed.

Lemma add_done n tp o tp' :
  add n tp o = Done tp' ->
  exists s, add_run (backend tp) o (blocks tp) (Done s) /\ tp' = set_blocks tp s.
Proof.
  intros H. unfold add in H.
  destruct (add_blocks (backend tp) n o (blocks tp)) as [s|e s|] eqn:E;
    simpl in H; try discriminate H.
  injection H as <-. exists s. split; [|reflexivity].
  apply (add_blocks_sound _ n); [exact E|discriminate].
Qed.

(** What [add] keeps true of the unit list. *)
Lemma built_from_inv reqs tp :
  built_from reqs tp ->
  ordered (blocks tp) /\ NoDup (objs (blocks tp)) /\
  (forall u, In u (objs (blocks tp)) -> exists o, In o reqs /\ reaches o u) /\
  header tp = header (Transpiler_init (backend tp)).
Proof.
  induction 1 as [b | reqs tp n o tp' _ IH Hf].
  - split; [apply ordered_nil|]. split; [constructor|]. split; [intros u []|reflexivity].
  - destruct IH as (Ho & Hn & Hr & Hh).
    destruct (add_final n tp o tp' Hf) as (r & s & Hrun & Hs & -> & _). simpl.
    split; [exact (proj1 (run_ordered _) _ _ _ Hrun Ho s Hs)|].
    split; [exact (proj1 (run_nodup _) _ _ _ Hrun Ho Hn s Hs)|].
    split; [|exact Hh].
    intros u Hu.
    destruct (proj1 (run_new_reachable _) _ _ _ Hrun s u Hs Hu) as [Hold|Hnew].
    + destruct (Hr u Hold) as [o' [Ho' Hr']]. exists o'. split; [right; exact Ho'|exact Hr'].
    + exists o. split; [left; reflexivity|exact Hnew].
Qed.

(** Only names that pass [filter_calls] are ever looked up. *)
Lemma resolve_all_In f names : forall fs g,
  resolve_all f names = inr fs -> In g fs ->
  exists c, In c names /\ module_getattr f c = Some g.
Proof.
  induction names as [|c names IH]; intros fs g E Hg; simpl in E.
  - injection E as <-. destruct Hg.
  - destruct (module_getattr f c) as [o|] eqn:Hc; [|discriminate].
    destruct (resolve_all f names) as [e|os] eqn:Hr; [discriminate|].
    injection E as <-. destruct Hg as [<-|Hg].
    + exists c. split; [left; reflexivity|exact Hc].
    + destruct (IH os g eq_refl Hg) as [c' [Hin Hc']].
      exists c'. split; [right; exact Hin|exact Hc'].
Qed.

Lemma calls_by_name (f g : PyObj) :
  calls f g ->
  exists i cs c, f = Obj i /\ source_calls i = Some cs /\ In c cs /\
    is_builtin c = false /\ module_getattr i c = Some g.
Proof.
  intros [fs [E Hg]]. destruct f as [i|s]; [|discriminate E]. simpl in E.
  destruct (source_calls i) as [cs|] eqn:Hs; [|discriminate E].
  destruct (resolve_all_In i _ fs g E Hg) as [c [Hc Hm]].
  unfold filter_calls in Hc. apply filter_In in Hc as [Hc Hb].
  apply negb_true_iff in Hb. exists i, cs, c. repeat split; assumption.
Qed.


Lemma is_builtin_math c :
  In c math_dir -> private_name c = false -> is_builtin c = true.
Proof.
  intros H Hp. unfold is_builtin. apply bool_decide_eq_true.
  unfold BUILTINS. apply list_elem_of_In. apply in_or_app. left.
  apply filter_In. split; [exact H|]. rewrite Hp. reflexivity.
Qed.

(** *** The assembled text *)

Lemma join_cons sep x rest :
  exists z, join sep (x :: rest) = x ++ z.
Proof.
  destruct rest as [|y rest].
  - exists []. symmetry. apply app_nil_r.
  - exists (sep ++ join sep (y :: rest)). reflexivity.
Qed.

Lemma join_skip sep p1 : forall x rest,
  exists a, join sep (p1 ++ x :: rest) = a ++ join sep (x :: rest).
Proof.
  induction p1 as [|p p1 IH]; intros x rest.
  - exists []. reflexivity.
  - destruct (IH x rest) as [a Ha].
    exists (p ++ sep ++ a).
    change ((p :: p1) ++ x :: rest) with (p :: (p1 ++ x :: rest)).
    destruct (p1 ++ x :: rest) as [|q qs] eqn:E.
    { destruct p1; discriminate E. }
    change (join sep (p :: q :: qs)) with (p ++ sep ++ join sep (q :: qs)).
    rewrite Ha, <- !app_assoc. reflexivity.
Qed.

(** Parts keep their order in the joined text. *)
Lemma join_order sep p1 x p2 y p3 :
  exists a m z, join sep (p1 ++ x :: p2 ++ y :: p3) = a ++ x ++ m ++ y ++ z.
Proof.
  destruct (join_skip sep p1 x (p2 ++ y :: p3)) as [a Ha].
  destruct (join_skip sep p2 y p3) as [a2 Ha2].
  destruct (join_cons sep y p3) as [z Hz].
  exists a, (sep ++ a2), z. rewrite Ha.
  destruct (p2 ++ y :: p3) as [|q qs] eqn:E.
  { destruct p2; discriminate E. }
  change (join sep (x :: q :: qs)) with (x ++ sep ++ join sep (q :: qs)).
  rewrite Ha2, Hz, <- !app_assoc. reflexivity.
Qed.

(** *** Positions in the unit list *)

Lemma objs_lookup (bs : list CodeBlock) : forall j cb,
  bs !! j = Some cb -> objs bs !! j = Some (obj cb).
Proof.
  induction bs as [|b bs IH]; intros [|j] cb H; try discriminate H.
  - injection H as ->. reflexivity.
  - apply (IH j cb H).
Qed.

Lemma contains_take_lookup (bs : list CodeBlock) i g :
  contains g (take i bs) = true ->
  exists j cbg, (j < i)%nat /\ bs !! j = Some cbg /\ obj cbg = g.
Proof.
  intros H. apply contains_split in H as (pre & cbg & post & E & Hg).
  assert (take i bs !! length pre = Some cbg) as Hl.
  { rewrite E. apply list_lookup_middle. reflexivity. }
  assert (length pre < i)%nat as Hlt.
  { apply lookup_lt_Some in Hl. rewrite length_take in Hl. lia. }
  exists (length pre), cbg. split; [exact Hlt|]. split; [|exact Hg].
  rewrite lookup_take_lt in Hl by exact Hlt. exact Hl.
Qed.

Lemma lookup_two_split {A : Type} (l : list A) i j x y :
  l !! j = Some x -> l !! i = Some y -> (j < i)%nat ->
  exists l1 l2 l3, l = l1 ++ x :: l2 ++ y :: l3.
Proof.
  intros Hj Hi Hlt.
  pose proof (take_drop_middle l j x Hj) as E1.
  assert (drop (S j) l !! (i - S j)%nat = Some y) as Hi'.
  { rewrite lookup_drop. replace (S j + (i - S j))%nat with i by lia. exact Hi. }
  pose proof (take_drop_middle _ _ _ Hi') as E2.
  exists (take j l), (take (i - S j) (drop (S j) l)), (drop (S (i - S j)) (drop (S j) l)).
  rewrite E2. symmetry. exact E1.
Qed.

(** An object some module binds to a name of the allow-list. *)
Definition bound_to_builtin (u : PyObj) : Prop :=
  exists i c, is_builtin c = true /\ module_getattr i c = Some u.

Lemma set_blocks_same tp : set_blocks tp (blocks tp) = tp.
Proof. destruct tp. reflexivity. Qed.

(** *** Idempotence, dependency order, termination *)

(** C3. [add] is idempotent: once [add(o)] has returned, calling it again
    returns at once and leaves the transpiler, hence the unit list and the
    text of [get_code()], as they are. On a transpiler built by [add] every
    object reachable from [o] through non-builtin calls is registered, none
    twice; membership is decided on the originating objects alone, never
    on the generated text. *)
Theorem add_idempotent tp n o tp1 :
  add n tp o = Done tp1 ->
  (forall m, (0 < m)%nat -> add m tp1 o = Done tp1) /\
  (forall m tp2, final (add m tp1 o) tp2 ->
     blocks tp2 = blocks tp1 /\ get_code tp2 = get_code tp1) /\
  (forall reqs, built_from reqs tp ->
     NoDup (objs (blocks tp1)) /\
     (forall g, reaches o g -> In g (objs (blocks tp1)))) /\
  (forall bs x, objs bs = objs (blocks tp1) ->
     contains x bs = contains x (blocks tp1)).
Proof.
  intros Ha.
  destruct (add_done n tp o tp1 Ha) as [s [Hrun ->]].
  assert (contains o s = true) as Hc
    by exact (proj1 (run_registers _) _ _ _ Hrun s eq_refl).
  assert (forall m, (0 < m)%nat ->
            add m (set_blocks tp s) o = Done (set_blocks tp s)) as Hagain.
  { intros [|m] Hm; [lia|]. unfold add. simpl. rewrite Hc. reflexivity. }
  split; [exact Hagain|]. split; [|split].
  - intros [|m] tp2 H2; [destruct H2|].
    rewrite Hagain in H2 by lia. simpl in H2. subst tp2. split; reflexivity.
  - intros reqs Hb.
    destruct (built_from_inv reqs tp Hb) as (Ho & Hn & _ & _).
    assert (ordered s) as Hos
      by exact (proj1 (run_ordered _) _ _ _ Hrun Ho s eq_refl).
    split.
    + exact (proj1 (run_nodup _) _ _ _ Hrun Ho Hn s eq_refl).
    + intros g Hg. apply contains_In. simpl.
      apply (ordered_closed s o g Hos Hc Hg).
  - intros bs x E. apply contains_ignores_code. exact E.
Qed.

(** C4, as the code has it. After any sequence of [add] calls the unit
    list is in dependency order: when a registered [f] calls [g], a unit of [g] is registered at
    a smaller index, every unit of [g] stands before the unit of [f], and
    the code of [g] precedes the code of [f] in the text of [get_code()].
    A registered object is one that was passed to [add] or one a call-site
    name outside [BUILTINS] resolved to: builtins are told by the name at
    the call site, not by the object. So where the objects passed to [add]
    are not builtins and no module binds a builtin under a second,
    non-builtin name, no builtin is registered; a builtin with source that
    is passed to [add], or called under a second name, is registered. *)
Theorem add_dependency_order reqs tp :
  built_from reqs tp ->
  (forall i cbf g, blocks tp !! i = Some cbf -> calls (obj cbf) g ->
     exists j cbg, (j < i)%nat /\ blocks tp !! j = Some cbg /\ obj cbg = g) /\
  (forall i j cbf cbg,
     blocks tp !! i = Some cbf -> blocks tp !! j = Some cbg ->
     calls (obj cbf) (obj cbg) ->
     (j < i)%nat /\
     forall text, get_code tp = inr text ->
       exists a m z, text = a ++ code cbg ++ m ++ code cbf ++ z) /\
  (forall u, In u (objs (blocks tp)) ->
     In u reqs \/
     exists i cs c, source_calls i = Some cs /\ In c cs /\
       is_builtin c = false /\ module_getattr i c = Some u) /\
  ((forall o, In o reqs -> ~ bound_to_builtin o) ->
   (forall i c j c' u, is_builtin c = true -> module_getattr i c = Some u ->
      module_getattr j c' = Some u -> is_builtin c' = true) ->
   forall u, In u (objs (blocks tp)) -> ~ bound_to_builtin u).
Proof.
  intros Hb.
  destruct (built_from_inv reqs tp Hb) as (Ho & Hn & Hr & Hh).
  assert (forall i cbf g, blocks tp !! i = Some cbf -> calls (obj cbf) g ->
            exists j cbg, (j < i)%nat /\ blocks tp !! j = Some cbg /\ obj cbg = g)
    as Hbefore.
  { intros i cbf g Hi Hg. apply contains_take_lookup.
    apply (Ho (take i (blocks tp)) cbf (drop (S i) (blocks tp)) g); [|exact Hg].
    symmetry. apply take_drop_middle. exact Hi. }
  assert (forall u, In u (objs (blocks tp)) ->
            In u reqs \/
            exists i cs c, source_calls i = Some cs /\ In c cs /\
              is_builtin c = false /\ module_getattr i c = Some u) as Hnames.
  { intros u Hu. destruct (Hr u Hu) as [o [Hin Hou]].
    apply clos_rt_rtn1 in Hou. destruct Hou as [|v u Hvu _].
    - left. exact Hin.
    - right. destruct (calls_by_name v u Hvu) as (i & cs & c & _ & H1 & H2 & H3 & H4).
      exists i, cs, c. repeat split; assumption. }
  split; [exact Hbefore|]. split; [|split; [exact Hnames|]].
  - intros i j cbf cbg Hi Hj Hg.
    destruct (Hbefore i cbf (obj cbg) Hi Hg) as (j' & cbg' & Hlt & Hj' & Eo).
    assert (j' = j) as ->.
    { apply (NoDup_lookup (objs (blocks tp)) j' j (obj cbg) Hn).
      - rewrite <- Eo. apply objs_lookup. exact Hj'.
      - apply objs_lookup. exact Hj. }
    split; [exact Hlt|].
    intros text Ht. unfold get_code in Ht.
    destruct (header tp) as [h|]; [|discriminate Ht]. injection Ht as <-.
    destruct (lookup_two_split (blocks tp) i j cbg cbf Hj Hi Hlt) as (l1 & l2 & l3 & ->).
    rewrite map_app. simpl. rewrite map_app. simpl.
    apply (join_order newline (h :: map code l1)).
  - intros Hreq Halias u Hu (i & c & Hc & Hm).
    destruct (Hnames u Hu) as [Hin | (j & cs & c' & _ & _ & Hc' & Hm')].
    + apply (Hreq u Hin). exists i, c. split; assumption.
    + rewrite (Halias i c j c' u Hc Hm Hm') in Hc'. discriminate Hc'.
Qed.

(** C10. [add(o)] returns or raises whenever the calls reachable from [o]
    form a finite graph without cycles. When [o] lies on a call cycle no
    amount of fuel lets [add(o)] return; and where every reachable object
    resolves and translates, it neither returns nor raises: the recursion
    goes on without bound. *)
Theorem add_terminates_iff_acyclic tp o :
  (forall U, (forall g, reaches o g -> In g U) ->
     (forall g, reaches o g -> ~ on_cycle g) ->
     exists r n, r <> Diverged /\ forall m, (n <= m)%nat -> add m tp o = r) /\
  (forall reqs, built_from reqs tp -> on_cycle o ->
     (forall n tp', add n tp o <> Done tp') /\
     ((forall g, reaches o g ->
         (exists fs, get_all_functions g = inr fs) /\
         (exists c, generate (backend tp) g = inr c)) ->
      forall n, add n tp o = Diverged)).
Proof.
  split.
  - intros U HU Hacyc.
    destruct (add_run_total (backend tp) o (acyclic_finite_acc o U HU Hacyc) (blocks tp))
      as [r Hrun].
    destruct (proj1 (add_run_complete _) _ _ _ Hrun) as [n Hn].
    exists (map_outcome (set_blocks tp) r), n. split.
    + pose proof (proj1 (add_run_not_diverged _) _ _ _ Hrun) as Hr.
      destruct r; [discriminate|discriminate|congruence].
    + intros m Hm. unfold add. rewrite Hn by exact Hm. reflexivity.
  - intros reqs Hb Hcyc.
    destruct (built_from_inv reqs tp Hb) as (Ho & _ & _ & _).
    assert (forall n tp', add n tp o <> Done tp') as Hdone.
    { intros n tp' Ha. destruct (add_done n tp o tp' Ha) as [s [Hrun _]].
      exact (run_done_acyclic _ o (blocks tp) s Ho Hrun Hcyc). }
    split; [exact Hdone|].
    intros Hok n. destruct (add n tp o) as [tp'|e tp'|] eqn:Ha; [| |reflexivity].
    + exfalso. exact (Hdone n tp' Ha).
    + exfalso. unfold add in Ha.
      destruct (add_blocks (backend tp) n o (blocks tp)) as [s|e' s|] eqn:E;
        try discriminate Ha.
      pose proof (add_blocks_sound _ n o _ _ E ltac:(discriminate)) as Hrun.
      destruct (proj1 (run_raised_cause _) _ _ _ Hrun e' s eq_refl)
        as (g & Hg & [Hbad|Hbad]).
      * destruct (Hok g Hg) as [[fs Hfs] _]. congruence.
      * destruct (Hok g Hg) as [_ [c Hc]]. congruence.
Qed.

(** ** Local memory and the kernel dispatcher *)

(** A numpy dtype, as far as the dispatcher looks at it. *)
Record Dtype := mkDtype {
  dtype_name : str;
  itemsize : Z
}.

(** [ctype_to_dtype] of [pysph.cpy.types]: a table lookup, [None] where
    the table has no entry for the C type (a [KeyError]). *)
Variable ctype_to_dtype : str -> option Dtype.

(** [get_backend] of [pysph.cpy.array]: the backend named, or the configured
    one for [None]. *)
Variable get_backend : option Backend -> Backend.

(** A Python number passed as a kernel argument; its value is not looked
    at. *)
Variable Scalar : Type.

(** [KnownType(type, base_type)] *)
Record KnownType := mkKnownType {
  type : str;
  base_type : str
}.

(** A [cl.LocalMemory(size)] object: [alloc_id] is its identity, the number
    of the request that created it. *)
Record LocalMemory := mkLocalMemory {
  alloc_id : nat;
  alloc_size : Z
}.

(** [class LocalMem] *)
Record LocalMem := mkLocalMem {
  lm_backend : Backend;
  size : Z;
  _cache : gmap (str * Z) LocalMemory
}.

(** [LocalMem.__init__(size, backend)] *)
Definition LocalMem_init (sz : Z) (b : option Backend) : exn + LocalMem :=
  match b with
  | Some Cython => inl NotImplementedError
  | _ => inr (mkLocalMem (get_backend b) sz ∅)
  end.

(** [LocalMem.get(c_type, workgroup_size)]; [allocs] lists the sizes
    requested from the device runtime with [cl.LocalMemory] so far. *)
Definition LocalMem_get (self : LocalMem) (c_type : str) (workgroup_size : Z)
    (allocs : list Z) : (exn + LocalMemory) * LocalMem * list Z :=
  let key := (c_type, workgroup_size) in
  match _cache self !! key with
  | Some mem => (inr mem, self, allocs)
  | None =>
      match lm_backend self with
      | OpenCL =>
          match ctype_to_dtype c_type with
          | None => (inl KeyError, self, allocs)
          | Some dtype =>
              let sz := itemsize dtype in
              let nbytes := (sz * size self * workgroup_size)%Z in
              let mem := mkLocalMemory (length allocs) nbytes in
              (inr mem,
               mkLocalMem (lm_backend self) (size self) (<[key := mem]> (_cache self)),
               allocs ++ [nbytes])
          end
      | _ => (inl NotImplementedError, self, allocs)
      end
  end.

(** A positional argument of a kernel call: an [Array] (the shape of its
    host data and its device buffer), a [LocalMem] object (by reference:
    the object is shared with the caller), or anything else. Of the other
    objects some have a [data] attribute with a [shape], as a numpy array or
    a numpy scalar has ([ShapedArg]); a Python number has none
    ([ScalarArg]). *)
Inductive PyArg :=
| ArrayArg (shape : list Z) (dev_data : nat)
| LocalMemArg (ref : nat)
| ScalarArg (x : Scalar)
| ShapedArg (x : Scalar) (shape : list Z).

(** [x.data.shape]; [None] where the attribute lookup fails. *)
Definition data_shape (x : PyArg) : option (list Z) :=
  match x with
  | ArrayArg shape _ => Some shape
  | ShapedArg _ shape => Some shape
  | LocalMemArg _ => None
  | ScalarArg _ => None
  end.

(** What is passed on to the compiled kernel. *)
Inductive CArg :=
| DevData (handle : nat)
| LocalArg (mem : LocalMemory)
| HostArray (elems : list Scalar) (dtype : Dtype).

(** One call of the compiled kernel: the geometry and the marshalled
    arguments passed after the queue. *)
Record Launch := mkLaunch {
  launch_gs : list Z;
  launch_ls : list Z;
  launch_args : list CArg
}.

(** The state outside the dispatcher: the [LocalMem] objects alive, the
    local-memory requests made, the calls of the compiled kernel issued
    (whether they returned or raised) and the number of [queue.finish()]
    calls. *)
Record World := mkWorld {
  heap : gmap nat LocalMem;
  local_allocs : list Z;
  launches : list Launch;
  finishes : nat
}.

(** What the OpenCL runtime answers: [knl l] is the exception the compiled
    kernel raises when called with the geometry and arguments [l], and
    [queue_finish l] the one [queue.finish()] raises after that call;
    [None] where the call returns. The runtime is taken to answer equal
    calls alike. *)
Variable knl : Launch -> option exn.
Variable queue_finish : Launch -> option exn.

Definition M (A : Type) : Type := World -> (exn + A) * World.

Definition ret {A : Type} (a : A) : M A := fun w => (inr a, w).
Definition raise {A : Type} (e : exn) : M A := fun w => (inl e, w).
Definition bind {A B : Type} (m : M A) (k : A -> M B) : M B :=
  fun w =>
    match m w with
    | (inr a, w') => k a w'
    | (inl e, w') => (inl e, w')
    end.

(** [class Kernel], once built. *)
Record Kernel := mkKernel {
  tp : Transpiler;
  kernel_backend : Backend;
  func : PyObj;
  kernel_source : str;
  _use_double : bool;
  queue : Splay.Device;
  _func_info : list (str * KnownType) * KnownType;
  _max_work_group_size : Z
}.

(** What [inspect.getfullargspec] reports for the kernel function. *)
Record ArgSpec := mkArgSpec {
  args : list str;
  annotations : gmap str KnownType
}.

(** The loop of [_get_func_info]; a parameter without an annotation is a
    [KeyError]. *)
Fixpoint arg_info (use_double : bool) (ann : gmap str KnownType) (names : list str)
  : exn + list (str * KnownType) :=
  match names with
  | [] => inr []
  | arg :: rest =>
      match ann !! arg with
      | None => inl KeyError
      | Some kt =>
          let kt :=
            if negb use_double then
              mkKnownType (_to_float unicode_alnum (type kt))
                          (_to_float unicode_alnum (base_type kt))
            else kt in
          match arg_info use_double ann rest with
          | inl e => inl e
          | inr l => inr ((arg, kt) :: l)
          end
      end
  end.

Definition _get_func_info (use_double : bool) (argspec : ArgSpec)
  : exn + (list (str * KnownType) * KnownType) :=
  match arg_info use_double (annotations argspec) (args argspec) with
  | inl e => inl e
  | inr l =>
      inr (l, default (mkKnownType (txt "void") [])
                (annotations argspec !! txt "return"))
  end.

(** [Kernel._correct_opencl_address_space], on the transpiler. *)
Definition _correct_opencl_address_space (t : Transpiler) : exn + Transpiler :=
  let i := (length (blocks t) - 1)%nat in
  match blocks t !! i with
  | None => inl IndexError
  | Some cb =>
      match splitlines (code cb) with
      | [] => inl IndexError
      | line0 :: rest =>
          let lines := (txt "KERNEL " ++ line0) :: rest in
          inr (set_blocks t (<[i := mkCodeBlock (obj cb) (join newline lines)]> (blocks t)))
      end
  end.

(** [Kernel._generate]: the transpiler after [add], the fix-up and
    [compile], and what was handed to the build. [None] stands for an [add]
    that does not return. *)
Definition _generate (fuel : nat) (use_double : bool) (t : Transpiler) (f : PyObj)
  : option (exn + Transpiler * option Build) :=
  match add fuel t f with
  | Diverged => None
  | Raised e _ => Some (inl e)
  | Done t1 =>
      match _correct_opencl_address_space t1 with
      | inl e => Some (inl e)
      | inr t2 => Some (compile use_double t2)
      end
  end.

(** [Kernel.__init__]. [dev] is the device of the queue, [wg_info] what the
    built kernel reports as its work-group size. *)
Definition Kernel_init (fuel : nat) (f : PyObj) (argspec : ArgSpec)
    (b : option Backend) (use_double : bool) (dev : Splay.Device) (wg_info : Z)
  : option (exn + Kernel) :=
  let b := get_backend b in
  match b with
  | Cython => Some (inl NotImplementedError)
  | _ =>
      match _get_func_info use_double argspec with
      | inl e => Some (inl e)
      | inr info =>
          match _generate fuel use_double (Transpiler_init b) f with
          | None => None
          | Some (inl e) => Some (inl e)
          | Some (inr (t, _)) =>
              Some (inr (mkKernel t b f (source t) use_double dev info wg_info))
          end
      end
  end.

(** [np.array([x], dtype=dtype)] *)
Definition np_array_of (x : Scalar) (type_info : KnownType) : M CArg :=
  match ctype_to_dtype (type type_info) with
  | None => raise KeyError
  | Some dtype => ret (HostArray [x] dtype)
  end.

(** [Kernel._massage_arg]. The work-group size reaches [LocalMem.get] as
    [__call__] read it from [ls[0]], and the byte count is the product
    Python computes; where [ls[0]] is the numpy integer of the third regime
    of [splay], numpy computes the same product as long as it fits in 64
    bits. The reference of a [LocalMemArg] that names no live object is a
    [TypeError]. *)
Definition _massage_arg (x : PyArg) (type_info : KnownType) (workgroup_size : Z)
  : M CArg :=
  match x with
  | ArrayArg _ dev_data => ret (DevData dev_data)
  | LocalMemArg r =>
      fun w =>
        match heap w !! r with
        | None => (inl TypeError, w)
        | Some lm =>
            let '(res, lm', allocs') :=
              LocalMem_get lm (base_type type_info) workgroup_size (local_allocs w) in
            let w' := mkWorld (<[r := lm']> (heap w)) allocs' (launches w) (finishes w) in
            match res with
            | inl e => (inl e, w')
            | inr mem => (inr (LocalArg mem), w')
            end
        end
  | ScalarArg v => np_array_of v type_info
  | ShapedArg v _ => np_array_of v type_info
  end.

(** The loop of [_get_args] over [zip(args, arg_info)]. *)
Fixpoint massage_all (pairs : list (PyArg * (str * KnownType))) (workgroup_size : Z)
  : M (list CArg) :=
  match pairs with
  | [] => ret []
  | (arg, a_info) :: rest =>
      bind (_massage_arg arg (snd a_info) workgroup_size) (fun c =>
      bind (massage_all rest workgroup_size) (fun cs =>
      ret (c :: cs)))
  end.

Definition _get_args (self : Kernel) (call_args : list PyArg) (workgroup_size : Z)
  : M (list CArg) :=
  massage_all (combine call_args (fst (_func_info self))) workgroup_size.

(** [Kernel._get_workgroup_size]: [__call__] passes the numpy integer
    [np.prod(gs)] for [global_size]. *)
Definition _get_workgroup_size (self : Kernel) (global_size : Z) : list Z * list Z :=
  Splay.splay_int64 (queue self) global_size (Some (_max_work_group_size self)).

(** The product of the entries as Python computes it on its own integers. *)
Definition product (t : list Z) : Z := fold_right Z.mul 1%Z t.

(** [np.prod] of a tuple of integers: the tuple becomes an array of 64-bit
    integers and the product is taken in 64 bits, wrapping around when it
    leaves the range (wrapping after every factor or once at the end gives
    the same number). For the empty tuple numpy returns the float [1.0],
    which the model does not tell from the integer 1. *)
Definition np_prod (t : list Z) : Z := Splay.wrap64 (product t).

(** The geometry [__call__] settles on: [(gs, ls)], for [n] the numpy
    integer [np.prod(gs)]. With [local_size] given, [n + local_size - 1],
    the quotient and the multiple are numpy integers too. *)
Definition launch_geometry (self : Kernel) (n : Z) (ls : option (list Z))
  : list Z * list Z :=
  match ls with
  | Some ls =>
      let local_size := np_prod ls in
      let global_size :=
        Splay.int64_mul
          (Splay.int64_floordiv
             (Splay.int64_sub (Splay.int64_add n local_size) 1) local_size)
          local_size in
      ([global_size], ls)
  | None => _get_workgroup_size self n
  end.

(** The call of [self.knl] on the queue, the geometry and the marshalled
    arguments, and [self.queue.finish()]: the call is recorded, then the
    runtime answers. *)
Definition call_knl (l : Launch) : M unit :=
  fun w =>
    let w' := mkWorld (heap w) (local_allocs w) (launches w ++ [l]) (finishes w) in
    match knl l with
    | Some e => (inl e, w')
    | None => (inr tt, w')
    end.

Definition call_queue_finish (l : Launch) : M unit :=
  fun w =>
    let w' := mkWorld (heap w) (local_allocs w) (launches w) (S (finishes w)) in
    match queue_finish l with
    | Some e => (inl e, w')
    | None => (inr tt, w')
    end.

(** [Kernel.__call__] on the positional arguments [call_args] and the
    keywords [global_size] and [local_size]. [args[0]] is an [IndexError]
    without arguments, [.data.shape] an [AttributeError] on an object
    without that attribute, [ls[0]] an [IndexError] on an empty
    [local_size]. *)
Definition Kernel_call (self : Kernel) (call_args : list PyArg)
    (global_size local_size : option (list Z)) : M unit :=
  match call_args with
  | [] => raise IndexError
  | first :: _ =>
      match data_shape first with
      | None => raise AttributeError
      | Some size =>
          let gs := default size global_size in
          let n := np_prod gs in
          let '(gs, ls) := launch_geometry self n local_size in
          match ls with
          | [] => raise IndexError
          | ls0 :: _ =>
              bind (_get_args self call_args ls0) (fun c_args =>
              match kernel_backend self with
              | OpenCL =>
                  bind (call_knl (mkLaunch gs ls c_args)) (fun _ =>
                  call_queue_finish (mkLaunch gs ls c_args))
              | _ => ret tt
              end)
          end
      end
  end.

(** *** The precision rewrite in [compile] *)

(** C5. With the 64-bit policy [convert_to_float_if_needed] returns its
    input; with the 32-bit policy its output holds no standalone [double],
    while every other identifier, among them those that merely contain
    [double], is copied as it is; and the OpenCL branch of [compile] builds
    the rewritten text of [get_code()]. *)
Theorem precision_rewrite :
  (forall code, convert_to_float_if_needed unicode_alnum true code = code) /\
  (forall code,
     has_standalone unicode_alnum false
       (convert_to_float_if_needed unicode_alnum false code) = false /\
     ~ standalone_double unicode_alnum
         (convert_to_float_if_needed unicode_alnum false code)) /\
  (forall pre w post,
     boundary_before unicode_alnum pre = true ->
     forallb (is_word unicode_alnum) w = true ->
     boundary_after unicode_alnum post = true ->
     w <> double_kw ->
     convert_to_float_if_needed unicode_alnum false (pre ++ w ++ post) =
     convert_to_float_if_needed unicode_alnum false pre ++ w ++
     convert_to_float_if_needed unicode_alnum false post) /\
  (forall use_double t text,
     backend t = OpenCL -> get_code t = inr text ->
     exists t',
       compile use_double t =
         inr (t', Some (CLProgram
                (convert_to_float_if_needed unicode_alnum use_double text)
                [txt "-w"])) /\
       source t' = convert_to_float_if_needed unicode_alnum use_double text /\
       blocks t' = blocks t).
Proof.
  split; [apply convert_use_double|]. split; [|split].
  - intros code. pose proof (convert_no_standalone unicode_alnum code) as H.
    split; [exact H|]. intros Hs. apply has_standalone_iff in Hs. congruence.
  - intros pre w post Hb Hw Hp Hne.
    apply re_sub_double_keeps_identifier; assumption.
  - intros use_double t text Hb Hc. unfold compile. rewrite Hb, Hc.
    eexists. split; [reflexivity|]. split; reflexivity.
Qed.

(** *** Launch geometry *)

Lemma product_pos (t : list Z) :
  Forall (fun x => 1 <= x)%Z t -> (1 <= product t)%Z.
Proof.
  unfold product. induction 1 as [|x t Hx _ IH]; simpl; [lia|nia].
Qed.

(** Within 64 bits [np.prod] is the product. *)
Lemma np_prod_exact (t : list Z) :
  Forall (fun x => 1 <= x)%Z t -> (product t <= Splay.int64_max)%Z ->
  np_prod t = product t.
Proof.
  intros Ht Hmax. pose proof (product_pos t Ht).
  apply Splay.wrap64_small. unfold Splay.int64_min. lia.
Qed.

(** numpy multiplies the entries one after the other, each product taken
    in 64 bits: the result is the product, wrapped once. *)
Lemma np_prod_stepwise (t : list Z) :
  fold_left Splay.int64_mul t 1%Z = np_prod t.
Proof.
  assert (forall acc, fold_left Splay.int64_mul t (Splay.wrap64 acc) =
                      Splay.wrap64 (acc * product t)) as H.
  { induction t as [|x t IH]; intros acc; simpl.
    - rewrite Z.mul_1_r. reflexivity.
    - unfold Splay.int64_mul at 2. rewrite Splay.wrap64_mul_l, IH.
      f_equal. lia. }
  change 1%Z with (Splay.wrap64 1) at 1. rewrite H. unfold np_prod. f_equal. lia.
Qed.

(** Marshalling issues no kernel call. *)
Lemma _massage_arg_frame x type_info wg w r w' :
  _massage_arg x type_info wg w = (r, w') ->
  launches w' = launches w /\ finishes w' = finishes w.
Proof.
  intros E. destruct x as [sh dd|ref|v|v sh]; simpl in E.
  - injection E as _ <-. split; reflexivity.
  - destruct (heap w !! ref) as [lm|]; [|injection E as _ <-; split; reflexivity].
    destruct (LocalMem_get lm (base_type type_info) wg (local_allocs w))
      as [[res lm'] allocs'].
    destruct res; injection E as _ <-; split; reflexivity.
  - unfold np_array_of in E.
    destruct (ctype_to_dtype (type type_info)); injection E as _ <-; split; reflexivity.
  - unfold np_array_of in E.
    destruct (ctype_to_dtype (type type_info)); injection E as _ <-; split; reflexivity.
Qed.

Lemma massage_all_frame pairs wg : forall w r w',
  massage_all pairs wg w = (r, w') ->
  launches w' = launches w /\ finishes w' = finishes w.
Proof.
  induction pairs as [|[arg a_info] pairs IH]; intros w r w' E; simpl in E.
  - injection E as _ <-. split; reflexivity.
  - unfold bind in E.
    destruct (_massage_arg arg (snd a_info) wg w) as [[e|c] w2] eqn:E1.
    + injection E as _ <-. apply (_massage_arg_frame _ _ _ _ _ _ E1).
    + destruct (_massage_arg_frame _ _ _ _ _ _ E1) as [H1 H2].
      destruct (massage_all pairs wg w2) as [[e|cs] w3] eqn:E2.
      * injection E as _ <-. destruct (IH _ _ _ E2) as [H3 H4].
        split; congruence.
      * injection E as _ <-. destruct (IH _ _ _ E2) as [H3 H4].
        split; congruence.
Qed.

(** The ways a call ends. Either the compiled kernel was not called, and
    then the call raised or the backend is not OpenCL; or it was called
    once, on the OpenCL backend, with the geometry [launch_geometry] gives
    and the arguments [_get_args] returned, and [queue.finish()] followed
    if and only if that call returned. *)
Lemma Kernel_call_cases self call_args global_size local_size w r w' :
  Kernel_call self call_args global_size local_size w = (r, w') ->
  (launches w' = launches w /\ finishes w' = finishes w /\
   (r <> inr tt \/ kernel_backend self <> OpenCL)) \/
  (exists first rest size gs ls c_args wm,
     call_args = first :: rest /\ data_shape first = Some size /\
     kernel_backend self = OpenCL /\
     launch_geometry self (np_prod (default size global_size)) local_size = (gs, ls) /\
     _get_args self call_args (default 0%Z (head ls)) w = (inr c_args, wm) /\
     heap w' = heap wm /\ local_allocs w' = local_allocs wm /\
     launches wm = launches w /\
     launches w' = launches w ++ [mkLaunch gs ls c_args] /\
     match knl (mkLaunch gs ls c_args) with
     | Some e => r = inl e /\ finishes w' = finishes w
     | None =>
         finishes w' = S (finishes w) /\
         r = match queue_finish (mkLaunch gs ls c_args) with
             | Some e => inl e
             | None => inr tt
             end
     end).
Proof.
  intros H. unfold Kernel_call in H.
  destruct call_args as [|first rest].
  { injection H as <- <-. left. split; [reflexivity|]. split; [reflexivity|].
    left. discriminate. }
  destruct (data_shape first) as [size|] eqn:Hs.
  2:{ injection H as <- <-. left. split; [reflexivity|]. split; [reflexivity|].
      left. discriminate. }
  destruct (launch_geometry self (np_prod (default size global_size)) local_size)
    as [gs ls] eqn:Hg.
  destruct ls as [|ls0 ls1].
  { injection H as <- <-. left. split; [reflexivity|]. split; [reflexivity|].
    left. discriminate. }
  unfold bind in H.
  destruct (_get_args self (first :: rest) ls0 w) as [[e|c_args] wm] eqn:E.
  { injection H as <- <-. destruct (massage_all_frame _ _ _ _ _ E) as [H1 H2].
    left. split; [exact H1|]. split; [exact H2|]. left. discriminate. }
  destruct (massage_all_frame _ _ _ _ _ E) as [H1 H2].
  destruct (kernel_backend self) eqn:Hb.
  - injection H as <- <-. left. split; [exact H1|]. split; [exact H2|].
    right. discriminate.
  - right. exists first, rest, size, gs, (ls0 :: ls1), c_args, wm.
    split; [reflexivity|]. split; [exact Hs|]. split; [reflexivity|].
    split; [exact Hg|]. split; [exact E|].
    unfold call_knl, call_queue_finish in H.
    destruct (knl (mkLaunch gs (ls0 :: ls1) c_args)) as [e|].
    + injection H as <- <-. cbn [heap local_allocs launches finishes].
      rewrite H1, H2. repeat split; reflexivity.
    + cbn [heap local_allocs launches finishes] in H.
      destruct (queue_finish (mkLaunch gs (ls0 :: ls1) c_args)) as [e|];
        injection H as <- <-; cbn [heap local_allocs launches finishes];
        rewrite H1, H2; repeat split; reflexivity.
  - injection H as <- <-. left. split; [exact H1|]. split; [exact H2|].
    right. discriminate.
Qed.

Lemma app_one_more {A : Type} (l : list A) (x : A) : l ++ [x] <> l.
Proof.
  intros H. apply (f_equal (@length A)) in H. rewrite length_app in H.
  simpl in H. lia.
Qed.

(** The one call of the compiled kernel a dispatcher call has issued. *)
Lemma Kernel_call_launched self call_args global_size local_size w r w' l :
  Kernel_call self call_args global_size local_size w = (r, w') ->
  launches w' = launches w ++ [l] ->
  exists first rest size c_args wm,
    call_args = first :: rest /\ data_shape first = Some size /\
    kernel_backend self = OpenCL /\
    launch_geometry self (np_prod (default size global_size)) local_size =
      (launch_gs l, launch_ls l) /\
    _get_args self call_args (default 0%Z (head (launch_ls l))) w = (inr c_args, wm) /\
    launch_args l = c_args.
Proof.
  intros H Hl.
  destruct (Kernel_call_cases _ _ _ _ _ _ _ H)
    as [(H1 & _) | (first & rest & size & gs & ls & c_args & wm &
                     E1 & E2 & E3 & E4 & E5 & _ & _ & _ & E6 & _)].
  - rewrite H1 in Hl. symmetry in Hl. destruct (app_one_more _ _ Hl).
  - rewrite E6 in Hl. apply app_inj_tail in Hl as [_ <-].
    exists first, rest, size, c_args, wm. repeat split; assumption.
Qed.

(** C6, as the code has it. The item count [n] and the products are numpy
    integers of 64 bits. With an explicit [local_size] of positive entries
    and [n >= 1], as long as [n + product(local_size) - 1] fits in 64 bits,
    the global size is the least multiple of [product(local_size)] that is
    at least [n], and a dispatcher call that reaches the compiled kernel
    passes it that global size and the [local_size] given. Without
    [local_size] the geometry passed is what [splay] returns for the numpy
    integer [n] and the work-group size recorded for the kernel, which is
    what [splay] returns for the Python integer as long as [2*n + 128]
    fits. *)
Theorem explicit_local_size_geometry self n ls :
  (1 <= n)%Z -> Forall (fun x => 1 <= x)%Z ls ->
  (n + product ls - 1 <= Splay.int64_max)%Z ->
  (exists g,
     launch_geometry self n (Some ls) = ([g], ls) /\
     np_prod ls = product ls /\
     (exists k, g = k * product ls)%Z /\ (n <= g)%Z /\
     (forall m, (exists k, m = k * product ls)%Z -> (n <= m)%Z -> (g <= m)%Z) /\
     (forall first rest size global_size w r w' l,
        data_shape first = Some size ->
        np_prod (default size global_size) = n ->
        Kernel_call self (first :: rest) global_size (Some ls) w = (r, w') ->
        launches w' = launches w ++ [l] ->
        launch_gs l = [g] /\ launch_ls l = ls)) /\
  launch_geometry self n None =
    Splay.splay_int64 (queue self) n (Some (_max_work_group_size self)) /\
  (Splay.limits_ok (queue self) (Some (_max_work_group_size self)) ->
   (2 * n + 128 <= Splay.int64_max)%Z ->
   launch_geometry self n None =
     Splay.splay (queue self) n (Some (_max_work_group_size self))) /\
  (forall first rest size global_size w r w' l,
     data_shape first = Some size ->
     np_prod (default size global_size) = n ->
     Kernel_call self (first :: rest) global_size None w = (r, w') ->
     launches w' = launches w ++ [l] ->
     (launch_gs l, launch_ls l) =
       Splay.splay_int64 (queue self) n (Some (_max_work_group_size self))).
Proof.
  intros Hn Hls Hmax. pose proof (product_pos ls Hls) as HL.
  assert (forall first rest size global_size local_size w r w' l,
            data_shape first = Some size ->
            np_prod (default size global_size) = n ->
            Kernel_call self (first :: rest) global_size local_size w = (r, w') ->
            launches w' = launches w ++ [l] ->
            launch_geometry self n local_size = (launch_gs l, launch_ls l)) as Hcall.
  { intros first rest size global_size local_size w r w' l Hs Hnp H Hl.
    destruct (Kernel_call_launched _ _ _ _ _ _ _ _ H Hl)
      as (first' & rest' & size' & c_args & wm & E1 & E2 & _ & E4 & _).
    injection E1 as <- <-. rewrite Hs in E2. injection E2 as <-.
    rewrite Hnp in E4. exact E4. }
  split; [|split; [reflexivity|split]].
  - assert (np_prod ls = product ls) as Hp by (apply np_prod_exact; [exact Hls|lia]).
    assert (launch_geometry self n (Some ls) =
              ([((n + product ls - 1) / product ls * product ls)%Z], ls)) as Hg.
    { cbn [launch_geometry]. rewrite Hp.
      destruct (Splay.int64_round_up n (product ls) Hn HL Hmax) as [-> ->].
      reflexivity. }
    exists ((n + product ls - 1) / product ls * product ls)%Z.
    split; [exact Hg|]. split; [exact Hp|]. split; [eexists; reflexivity|].
    split; [apply Splay.ceil_mul_ge; lia|]. split.
    + intros m [k ->] Hm.
      pose proof (Splay.ceil_le n (product ls) k ltac:(lia) Hm). nia.
    + intros first rest size global_size w r w' l Hs Hnp H Hl.
      pose proof (Hcall _ _ _ _ _ _ _ _ _ Hs Hnp H Hl) as E.
      rewrite Hg in E. injection E as <- <-. split; reflexivity.
  - intros Hlim H2. cbn [launch_geometry]. unfold _get_workgroup_size.
    apply Splay.splay_int64_exact; assumption.
  - intros first rest size global_size w r w' l Hs Hnp H Hl.
    symmetry. exact (Hcall _ _ _ _ _ _ _ _ _ Hs Hnp H Hl).
Qed.

(** *** Local memory *)

(** C9, as the code has it. The first [get] for a key requests one
    allocation of [itemsize * size * workgroup_size] bytes and stores the
    object under the key; a [get] for a stored key returns that same object
    and requests nothing. *)
Theorem LocalMem_get_cached self c_type wg allocs :
  (forall mem self' allocs',
     LocalMem_get self c_type wg allocs = (inr mem, self', allocs') ->
     LocalMem_get self' c_type wg allocs' = (inr mem, self', allocs')) /\
  (forall dt,
     _cache self !! (c_type, wg) = None -> lm_backend self = OpenCL ->
     ctype_to_dtype c_type = Some dt ->
     let nbytes := (itemsize dt * size self * wg)%Z in
     let mem := mkLocalMemory (length allocs) nbytes in
     LocalMem_get self c_type wg allocs =
       (inr mem,
        mkLocalMem OpenCL (size self) (<[(c_type, wg) := mem]> (_cache self)),
        allocs ++ [nbytes])) /\
  (forall mem,
     _cache self !! (c_type, wg) = Some mem ->
     LocalMem_get self c_type wg allocs = (inr mem, self, allocs)).
Proof.
  split; [|split].
  - intros mem self' allocs' H. unfold LocalMem_get in H.
    destruct (_cache self !! (c_type, wg)) as [m|] eqn:Hc.
    + injection H as <- <- <-. unfold LocalMem_get. rewrite Hc. reflexivity.
    + destruct (lm_backend self); try discriminate H.
      destruct (ctype_to_dtype c_type) as [dt|]; [|discriminate H].
      injection H as <- <- <-. unfold LocalMem_get. simpl.
      rewrite lookup_insert_eq. reflexivity.
  - intros dt Hc Hb Hd. unfold LocalMem_get. rewrite Hc, Hb, Hd. reflexivity.
  - intros mem Hc. unfold LocalMem_get. rewrite Hc. reflexivity.
Qed.

(** *** Parameter type info *)

Definition adjust (use_double : bool) (kt : KnownType) : KnownType :=
  if negb use_double then
    mkKnownType (_to_float unicode_alnum (type kt))
                (_to_float unicode_alnum (base_type kt))
  else kt.

Lemma arg_info_lookup use_double ann names : forall l i a kt,
  arg_info use_double ann names = inr l -> l !! i = Some (a, kt) ->
  names !! i = Some a /\ exists kt0, ann !! a = Some kt0 /\ kt = adjust use_double kt0.
Proof.
  induction names as [|arg names IH]; intros l i a kt E Hi; simpl in E.
  - injection E as <-. discriminate Hi.
  - destruct (ann !! arg) as [kt0|] eqn:Ha; [|discriminate E].
    destruct (arg_info use_double ann names) as [e|l'] eqn:El; [discriminate E|].
    injection E as <-. destruct i as [|i]; simpl in Hi.
    + injection Hi as <- <-. split; [reflexivity|]. exists kt0. split; [exact Ha|reflexivity].
    + apply (IH l' i a kt eq_refl Hi).
Qed.

(** The entry recorded for the [i]-th parameter is its adjusted
    annotation. *)
Lemma arg_info_at use_double ann names : forall l i a kt0,
  arg_info use_double ann names = inr l ->
  names !! i = Some a -> ann !! a = Some kt0 ->
  l !! i = Some (a, adjust use_double kt0).
Proof.
  induction names as [|arg names IH]; intros l i a kt0 E Hi Ha; simpl in E.
  - discriminate Hi.
  - destruct (ann !! arg) as [kt1|] eqn:Ha1; [|discriminate E].
    destruct (arg_info use_double ann names) as [e|l'] eqn:El; [discriminate E|].
    injection E as <-. destruct i as [|i]; simpl in Hi.
    + injection Hi as ->. rewrite Ha in Ha1. injection Ha1 as <-. reflexivity.
    + apply (IH l' i a kt0 eq_refl Hi Ha).
Qed.

Lemma _to_float_double : _to_float unicode_alnum (txt "double") = txt "float".
Proof. reflexivity. Qed.

Lemma Kernel_init_func_info fuel f argspec b use_double dev wg_info k :
  Kernel_init fuel f argspec b use_double dev wg_info = Some (inr k) ->
  _get_func_info use_double argspec = inr (_func_info k) /\
  _use_double k = use_double /\ kernel_backend k = get_backend b.
Proof.
  unfold Kernel_init. intros H.
  destruct (get_backend b) eqn:Hb; [discriminate H| |].
  - destruct (_get_func_info use_double argspec) as [e|info]; [discriminate H|].
    destruct (_generate fuel use_double (Transpiler_init OpenCL) f) as [[e|[t bd]]|];
      try discriminate H.
    injection H as <-. repeat split.
  - destruct (_get_func_info use_double argspec) as [e|info]; [discriminate H|].
    destruct (_generate fuel use_double (Transpiler_init OtherBackend) f) as [[e|[t bd]]|];
      try discriminate H.
    injection H as <-. repeat split.
Qed.

Lemma _massage_arg_scalar (kt : KnownType) x wg w dt :
  ctype_to_dtype (type kt) = Some dt ->
  _massage_arg (ScalarArg x) kt wg w = (inr (HostArray [x] dt), w).
Proof. intros H. unfold _massage_arg, np_array_of. rewrite H. reflexivity. Qed.

Lemma combine_lookup {A B : Type} (l : list A) : forall (l' : list B) i x y,
  l !! i = Some x -> l' !! i = Some y -> combine l l' !! i = Some (x, y).
Proof.
  induction l as [|a l IH]; intros [|b l'] [|i] x y Hx Hy; try discriminate.
  - injection Hx as ->. injection Hy as ->. reflexivity.
  - apply (IH l' i x y Hx Hy).
Qed.

(** The [i]-th marshalled value comes from the [i]-th pair. *)
Lemma massage_all_lookup pairs wg : forall w cs w' i arg a_info,
  massage_all pairs wg w = (inr cs, w') ->
  pairs !! i = Some (arg, a_info) ->
  exists c wi wi',
    _massage_arg arg (snd a_info) wg wi = (inr c, wi') /\ cs !! i = Some c.
Proof.
  induction pairs as [|[arg0 info0] pairs IH]; intros w cs w' i arg a_info E Hi;
    [discriminate Hi|].
  simpl in E. unfold bind in E.
  destruct (_massage_arg arg0 (snd info0) wg w) as [[e|c] w2] eqn:E1; [discriminate E|].
  destruct (massage_all pairs wg w2) as [[e|cs'] w3] eqn:E2; [discriminate E|].
  injection E as <- _. destruct i as [|i]; simpl in Hi.
  - injection Hi as <- <-. exists c, w, w2. split; [exact E1|reflexivity].
  - destruct (IH _ _ _ _ _ _ E2 Hi) as (c' & wi & wi' & Hm & Hc).
    exists c', wi, wi'. split; [exact Hm|exact Hc].
Qed.

(** [_get_args] marshals the [i]-th argument with the type info of the
    [i]-th declared parameter. *)
Lemma _get_args_lookup self call_args wg w cs w' i arg a kt :
  _get_args self call_args wg w = (inr cs, w') ->
  call_args !! i = Some arg -> fst (_func_info self) !! i = Some (a, kt) ->
  exists c wi wi', _massage_arg arg kt wg wi = (inr c, wi') /\ cs !! i = Some c.
Proof.
  unfold _get_args. intros E Ha Hk.
  exact (massage_all_lookup _ _ _ _ _ _ _ _ E (combine_lookup _ _ _ _ _ Ha Hk)).
Qed.

(** C7. Under the 32-bit policy a parameter annotated [double] is recorded
    as [float] when the kernel is constructed. When the kernel is then
    called with a plain scalar in the position of that parameter, the
    compiled kernel receives in that position a one-element host array of
    the dtype of [float] holding the scalar; where that dtype is four bytes
    wide, the element width is 32 bits. *)
Theorem scalar_marshalled_as_float
    fuel f argspec b dev wg_info k i a base x dt
    call_args global_size local_size w r w' l :
  Kernel_init fuel f argspec b false dev wg_info = Some (inr k) ->
  args argspec !! i = Some a ->
  annotations argspec !! a = Some (mkKnownType (txt "double") base) ->
  ctype_to_dtype (txt "float") = Some dt -> itemsize dt = 4%Z ->
  call_args !! i = Some (ScalarArg x) ->
  Kernel_call k call_args global_size local_size w = (r, w') ->
  launches w' = launches w ++ [l] ->
  (exists kt,
     fst (_func_info k) !! i = Some (a, kt) /\ type kt = txt "float" /\
     forall wg w0,
       _massage_arg (ScalarArg x) kt wg w0 = (inr (HostArray [x] dt), w0)) /\
  launch_args l !! i = Some (HostArray [x] dt) /\
  length [x] = 1%nat /\ (8 * itemsize dt = 32)%Z.
Proof.
  intros Hk Hi Ha Hd Hsz Hx Hcall Hl.
  destruct (Kernel_init_func_info _ _ _ _ _ _ _ _ Hk) as [Hinfo _].
  unfold _get_func_info in Hinfo.
  destruct (arg_info false (annotations argspec) (args argspec)) as [e|info] eqn:El;
    [discriminate Hinfo|].
  injection Hinfo as Hinfo.
  pose proof (arg_info_at _ _ _ _ _ _ _ El Hi Ha) as Hentry.
  assert (fst (_func_info k) !! i =
            Some (a, adjust false (mkKnownType (txt "double") base))) as Hfi
    by (rewrite <- Hinfo; exact Hentry).
  assert (forall wg w0,
            _massage_arg (ScalarArg x)
              (adjust false (mkKnownType (txt "double") base)) wg w0 =
            (inr (HostArray [x] dt), w0)) as Hm
    by (intros wg w0; apply _massage_arg_scalar; exact Hd).
  split; [|split; [|split; [reflexivity|lia]]].
  - eexists. split; [exact Hfi|]. split; [reflexivity|exact Hm].
  - destruct (Kernel_call_launched _ _ _ _ _ _ _ _ Hcall Hl)
      as (first & rest & size & c_args & wm & _ & _ & _ & _ & Hargs & ->).
    destruct (_get_args_lookup _ _ _ _ _ _ _ _ _ _ Hargs Hx Hfi)
      as (c & wi & wi' & Hc & Hlook).
    rewrite Hm in Hc. injection Hc as <- _. exact Hlook.
Qed.

(** *** The kernel marker *)

Lemma splitlines_from_nonempty (s cur : str) :
  cur <> [] \/ s <> [] -> splitlines_from cur s <> [].
Proof.
  revert cur. induction s as [|c t IH]; intros cur H; simpl.
  - destruct cur; [destruct H; congruence|discriminate].
  - destruct (Ascii.eqb c CR).
    + destruct t as [|c' t']; [discriminate|]. destruct (Ascii.eqb c' LF); discriminate.
    + destruct (is_linebreak c); [discriminate|].
      apply IH. left. destruct cur; discriminate.
Qed.

Lemma splitlines_nil (s : str) : splitlines s = [] -> s = [].
Proof.
  intros H. destruct s as [|c t]; [reflexivity|].
  exfalso. apply (splitlines_from_nonempty (c :: t) []); [right; discriminate|exact H].
Qed.

(** A text whose only line breaks are line feeds and which does not end in
    one is put back together by [join]. *)
Lemma join_splitlines_from (s : str) : forall cur,
  (forall c, In c s -> is_linebreak c = true -> c = LF) ->
  match last s with
  | Some c => is_linebreak c = false
  | None => cur <> []
  end ->
  join newline (splitlines_from cur s) = cur ++ s.
Proof.
  induction s as [|c t IH]; intros cur Hlf Hlast.
  - rewrite app_nil_r. simpl in Hlast. destruct cur; [congruence|reflexivity].
  - assert (forall c', In c' t -> is_linebreak c' = true -> c' = LF) as Hlf'
      by (intros c' Hc'; apply Hlf; right; exact Hc').
    destruct (is_linebreak c) eqn:Hc.
    + assert (c = LF) as -> by (apply Hlf; [left; reflexivity|exact Hc]).
      destruct t as [|c' t'].
      { simpl in Hlast. vm_compute in Hlast. discriminate Hlast. }
      change (splitlines_from cur (LF :: c' :: t'))
        with (cur :: splitlines_from [] (c' :: t')).
      assert (splitlines_from [] (c' :: t') <> []) as Hne
        by (apply splitlines_from_nonempty; right; discriminate).
      destruct (splitlines_from [] (c' :: t')) as [|l ls] eqn:E; [congruence|].
      change (join newline (cur :: l :: ls)) with (cur ++ newline ++ join newline (l :: ls)).
      rewrite <- E, IH; [reflexivity|exact Hlf'|].
      rewrite last_cons in Hlast.
      destruct (last (c' :: t')) eqn:El; [exact Hlast|].
      apply last_None in El. discriminate El.
    + assert (Ascii.eqb c CR = false) as Hcr.
      { destruct (Ascii.eqb c CR) eqn:E; [|reflexivity].
        apply Ascii.eqb_eq in E. subst c. vm_compute in Hc. discriminate Hc. }
      cbn [splitlines_from]. rewrite Hcr, Hc.
      rewrite IH; [rewrite <- app_assoc; reflexivity|exact Hlf'|].
      rewrite last_cons in Hlast.
      destruct (last t) eqn:El; [exact Hlast|].
      destruct cur; discriminate.
Qed.

Lemma join_splitlines (s : str) :
  (forall c, In c s -> is_linebreak c = true -> c = LF) ->
  (exists c, last s = Some c /\ is_linebreak c = false) ->
  join newline (splitlines s) = s.
Proof.
  intros Hlf [c [Hl Hc]]. unfold splitlines.
  rewrite join_splitlines_from; [reflexivity|exact Hlf|].
  rewrite Hl. exact Hc.
Qed.

Lemma join_prepend (k line0 : str) (rest : list str) :
  join newline ((k ++ line0) :: rest) = k ++ join newline (line0 :: rest).
Proof.
  destruct rest as [|l ls]; [reflexivity|].
  change (join newline ((k ++ line0) :: l :: ls))
    with ((k ++ line0) ++ newline ++ join newline (l :: ls)).
  rewrite <- app_assoc. reflexivity.
Qed.

Lemma insert_last {A : Type} (l : list A) (x y : A) :
  <[length l := y]> (l ++ [x]) = l ++ [y].
Proof.
  rewrite insert_app_r_alt by lia.
  replace (length l - length l)%nat with 0%nat by lia. reflexivity.
Qed.

(** What the fix-up does to a transpiler. *)
Lemma fixup_last_unit t t' :
  _correct_opencl_address_space t = inr t' ->
  exists init cb line0 rest,
    blocks t = init ++ [cb] /\
    splitlines (code cb) = line0 :: rest /\
    t' = set_blocks t
           (init ++ [mkCodeBlock (obj cb)
                       (join newline ((txt "KERNEL " ++ line0) :: rest))]).
Proof.
  unfold _correct_opencl_address_space. intros H.
  destruct (blocks t) as [|cb0 bs0] eqn:Eb using rev_ind; [discriminate H|].
  clear IHbs0.
  rewrite length_app in H. change (length [cb0]) with 1%nat in H.
  replace (length bs0 + 1 - 1)%nat with (length bs0) in H by lia.
  rewrite list_lookup_middle in H by reflexivity.
  destruct (splitlines (code cb0)) as [|line0 rest] eqn:Es; [discriminate H|].
  injection H as <-.
  exists bs0, cb0, line0, rest. split; [reflexivity|]. split; [exact Es|].
  rewrite insert_last. reflexivity.
Qed.

(** C8. The fix-up changes the last registered unit and nothing else: the
    unit keeps its object, its code becomes the lines of the old code joined
    by line feeds with [KERNEL ] put before the first line; the units before
    it, the header, the backend and the stored source stay as they were.
    For a code whose only line breaks are line feeds and which does not end
    in one, the new code is the old code with [KERNEL ] in front. *)
Theorem kernel_marker_on_last_unit t t' :
  _correct_opencl_address_space t = inr t' ->
  exists init cb line0 rest,
    blocks t = init ++ [cb] /\
    splitlines (code cb) = line0 :: rest /\
    blocks t' =
      init ++ [mkCodeBlock (obj cb)
                 (join newline ((txt "KERNEL " ++ line0) :: rest))] /\
    header t' = header t /\ backend t' = backend t /\ source t' = source t /\
    ((forall c, In c (code cb) -> is_linebreak c = true -> c = LF) ->
     (exists c, last (code cb) = Some c /\ is_linebreak c = false) ->
     blocks t' = init ++ [mkCodeBlock (obj cb) (txt "KERNEL " ++ code cb)]).
Proof.
  intros H.
  destruct (fixup_last_unit t t' H) as (init & cb & line0 & rest & Hb & Hs & ->).
  exists init, cb, line0, rest.
  split; [exact Hb|]. split; [exact Hs|].
  split; [reflexivity|]. split; [reflexivity|]. split; [reflexivity|].
  split; [reflexivity|].
  intros Hlf Hlast. cbn [set_blocks blocks]. do 3 f_equal.
  rewrite join_prepend, <- Hs. f_equal. apply join_splitlines; assumption.
Qed.

(** *** Argument counts *)

Lemma massage_all_length pairs wg : forall w cs w',
  massage_all pairs wg w = (inr cs, w') -> length cs = length pairs.
Proof.
  induction pairs as [|[arg a_info] pairs IH]; intros w cs w' E; simpl in E.
  - injection E as <- _. reflexivity.
  - unfold bind in E.
    destruct (_massage_arg arg (snd a_info) wg w) as [[e|c] w2]; [discriminate E|].
    destruct (massage_all pairs wg w2) as [[e|cs'] w3] eqn:E2; [discriminate E|].
    injection E as <- _. simpl. f_equal. apply (IH _ _ _ E2).
Qed.

Lemma combine_surplus {A B : Type} (l extra : list A) (l' : list B) :
  (length l' <= length l)%nat -> combine (l ++ extra) l' = combine l l'.
Proof.
  revert l'. induction l as [|x l IH]; intros l' H.
  - destruct l'; [|simpl in H; lia]. destruct extra; reflexivity.
  - destruct l' as [|y l']; [reflexivity|]. simpl. f_equal. apply IH. simpl in H. lia.
Qed.

(** C2, as the code has it. The dispatcher never compares the number of
    positional arguments with the number of declared parameters: the two
    lists are zipped, so positional arguments beyond the declared
    parameters are ignored, and a call that returns has launched the kernel
    with as many marshalled arguments as the shorter of the two lists. *)
Theorem call_zips_arguments self call_args global_size local_size w :
  (forall extra,
     (1 <= length call_args)%nat ->
     (length (fst (_func_info self)) <= length call_args)%nat ->
     Kernel_call self (call_args ++ extra) global_size local_size w =
     Kernel_call self call_args global_size local_size w) /\
  (forall w',
     Kernel_call self call_args global_size local_size w = (inr tt, w') ->
     kernel_backend self = OpenCL ->
     exists l,
       launches w' = launches w ++ [l] /\
       length (launch_args l) =
         Nat.min (length call_args) (length (fst (_func_info self)))).
Proof.
  split.
  - intros extra Hne Hlen.
    destruct call_args as [|a0 rest]; [simpl in Hne; lia|].
    unfold Kernel_call. cbn [app].
    destruct (data_shape a0) as [size|]; [|reflexivity].
    destruct (launch_geometry self (np_prod (default size global_size)) local_size)
      as [gs ls].
    destruct ls as [|ls0 ls1]; [reflexivity|].
    unfold _get_args.
    change (a0 :: rest ++ extra) with ((a0 :: rest) ++ extra).
    rewrite combine_surplus by exact Hlen. reflexivity.
  - intros w' H Hb.
    destruct (Kernel_call_cases _ _ _ _ _ _ _ H)
      as [(_ & _ & [Hr|Hr]) |
          (first & rest & size & gs & ls & c_args & wm &
           E1 & E2 & E3 & E4 & E5 & _ & _ & _ & E6 & _)];
      [congruence|congruence|].
    eexists. split; [exact E6|]. cbn [launch_args].
    unfold _get_args in E5.
    rewrite (massage_all_length _ _ _ _ _ E5). apply length_combine.
Qed.

(** *** The unit marked in [_generate] *)

Lemma add_fresh_appends n b f t1 :
  add n (Transpiler_init b) f = Done t1 ->
  exists init c, generate b f = inr c /\ blocks t1 = init ++ [mkCodeBlock f c].
Proof.
  intros H. destruct (add_done _ _ _ _ H) as [s [Hrun ->]].
  destruct b; simpl in Hrun |- *;
    (inversion Hrun as [o bs Hc | | | | o bs fs bs1 c Hc Hg Heach Hgen]; subst;
     [discriminate Hc|exists bs1, c; split; [exact Hgen|reflexivity]]).
Qed.

Lemma compile_blocks use_double t t' bd :
  compile use_double t = inr (t', bd) -> blocks t' = blocks t.
Proof.
  unfold compile. intros H. destruct (backend t).
  - destruct (get_code t); [discriminate H|]. injection H as <- _. reflexivity.
  - destruct (get_code t); [discriminate H|]. injection H as <- _. reflexivity.
  - injection H as <- _. reflexivity.
Qed.

(** In a kernel built from [f] the marked unit is the unit of [f] itself:
    [add] on a new transpiler registers [f] last. *)
Lemma _generate_marks_entry_point fuel use_double b f t bd :
  _generate fuel use_double (Transpiler_init b) f = Some (inr (t, bd)) ->
  exists init c line0 rest,
    generate b f = inr c /\ splitlines c = line0 :: rest /\
    blocks t =
      init ++ [mkCodeBlock f (join newline ((txt "KERNEL " ++ line0) :: rest))].
Proof.
  unfold _generate. intros H.
  destruct (add fuel (Transpiler_init b) f) as [t1|e t1|] eqn:Ha; try discriminate H.
  destruct (_correct_opencl_address_space t1) as [e|t2] eqn:Hc; [discriminate H|].
  injection H as H.
  destruct (add_fresh_appends _ _ _ _ Ha) as (init & c & Hgen & Hb1).
  destruct (fixup_last_unit t1 t2 Hc)
    as (init' & cb & line0 & rest & Hb1' & Hs & ->).
  rewrite Hb1 in Hb1'. apply app_inj_tail in Hb1' as [<- <-].
  exists init, c, line0, rest. split; [exact Hgen|]. split; [exact Hs|].
  rewrite (compile_blocks _ _ _ _ H). reflexivity.
Qed.

(** ** Further properties of the transpiler *)




Lemma join_units (h : str) (l mid : list str) :
  join newline (h :: l ++ mid) =
  join newline (h :: l) ++ concat (map (fun c => newline ++ c) mid).
Proof.
  revert h. induction l as [|x l IH]; intros h.
  - simpl app. revert h. induction mid as [|y mid IHm]; intros h.
    + simpl. symmetry. apply app_nil_r.
    + change (join newline (h :: y :: mid)) with (h ++ newline ++ join newline (y :: mid)).
      rewrite IHm. cbn [join map concat]. reflexivity.
  - change (join newline (h :: (x :: l) ++ mid))
      with (h ++ newline ++ join newline (x :: l ++ mid)).
    change (join newline (h :: x :: l)) with (h ++ newline ++ join newline (x :: l)).
    rewrite IH, <- !app_assoc. reflexivity.
Qed.

(** X7. [add] only ever appends: whether it returns or raises, the units
    registered before are still there, in place, and the text of
    [get_code()] is the old text followed by one line-feed-separated code
    per new unit. Header and backend are untouched. *)
Theorem add_only_appends n tp o tp' :
  final (add n tp o) tp' ->
  exists mid,
    blocks tp' = blocks tp ++ mid /\
    header tp' = header tp /\ backend tp' = backend tp /\
    (forall text, get_code tp = inr text ->
       get_code tp' =
         inr (text ++ concat (map (fun c => newline ++ c) (map code mid)))).
Proof.
  intros H. destruct (add_final n tp o tp' H) as (r & s & Hrun & Hs & -> & _).
  destruct (proj1 (run_extends _) _ _ _ Hrun s Hs) as [mid ->].
  exists mid. split; [reflexivity|]. split; [reflexivity|]. split; [reflexivity|].
  intros text Ht. unfold get_code in *. cbn [set_blocks header blocks].
  destruct (header tp) as [h|]; [|discriminate Ht]. injection Ht as <-.
  rewrite map_app, join_units. reflexivity.
Qed.

(** Each unit holds what the code generator returned for its object, and
    its object is one whose callees resolved. *)
Definition translated_unit (b : Backend) (cb : CodeBlock) : Prop :=
  generate b (obj cb) = inr (code cb) /\
  exists fs, get_all_functions (obj cb) = inr fs.

Lemma run_translated b :
  (forall o bs r, add_run b o bs r ->
     Forall (translated_unit b) bs -> forall s, final r s ->
     Forall (translated_unit b) s) /\
  (forall fs bs r, each_run b fs bs r ->
     Forall (translated_unit b) bs -> forall s, final r s ->
     Forall (translated_unit b) s).
Proof.
  apply add_each_ind; simpl.
  - intros o bs _ H s <-. exact H.
  - intros o bs e _ _ H s <-. exact H.
  - intros o bs fs e bs1 _ _ _ IH H s Hs. apply IH; assumption.
  - intros o bs fs bs1 e _ _ _ IH _ H s <-. apply IH; [assumption|reflexivity].
  - intros o bs fs bs1 c _ Hg _ IH Hgen H s <-.
    apply Forall_app. split; [apply IH; [assumption|reflexivity]|].
    constructor; [|constructor]. split; [exact Hgen|]. exists fs. exact Hg.
  - intros bs H s <-. exact H.
  - intros f fs bs e bs1 _ IH H s Hs. apply IH; assumption.
  - intros f fs bs bs1 r _ IH1 _ IH2 H s Hs.
    apply IH2; [|exact Hs]. apply IH1; [exact H|reflexivity].
Qed.

(** X8. In a transpiler built by [add] calls every unit carries the code
    the generator of the transpiler's backend returns for the unit's
    object; no unit stands for a string, and the backend is the one the
    constructor was given. *)
Theorem built_units_are_translations reqs tp :
  built_from reqs tp ->
  forall cb, In cb (blocks tp) ->
    generate (backend tp) (obj cb) = inr (code cb) /\
    (exists i, obj cb = Obj i /\ source_calls i <> None).
Proof.
  intros Hb.
  assert (Forall (translated_unit (backend tp)) (blocks tp)) as H.
  { induction Hb as [b | reqs tp n o tp' _ IH Hf]; [constructor|].
    destruct (add_final n tp o tp' Hf) as (r & s & Hrun & Hs & -> & _). simpl.
    apply (proj1 (run_translated _) _ _ _ Hrun IH s Hs). }
  intros cb Hcb. rewrite Forall_forall in H.
  destruct (H cb ltac:(apply list_elem_of_In; exact Hcb)) as [Hgen [fs Hfs]].
  split; [exact Hgen|].
  destruct (obj cb) as [i|s]; [|discriminate Hfs].
  exists i. split; [reflexivity|]. simpl in Hfs.
  destruct (source_calls i); [discriminate|discriminate Hfs].
Qed.

Lemma run_other_backend :
  (forall o bs r, add_run OtherBackend o bs r -> forall s, final r s -> s = bs) /\
  (forall fs bs r, each_run OtherBackend fs bs r -> forall s, final r s -> s = bs).
Proof.
  apply add_each_ind; simpl.
  - intros o bs _ s <-. reflexivity.
  - intros o bs e _ _ s <-. reflexivity.
  - intros o bs fs e bs1 _ _ _ IH s Hs. apply IH. exact Hs.
  - intros o bs fs bs1 e _ _ _ IH _ s <-. symmetry. symmetry. apply IH. reflexivity.
  - intros o bs fs bs1 c _ _ _ _ Hgen. discriminate Hgen.
  - intros bs s <-. reflexivity.
  - intros f fs bs e bs1 _ IH s Hs. apply IH. exact Hs.
  - intros f fs bs bs1 r _ IH1 _ IH2 s Hs.
    rewrite (IH2 s Hs). apply IH1. reflexivity.
Qed.

(** X9. With a backend other than Cython or OpenCL [add] never registers
    anything: the transpiler comes back as it was, and [add(o)] returns
    only when [o] was registered already. *)
Theorem add_other_backend_registers_nothing n tp o tp' :
  backend tp = OtherBackend -> final (add n tp o) tp' ->
  tp' = tp /\ (add n tp o = Done tp' -> contains o (blocks tp) = true).
Proof.
  intros Hb H. destruct (add_final n tp o tp' H) as (r & s & Hrun & Hs & -> & Hr).
  rewrite Hb in Hrun.
  pose proof (proj1 run_other_backend _ _ _ Hrun s Hs) as ->.
  split; [apply set_blocks_same|].
  intros Hd. unfold add in Hd. rewrite Hr in Hd.
  destruct r as [s'|e s'|]; try discriminate Hd.
  simpl in Hs. subst s'.
  apply (proj1 (run_registers _) _ _ _ Hrun _ eq_refl).
Qed.

(** X10. An [add(o)] that raises leaves [o] unregistered, so a later call
    tries it again; what it raises is what the resolution or the
    translation of some object reachable from [o] raises. *)
Theorem add_raised_leaves_unregistered reqs tp n o e tp' :
  built_from reqs tp -> add n tp o = Raised e tp' ->
  contains o (blocks tp') = false /\
  exists g, reaches o g /\
    (get_all_functions g = inl e \/ generate (backend tp) g = inl e).
Proof.
  intros Hb Ha. destruct (built_from_inv reqs tp Hb) as (Ho & _ & _ & _).
  unfold add in Ha.
  destruct (add_blocks (backend tp) n o (blocks tp)) as [s|e' s|] eqn:E;
    try discriminate Ha.
  injection Ha as <- <-. simpl.
  pose proof (add_blocks_sound _ n o _ _ E ltac:(discriminate)) as Hrun.
  split; [|exact (proj1 (run_raised_cause _) _ _ _ Hrun e' s eq_refl)].
  assert (forall fs r, get_all_functions o = inr fs ->
            contains o (blocks tp) = false ->
            each_run (backend tp) fs (blocks tp) r -> final r s ->
            contains o s = false) as Heach.
  { intros fs r Hg Hc Hr Hs. apply contains_false. intros Hin.
    destruct (proj2 (run_new_reachable _) _ _ _ Hr s o Hs Hin) as [Hold|[f [Hf Hfo]]].
    - apply contains_false in Hc. exact (Hc Hold).
    - apply (ordered_acyclic s o).
      + exact (proj2 (run_ordered _) _ _ _ Hr Ho s Hs).
      + apply contains_In. exact Hin.
      + apply (calls_reaches_cycle o f); [|exact Hfo]. exists fs. split; assumption. }
  inversion Hrun as [ | o' bs e'' Hc Hg | o' bs fs e'' bs1 Hc Hg Hr
                      | o' bs fs bs1 e'' Hc Hg Hr Hgen | ]; subst.
  - exact Hc.
  - apply (Heach fs _ Hg Hc Hr). reflexivity.
  - apply (Heach fs _ Hg Hc Hr). reflexivity.
Qed.

(** X11. [add_code] appends one unit whose object and code are the given
    string, without looking for an equal one; the text of [get_code()]
    grows by a line feed and the string. Afterwards [add] of that string
    returns at once, whereas [add] of a string that is not registered
    raises [TypeError] and changes nothing. *)
Theorem add_code_appends tp c :
  blocks (add_code tp c) = blocks tp ++ [mkCodeBlock (Str c) c] /\
  (forall text, get_code tp = inr text ->
     get_code (add_code tp c) = inr (text ++ newline ++ c)) /\
  (forall m, (0 < m)%nat -> add m (add_code tp c) (Str c) = Done (add_code tp c)) /\
  (forall m s, (0 < m)%nat -> contains (Str s) (blocks tp) = false ->
     add m tp (Str s) = Raised TypeError tp) /\
  blocks (add_code (add_code tp c) c) =
    blocks tp ++ [mkCodeBlock (Str c) c; mkCodeBlock (Str c) c].
Proof.
  split; [reflexivity|]. split; [|split; [|split]].
  - intros text Ht. unfold get_code in *. cbn [add_code set_blocks header blocks].
    destruct (header tp) as [h|]; [|discriminate Ht]. injection Ht as <-.
    rewrite map_app, join_units. cbn [map concat code]. rewrite app_nil_r. reflexivity.
  - intros [|m] Hm; [lia|]. unfold add. cbn [add_blocks].
    assert (contains (Str c) (blocks (add_code tp c)) = true) as ->.
    { cbn [add_code set_blocks blocks]. rewrite contains_app. apply orb_true_iff. right.
      simpl. rewrite orb_false_r. apply bool_decide_eq_true. reflexivity. }
    simpl. rewrite set_blocks_same. reflexivity.
  - intros [|m] s Hm Hc; [lia|]. unfold add. cbn [add_blocks]. rewrite Hc.
    simpl. rewrite set_blocks_same. reflexivity.
  - cbn [add_code set_blocks blocks]. rewrite <- app_assoc. reflexivity.
Qed.

(** X12. When [add(o)] returns for an [o] that was not registered, the unit
    of [o] is the last one, it holds the generator's code for [o], and every
    function [o] calls is registered before it. *)
Theorem add_appends_after_callees n tp o tp' :
  contains o (blocks tp) = false -> add n tp o = Done tp' ->
  exists init c fs,
    blocks tp' = init ++ [mkCodeBlock o c] /\
    generate (backend tp) o = inr c /\
    get_all_functions o = inr fs /\
    (forall g, In g fs -> contains g init = true) /\
    (exists mid, init = blocks tp ++ mid).
Proof.
  intros Hc Ha. destruct (add_done n tp o tp' Ha) as [s [Hrun ->]].
  inversion Hrun as [o' bs Hc' | | | | o' bs fs bs1 c Hc' Hg Heach Hgen]; subst.
  - congruence.
  - exists bs1, c, fs. split; [reflexivity|]. split; [exact Hgen|]. split; [exact Hg|].
    split.
    + intros g Hin. apply (proj2 (run_registers _) _ _ _ Heach bs1 eq_refl g Hin).
    + apply (proj2 (run_extends _) _ _ _ Heach bs1). reflexivity.
Qed.

(** X13. [compile] rewrites the precision only for OpenCL, where the source
    built is the header and the unit codes, each rewritten on its own,
    joined by line feeds. For Cython the source built is the text of
    [get_code()] whatever the precision policy; for any other backend
    nothing is built. The units and the header are never changed. *)
Theorem compile_by_backend use_double t :
  (backend t = OpenCL -> forall h, header t = Some h ->
   exists t',
     compile use_double t =
       inr (t', Some (CLProgram (source t') [txt "-w"])) /\
     source t' =
       join newline
         (map (convert_to_float_if_needed unicode_alnum use_double)
            (h :: map code (blocks t)))) /\
  (backend t = Cython -> forall text, get_code t = inr text ->
   exists t',
     compile use_double t = inr (t', Some (ExtModule text)) /\ source t' = text) /\
  (backend t = OtherBackend -> compile use_double t = inr (t, None)) /\
  (forall t' bd, compile use_double t = inr (t', bd) ->
     blocks t' = blocks t /\ header t' = header t /\ backend t' = backend t).
Proof.
  split; [|split; [|split]].
  - intros Hb h Hh. unfold compile, get_code. rewrite Hb, Hh.
    eexists (mkTranspiler _ _ _ _). split; [reflexivity|]. cbn [source].
    destruct use_double.
    + unfold convert_to_float_if_needed. simpl negb. cbv iota.
      rewrite map_id. reflexivity.
    + unfold convert_to_float_if_needed. simpl negb. cbv iota.
      apply re_sub_double_join.
  - intros Hb text Ht. unfold compile. rewrite Hb, Ht.
    eexists (mkTranspiler _ _ _ _). split; reflexivity.
  - intros Hb. unfold compile. rewrite Hb. reflexivity.
  - intros t' bd H. unfold compile in H. destruct (backend t) eqn:Hb.
    + destruct (get_code t); [discriminate H|]. injection H as <- _.
      repeat split; try congruence.
    + destruct (get_code t); [discriminate H|]. injection H as <- _.
      repeat split; try congruence.
    + injection H as <- _. repeat split; try congruence.
Qed.

(** ** Further properties of local memory *)

(** X14. A [get] that raises has found no entry for the key, and changes
    neither the cache nor the list of requests: it raises
    [NotImplementedError] for a backend other than OpenCL and [KeyError]
    for a C type without a dtype. The constructor refuses the Cython
    backend and otherwise starts with an empty cache. *)
Theorem LocalMem_get_errors self c_type wg allocs e self' allocs' :
  LocalMem_get self c_type wg allocs = (inl e, self', allocs') ->
  self' = self /\ allocs' = allocs /\
  _cache self !! (c_type, wg) = None /\
  ((lm_backend self <> OpenCL /\ e = NotImplementedError) \/
   (lm_backend self = OpenCL /\ ctype_to_dtype c_type = None /\ e = KeyError)) /\
  LocalMem_init (size self) (Some Cython) = inl NotImplementedError /\
  (forall b lm, LocalMem_init (size self) b = inr lm ->
     _cache lm = ∅ /\ size lm = size self /\ lm_backend lm = get_backend b).
Proof.
  intros H. unfold LocalMem_get in H.
  destruct (_cache self !! (c_type, wg)) as [m|] eqn:Hc; [discriminate H|].
  assert (forall b lm, LocalMem_init (size self) b = inr lm ->
            _cache lm = ∅ /\ size lm = size self /\ lm_backend lm = get_backend b)
    as Hinit.
  { intros b lm Hb. unfold LocalMem_init in Hb.
    destruct b as [[| |]|]; try discriminate Hb; injection Hb as <-; repeat split. }
  assert (LocalMem_init (size self) (Some Cython) = inl NotImplementedError) as Hcy
    by reflexivity.
  destruct (lm_backend self) eqn:Hb.
  - injection H as <- <- <-.
    split; [reflexivity|]. split; [reflexivity|]. split; [reflexivity|].
    split; [|split; [exact Hcy|exact Hinit]].
    left. split; [discriminate|reflexivity].
  - destruct (ctype_to_dtype c_type) as [dt|] eqn:Hd; [discriminate H|].
    injection H as <- <- <-.
    split; [reflexivity|]. split; [reflexivity|]. split; [reflexivity|].
    split; [|split; [exact Hcy|exact Hinit]].
    right. repeat split.
  - injection H as <- <- <-.
    split; [reflexivity|]. split; [reflexivity|]. split; [reflexivity|].
    split; [|split; [exact Hcy|exact Hinit]].
    left. split; [discriminate|reflexivity].
Qed.

(** Every cached allocation has the size its key asks for and stands in the
    list of requests under its own number. *)
Definition cache_ok (lm : LocalMem) (allocs : list Z) : Prop :=
  forall c wg mem,
    _cache lm !! (c, wg) = Some mem ->
    (exists dt, ctype_to_dtype c = Some dt /\
                alloc_size mem = (itemsize dt * size lm * wg)%Z) /\
    allocs !! alloc_id mem = Some (alloc_size mem).

Lemma cache_ok_get self c_type wg allocs mem self' allocs' :
  cache_ok self allocs ->
  LocalMem_get self c_type wg allocs = (inr mem, self', allocs') ->
  cache_ok self' allocs' /\
  _cache self' !! (c_type, wg) = Some mem /\
  (exists more, allocs' = allocs ++ more) /\
  (_cache self !! (c_type, wg) = None -> alloc_id mem = length allocs) /\
  (forall k m, _cache self !! k = Some m -> _cache self' !! k = Some m) /\
  size self' = size self /\ lm_backend self' = lm_backend self.
Proof.
  intros Hok H. unfold LocalMem_get in H.
  destruct (_cache self !! (c_type, wg)) as [m|] eqn:Hc.
  - injection H as <- <- <-. split; [exact Hok|]. split; [exact Hc|].
    split; [exists []; symmetry; apply app_nil_r|].
    split; [discriminate|]. split; [intros k m0 Hk; exact Hk|]. split; reflexivity.
  - destruct (lm_backend self) eqn:Hb; try discriminate H.
    destruct (ctype_to_dtype c_type) as [dt|] eqn:Hd; [|discriminate H].
    injection H as <- <- <-. cbn [_cache size lm_backend].
    split; [|split; [apply lookup_insert_eq|split; [eexists; reflexivity|
             split; [reflexivity|split; [|split; reflexivity]]]]].
    + intros c w m Hm.
      destruct (decide ((c_type, wg) = (c, w))) as [E|E].
      * injection E as <- <-. cbn [_cache] in Hm. rewrite lookup_insert_eq in Hm.
        injection Hm as <-. cbn [alloc_size alloc_id size]. split.
        -- exists dt. split; [exact Hd|reflexivity].
        -- apply list_lookup_middle. reflexivity.
      * cbn [_cache] in Hm. rewrite lookup_insert_ne in Hm by exact E.
        destruct (Hok c w m Hm) as [H1 H2]. split; [exact H1|].
        apply lookup_app_l_Some. exact H2.
    + intros k m Hk. destruct (decide ((c_type, wg) = k)) as [<-|E].
      * congruence.
      * rewrite lookup_insert_ne by exact E. exact Hk.
Qed.

(** X15. Starting from the constructor, every allocation [get] returns has
    [itemsize(c_type) * size * workgroup_size] bytes, as the docstring
    says, and was requested from the runtime with that size; the sizes
    cached stay right and the requests made so far are kept. *)
Theorem LocalMem_get_sized self c_type wg allocs mem self' allocs' :
  cache_ok self allocs ->
  LocalMem_get self c_type wg allocs = (inr mem, self', allocs') ->
  (exists dt, ctype_to_dtype c_type = Some dt /\
     alloc_size mem = (itemsize dt * size self * wg)%Z) /\
  allocs' !! alloc_id mem = Some (alloc_size mem) /\
  cache_ok self' allocs' /\
  (exists more, allocs' = allocs ++ more) /\
  (forall sz b lm a, LocalMem_init sz b = inr lm -> cache_ok lm a).
Proof.
  intros Hok H.
  destruct (cache_ok_get _ _ _ _ _ _ _ Hok H) as (Hok' & Hc & Hmore & _ & _ & Hs & _).
  destruct (Hok' c_type wg mem Hc) as [[dt [Hd Hsz]] Hreq].
  split; [exists dt; split; [exact Hd|rewrite Hsz, Hs; reflexivity]|].
  split; [exact Hreq|]. split; [exact Hok'|]. split; [exact Hmore|].
  intros sz b lm a Hl c w m Hm. unfold LocalMem_init in Hl.
  destruct b as [[| |]|]; try discriminate Hl; injection Hl as <-;
    cbn [_cache] in Hm; rewrite lookup_empty in Hm; discriminate Hm.
Qed.

(** X16. Two keys, two allocations: a [get] for a second key that is not
    cached yet returns an object other than the one of the first key, and
    the first key keeps its object. *)
Theorem LocalMem_get_distinct_keys
    self c1 wg1 c2 wg2 allocs m1 s1 a1 m2 s2 a2 :
  cache_ok self allocs ->
  LocalMem_get self c1 wg1 allocs = (inr m1, s1, a1) ->
  LocalMem_get s1 c2 wg2 a1 = (inr m2, s2, a2) ->
  (c1, wg1) <> (c2, wg2) -> _cache self !! (c2, wg2) = None ->
  alloc_id m1 <> alloc_id m2 /\
  _cache s2 !! (c1, wg1) = Some m1 /\ _cache s2 !! (c2, wg2) = Some m2 /\
  length a2 = S (length a1).
Proof.
  intros Hok H1 H2 Hne Hnone.
  destruct (cache_ok_get _ _ _ _ _ _ _ Hok H1) as (Hok1 & Hc1 & _ & _ & Hkeep1 & _).
  assert (_cache s1 !! (c2, wg2) = None) as Hnone1.
  { unfold LocalMem_get in H1.
    destruct (_cache self !! (c1, wg1)) as [m|] eqn:Hc.
    - injection H1 as _ <- _. exact Hnone.
    - destruct (lm_backend self); try discriminate H1.
      destruct (ctype_to_dtype c1); [|discriminate H1].
      injection H1 as _ <- _. cbn [_cache].
      rewrite lookup_insert_ne by exact Hne. exact Hnone. }
  destruct (cache_ok_get _ _ _ _ _ _ _ Hok1 H2) as (Hok2 & Hc2 & _ & Hid & Hkeep2 & _).
  destruct (Hok1 c1 wg1 m1 Hc1) as [_ Hreq].
  apply lookup_lt_Some in Hreq. rewrite (Hid Hnone1).
  split; [lia|]. split; [apply Hkeep2; exact Hc1|]. split; [exact Hc2|].
  unfold LocalMem_get in H2. rewrite Hnone1 in H2.
  destruct (lm_backend s1); try discriminate H2.
  destruct (ctype_to_dtype c2); [|discriminate H2].
  injection H2 as _ _ <-. rewrite length_app. simpl. lia.
Qed.

(** ** Further properties of the dispatcher *)

Lemma arg_info_names use_double ann names : forall l,
  arg_info use_double ann names = inr l -> map fst l = names.
Proof.
  induction names as [|a names IH]; intros l E; simpl in E.
  - injection E as <-. reflexivity.
  - destruct (ann !! a); [|discriminate E].
    destruct (arg_info use_double ann names) as [e|l']; [discriminate E|].
    injection E as <-. simpl. f_equal. apply IH. reflexivity.
Qed.

Lemma arg_info_error use_double ann names e :
  arg_info use_double ann names = inl e ->
  e = KeyError /\ exists a, In a names /\ ann !! a = None.
Proof.
  induction names as [|a names IH]; simpl; [discriminate|].
  destruct (ann !! a) eqn:Ha.
  - destruct (arg_info use_double ann names) as [e'|l']; [|discriminate].
    intros [= <-]. destruct (IH eq_refl) as [-> [a' [Hin Ha']]].
    split; [reflexivity|]. exists a'. split; [right; exact Hin|exact Ha'].
  - intros [= <-]. split; [reflexivity|]. exists a. split; [left; reflexivity|exact Ha].
Qed.

Lemma arg_info_total use_double ann names :
  (forall a, In a names -> ann !! a <> None) ->
  exists l, arg_info use_double ann names = inr l.
Proof.
  intros H. destruct (arg_info use_double ann names) as [e|l] eqn:E; [|eauto].
  destruct (arg_info_error _ _ _ _ E) as [_ [a [Hin Ha]]].
  destruct (H a Hin Ha).
Qed.

Lemma _to_float_idempotent (s : str) :
  _to_float unicode_alnum (_to_float unicode_alnum s) = _to_float unicode_alnum s.
Proof.
  unfold _to_float, re_sub_double. apply sub_from_fixed.
  apply (no_standalone_from unicode_alnum (length s)). lia.
Qed.

(** X17. [_get_func_info] keeps the parameters in their order, each with
    its annotation, rewritten to [float] under the 32-bit policy and left
    alone under the 64-bit one; the return annotation is never rewritten.
    It raises [KeyError] exactly for a parameter without an annotation.
    Adjusting an adjusted type changes nothing. *)
Theorem get_func_info_keeps_parameters use_double argspec :
  (forall info ret, _get_func_info use_double argspec = inr (info, ret) ->
     map fst info = args argspec /\
     (forall i a kt, info !! i = Some (a, kt) ->
        exists kt0, annotations argspec !! a = Some kt0 /\ kt = adjust use_double kt0) /\
     ret = default (mkKnownType (txt "void") []) (annotations argspec !! txt "return")) /\
  (forall e, _get_func_info use_double argspec = inl e ->
     e = KeyError /\
     exists a, In a (args argspec) /\ annotations argspec !! a = None) /\
  ((forall a, In a (args argspec) -> annotations argspec !! a <> None) ->
   exists r, _get_func_info use_double argspec = inr r) /\
  (forall kt, adjust true kt = kt) /\
  (forall kt, adjust false (adjust false kt) = adjust false kt).
Proof.
  unfold _get_func_info. split; [|split; [|split; [|split]]].
  - intros info ret H.
    destruct (arg_info use_double (annotations argspec) (args argspec)) as [e|l] eqn:E;
      [discriminate H|].
    injection H as <- <-. split; [exact (arg_info_names _ _ _ _ E)|]. split; [|reflexivity].
    intros i a kt Hi. destruct (arg_info_lookup _ _ _ _ _ _ _ E Hi) as [_ Hk]. exact Hk.
  - intros e H.
    destruct (arg_info use_double (annotations argspec) (args argspec)) as [e'|l] eqn:E;
      [|discriminate H].
    injection H as <-. exact (arg_info_error _ _ _ _ E).
  - intros H. destruct (arg_info_total use_double _ _ H) as [l ->]. eauto.
  - reflexivity.
  - intros kt. unfold adjust. cbn [negb type base_type].
    rewrite !_to_float_idempotent. reflexivity.
Qed.

Lemma add_fresh_other_backend n f t1 :
  add n (Transpiler_init OtherBackend) f <> Done t1.
Proof.
  intros H. destruct (add_fresh_appends _ _ _ _ H) as (init & c & Hgen & _).
  discriminate Hgen.
Qed.

(** X18. A kernel gets built only with the OpenCL backend. The kernel then
    records the parameter info of [_get_func_info], the device and the
    work-group size it was given; the last unit of its transpiler is the
    unit of the kernel function, marked [KERNEL ]; and its source is the
    rewritten text of [get_code()], free of standalone [double] under the
    32-bit policy. *)
Theorem Kernel_init_builds_opencl_kernel fuel f argspec b use_double dev wg_info k :
  Kernel_init fuel f argspec b use_double dev wg_info = Some (inr k) ->
  get_backend b = OpenCL /\ kernel_backend k = OpenCL /\
  func k = f /\ _use_double k = use_double /\ queue k = dev /\
  _max_work_group_size k = wg_info /\
  _get_func_info use_double argspec = inr (_func_info k) /\
  (exists init c line0 rest,
     opencl_code f = inr c /\ splitlines c = line0 :: rest /\
     blocks (tp k) =
       init ++ [mkCodeBlock f (join newline ((txt "KERNEL " ++ line0) :: rest))]) /\
  (exists text,
     get_code (tp k) = inr text /\
     kernel_source k = convert_to_float_if_needed unicode_alnum use_double text) /\
  (use_double = false -> has_standalone unicode_alnum false (kernel_source k) = false).
Proof.
  unfold Kernel_init. intros H.
  destruct (get_backend b) eqn:Hb; [discriminate H| |].
  - destruct (_get_func_info use_double argspec) as [e|info] eqn:Hinfo; [discriminate H|].
    destruct (_generate fuel use_double (Transpiler_init OpenCL) f) as [[e|[t bd]]|] eqn:Hg;
      try discriminate H.
    injection H as <-. cbn [kernel_backend func _use_double queue _max_work_group_size
                            _func_info tp kernel_source].
    do 7 (split; [reflexivity|]).
    assert (exists text, get_code t = inr text /\
              source t = convert_to_float_if_needed unicode_alnum use_double text)
      as [text [Ht Hs]].
    { unfold _generate in Hg.
      destruct (add fuel (Transpiler_init OpenCL) f) as [t1|e t1|] eqn:Ha;
        try discriminate Hg.
      destruct (_correct_opencl_address_space t1) as [e|t2] eqn:Hc; [discriminate Hg|].
      injection Hg as Hg.
      assert (backend t2 = OpenCL) as Hb2.
      { destruct (fixup_last_unit _ _ Hc) as (? & ? & ? & ? & _ & _ & ->). simpl.
        destruct (add_done _ _ _ _ Ha) as [s [_ ->]]. reflexivity. }
      unfold compile in Hg. rewrite Hb2 in Hg.
      destruct (get_code t2) as [e|text] eqn:Hc2; [discriminate Hg|].
      injection Hg as <- _. exists text. split; [|reflexivity].
      unfold get_code in *. exact Hc2. }
    split; [exact (_generate_marks_entry_point _ _ _ _ _ _ Hg)|].
    split; [exists text; split; assumption|].
    intros ->. rewrite Hs. apply convert_no_standalone.
  - destruct (_get_func_info use_double argspec) as [e|info]; [discriminate H|].
    unfold _generate in H.
    destruct (add fuel (Transpiler_init OtherBackend) f) as [t1|e t1|] eqn:Ha;
      try discriminate H.
    destruct (add_fresh_other_backend _ _ _ Ha).
Qed.

(** X19. A dispatcher call calls the compiled kernel at most once, only on
    the OpenCL backend and only after every argument has been marshalled;
    [queue.finish()] follows exactly when the kernel call returned, and the
    dispatcher call then ends as [queue.finish()] does. A call that returns
    on the OpenCL backend has therefore called the kernel once and finished
    the queue once. The dispatcher's own errors come before any kernel
    call: [IndexError] without positional arguments, [AttributeError] for a
    first argument without [data.shape], which is a [LocalMem] or an object
    of no special kind without that attribute, never an [Array] or an
    object that has it, and [IndexError] for an empty [local_size]. *)
Theorem Kernel_call_launches_on_success self call_args global_size local_size w :
  (forall res w',
     Kernel_call self call_args global_size local_size w = (res, w') ->
     (launches w' = launches w /\ finishes w' = finishes w /\
      (res <> inr tt \/ kernel_backend self <> OpenCL)) \/
     (exists l wm,
        kernel_backend self = OpenCL /\
        launches w' = launches w ++ [l] /\
        _get_args self call_args (default 0%Z (head (launch_ls l))) w =
          (inr (launch_args l), wm) /\
        ((knl l = None /\ finishes w' = S (finishes w) /\
          res = match queue_finish l with
                | Some e => inl e
                | None => inr tt
                end) \/
         (exists e, knl l = Some e /\ res = inl e /\
            finishes w' = finishes w)))) /\
  (forall w',
     Kernel_call self call_args global_size local_size w = (inr tt, w') ->
     kernel_backend self = OpenCL ->
     exists l,
       launches w' = launches w ++ [l] /\ finishes w' = S (finishes w) /\
       knl l = None /\ queue_finish l = None) /\
  (call_args = [] ->
   Kernel_call self call_args global_size local_size w = (inl IndexError, w)) /\
  (forall x rest, call_args = x :: rest -> data_shape x = None ->
     Kernel_call self call_args global_size local_size w = (inl AttributeError, w)) /\
  (forall x, data_shape x = None <->
     (exists r, x = LocalMemArg r) \/ (exists v, x = ScalarArg v)) /\
  (forall x rest size, call_args = x :: rest -> data_shape x = Some size ->
     local_size = Some [] ->
     Kernel_call self call_args global_size local_size w = (inl IndexError, w)).
Proof.
  assert (forall res w',
     Kernel_call self call_args global_size local_size w = (res, w') ->
     (launches w' = launches w /\ finishes w' = finishes w /\
      (res <> inr tt \/ kernel_backend self <> OpenCL)) \/
     (exists l wm,
        kernel_backend self = OpenCL /\
        launches w' = launches w ++ [l] /\
        _get_args self call_args (default 0%Z (head (launch_ls l))) w =
          (inr (launch_args l), wm) /\
        ((knl l = None /\ finishes w' = S (finishes w) /\
          res = match queue_finish l with
                | Some e => inl e
                | None => inr tt
                end) \/
         (exists e, knl l = Some e /\ res = inl e /\
            finishes w' = finishes w)))) as Hcases.
  { intros res w' H.
    destruct (Kernel_call_cases _ _ _ _ _ _ _ H)
      as [Hno | (first & rest & size & gs & ls & c_args & wm &
                 E1 & E2 & E3 & E4 & E5 & _ & _ & _ & E6 & E7)];
      [left; exact Hno|].
    right. exists (mkLaunch gs ls c_args), wm.
    split; [exact E3|]. split; [exact E6|]. split; [exact E5|].
    destruct (knl (mkLaunch gs ls c_args)) as [e|].
    - right. exists e. destruct E7 as [-> E7]. repeat split. exact E7.
    - left. destruct E7 as [E7 ->]. repeat split. exact E7. }
  split; [exact Hcases|]. split; [|split; [|split; [|split]]].
  - intros w' H Hb.
    destruct (Hcases _ _ H)
      as [(_ & _ & [Hr|Hr]) | (l & wm & _ & Hl & _ & [(Hk & Hf & Hres)|(e & _ & Hres & _)])];
      [congruence|congruence| |discriminate Hres].
    exists l. split; [exact Hl|]. split; [exact Hf|]. split; [exact Hk|].
    destruct (queue_finish l); [discriminate Hres|reflexivity].
  - intros ->. reflexivity.
  - intros x rest -> Hx. unfold Kernel_call. rewrite Hx. reflexivity.
  - intros x. destruct x as [sh d|r|v|v sh]; simpl; split.
    + discriminate.
    + intros [[r Hr]|[v Hv]]; discriminate.
    + intros _. left. exists r. reflexivity.
    + reflexivity.
    + intros _. right. exists v. reflexivity.
    + reflexivity.
    + discriminate.
    + intros [[r Hr]|[v' Hv]]; discriminate.
  - intros x rest size -> Hx ->. unfold Kernel_call. rewrite Hx. reflexivity.
Qed.

(** [w'] knows every cached allocation of [w]. *)
Definition caches_kept (w w' : World) : Prop :=
  forall r lm, heap w !! r = Some lm ->
    exists lm', heap w' !! r = Some lm' /\
      forall k m, _cache lm !! k = Some m -> _cache lm' !! k = Some m.

Lemma caches_kept_refl w : caches_kept w w.
Proof. intros r lm H. exists lm. split; [exact H|intros k0 m0 Hk0; exact Hk0]. Qed.

Lemma caches_kept_trans w1 w2 w3 :
  caches_kept w1 w2 -> caches_kept w2 w3 -> caches_kept w1 w3.
Proof.
  intros H12 H23 r lm H. destruct (H12 r lm H) as [lm2 [H2 K2]].
  destruct (H23 r lm2 H2) as [lm3 [H3 K3]]. exists lm3. split; [exact H3|].
  intros k m Hk. apply K3, K2, Hk.
Qed.

Lemma LocalMem_get_after self c_type wg allocs mem self' allocs' :
  LocalMem_get self c_type wg allocs = (inr mem, self', allocs') ->
  _cache self' !! (c_type, wg) = Some mem /\
  forall k m, _cache self !! k = Some m -> _cache self' !! k = Some m.
Proof.
  intros H. unfold LocalMem_get in H.
  destruct (_cache self !! (c_type, wg)) as [m|] eqn:Hc.
  - injection H as <- <- <-. split; [exact Hc|intros k0 m0 Hk0; exact Hk0].
  - destruct (lm_backend self); try discriminate H.
    destruct (ctype_to_dtype c_type); [|discriminate H].
    injection H as <- <- <-. cbn [_cache]. split; [apply lookup_insert_eq|].
    intros k m Hk. destruct (decide ((c_type, wg) = k)) as [<-|E]; [congruence|].
    rewrite lookup_insert_ne by exact E. exact Hk.
Qed.

Lemma World_insert_same (w : World) r lm :
  heap w !! r = Some lm ->
  mkWorld (<[r := lm]> (heap w)) (local_allocs w) (launches w) (finishes w) = w.
Proof. intros H. rewrite insert_id by exact H. destruct w. reflexivity. Qed.

Lemma _massage_arg_again x kt wg w c w' :
  _massage_arg x kt wg w = (inr c, w') ->
  caches_kept w w' /\
  forall w2, caches_kept w' w2 -> _massage_arg x kt wg w2 = (inr c, w2).
Proof.
  intros H. destruct x as [sh d|r|v|v sh]; simpl in H.
  - injection H as <- <-. split; [apply caches_kept_refl|reflexivity].
  - destruct (heap w !! r) as [lm|] eqn:Hr; [|discriminate H].
    destruct (LocalMem_get lm (base_type kt) wg (local_allocs w))
      as [[res lm'] allocs'] eqn:Hg.
    destruct res as [e|mem]; [discriminate H|]. injection H as <- <-.
    destruct (LocalMem_get_after _ _ _ _ _ _ _ Hg) as [Hc Hkeep].
    split.
    + intros r0 lm0 H0. cbn [heap].
      destruct (decide (r = r0)) as [<-|E].
      * rewrite lookup_insert_eq. exists lm'. split; [reflexivity|].
        rewrite Hr in H0. injection H0 as <-. exact Hkeep.
      * rewrite lookup_insert_ne by exact E. exists lm0. split; [exact H0|intros k0 m0 Hk0; exact Hk0].
    + intros w2 H2. simpl.
      destruct (H2 r lm') as [lm2 [Hr2 K2]]; [cbn [heap]; apply lookup_insert_eq|].
      rewrite Hr2. unfold LocalMem_get. rewrite (K2 _ _ Hc).
      rewrite (World_insert_same w2 r lm2 Hr2). reflexivity.
  - unfold np_array_of in H.
    destruct (ctype_to_dtype (type kt)) eqn:Hd; [|discriminate H].
    injection H as <- <-. split; [apply caches_kept_refl|].
    intros w2 _. simpl. unfold np_array_of. rewrite Hd. reflexivity.
  - unfold np_array_of in H.
    destruct (ctype_to_dtype (type kt)) eqn:Hd; [|discriminate H].
    injection H as <- <-. split; [apply caches_kept_refl|].
    intros w2 _. simpl. unfold np_array_of. rewrite Hd. reflexivity.
Qed.

Lemma massage_all_again pairs wg : forall w cs w',
  massage_all pairs wg w = (inr cs, w') ->
  caches_kept w w' /\
  forall w2, caches_kept w' w2 -> massage_all pairs wg w2 = (inr cs, w2).
Proof.
  induction pairs as [|[arg a_info] pairs IH]; intros w cs w' H; simpl in H.
  - injection H as <- <-. split; [apply caches_kept_refl|reflexivity].
  - unfold bind in H.
    destruct (_massage_arg arg (snd a_info) wg w) as [[e|c] w1] eqn:E1; [discriminate H|].
    destruct (massage_all pairs wg w1) as [[e|cs'] w3] eqn:E2; [discriminate H|].
    injection H as <- <-.
    destruct (_massage_arg_again _ _ _ _ _ _ E1) as [K1 A1].
    destruct (IH _ _ _ E2) as [K2 A2].
    split; [exact (caches_kept_trans _ _ _ K1 K2)|].
    intros w2 H2. simpl. unfold bind.
    rewrite (A1 w2 (caches_kept_trans _ _ _ K2 H2)), (A2 w2 H2). reflexivity.
Qed.

(** X20. Calling a kernel again with the same arguments and geometry
    allocates no local memory: every [LocalMem] argument is served from
    its cache, the same marshalled arguments are passed, and only a second
    launch is recorded. *)
Theorem Kernel_call_repeated self call_args global_size local_size w w1 :
  Kernel_call self call_args global_size local_size w = (inr tt, w1) ->
  kernel_backend self = OpenCL ->
  exists l,
    launches w1 = launches w ++ [l] /\
    Kernel_call self call_args global_size local_size w1 =
      (inr tt,
       mkWorld (heap w1) (local_allocs w1) (launches w1 ++ [l]) (S (finishes w1))).
Proof.
  intros H Hb.
  destruct (Kernel_call_cases _ _ _ _ _ _ _ H)
    as [(_ & _ & [Hr|Hr]) |
        (first & rest & size & gs & ls & c_args & wm &
         -> & E2 & _ & E4 & E5 & Hheap & Hallocs & _ & E6 & E7)];
    [congruence|congruence|].
  exists (mkLaunch gs ls c_args). split; [exact E6|].
  destruct (knl (mkLaunch gs ls c_args)) as [e|] eqn:Hk;
    [destruct E7 as [E7 _]; discriminate E7|].
  destruct E7 as [Hfin Hres].
  destruct (queue_finish (mkLaunch gs ls c_args)) as [e|] eqn:Hq;
    [discriminate Hres|].
  unfold Kernel_call. rewrite E2, E4.
  destruct ls as [|ls0 ls1].
  { unfold Kernel_call in H. rewrite E2, E4 in H. discriminate H. }
  change (default 0%Z (head (ls0 :: ls1))) with ls0 in E5. unfold bind.
  unfold _get_args in E5 |- *.
  destruct (massage_all_again _ _ _ _ _ E5) as [_ Hagain].
  rewrite (Hagain w1).
  - rewrite Hb. unfold call_knl, call_queue_finish. rewrite Hk, Hq.
    cbn [heap local_allocs launches finishes]. reflexivity.
  - intros r lm Hr. exists lm. split; [rewrite Hheap; exact Hr|].
    intros k0 m0 Hk0; exact Hk0.
Qed.

(** X21. The fix-up raises [IndexError] exactly when there is no unit or
    the code of the last unit is empty. When it returns, the units stand
    for the same objects as before, so [add] of a registered object still
    returns at once. *)
Theorem fixup_errors_and_objects t :
  (forall e, _correct_opencl_address_space t = inl e <->
     e = IndexError /\
     (blocks t = [] \/ exists cb, last (blocks t) = Some cb /\ code cb = [])) /\
  (forall t', _correct_opencl_address_space t = inr t' ->
     objs (blocks t') = objs (blocks t) /\
     forall o m, contains o (blocks t) = true -> (0 < m)%nat ->
       add m t' o = Done t').
Proof.
  split.
  - intros e. unfold _correct_opencl_address_space.
    destruct (blocks t) as [|cb0 bs0] eqn:Eb using rev_ind.
    { simpl. split; [intros [= <-]; split; [reflexivity|left; reflexivity]|].
      intros [-> _]. reflexivity. }
    clear IHbs0. rewrite length_app. change (length [cb0]) with 1%nat.
    replace (length bs0 + 1 - 1)%nat with (length bs0) by lia.
    rewrite list_lookup_middle by reflexivity.
    destruct (splitlines (code cb0)) as [|line0 rest] eqn:Es.
    + apply splitlines_nil in Es. split.
      * intros [= <-]. split; [reflexivity|]. right. exists cb0.
        split; [apply last_snoc|exact Es].
      * intros [-> _]. reflexivity.
    + split; [discriminate|]. intros [_ [Hnil|[cb [Hl Hc]]]].
      * destruct bs0; discriminate Hnil.
      * rewrite last_snoc in Hl. injection Hl as <-. rewrite Hc in Es. discriminate Es.
  - intros t' H.
    destruct (fixup_last_unit t t' H) as (init & cb & line0 & rest & Hb & _ & ->).
    assert (objs (blocks (set_blocks t
              (init ++ [mkCodeBlock (obj cb)
                 (join newline ((txt "KERNEL " ++ line0) :: rest))]))) =
            objs (blocks t)) as Ho.
    { rewrite Hb. cbn [set_blocks blocks]. unfold objs. rewrite !map_app. reflexivity. }
    split; [exact Ho|].
    intros o [|m] Hc Hm; [lia|]. unfold add. cbn [add_blocks].
    rewrite (contains_ignores_code o _ _ Ho), Hc. simpl.
    rewrite set_blocks_same. reflexivity.
Qed.

(** X22. Launched without [local_size] on a device with positive limits,
    over a global size of positive entries whose product [n] leaves
    [2*n + 128] within 64 bits, the kernel runs in whole work-groups of at
    most 128 items that cover all [n] items. *)
Theorem Kernel_call_default_geometry
    self first size rest global_size w w' :
  Splay.limits_ok (queue self) (Some (_max_work_group_size self)) ->
  data_shape first = Some size ->
  Forall (fun x => 1 <= x)%Z (default size global_size) ->
  (2 * product (default size global_size) + 128 <= Splay.int64_max)%Z ->
  Kernel_call self (first :: rest) global_size None w = (inr tt, w') ->
  kernel_backend self = OpenCL ->
  exists g l c_args,
    launches w' = launches w ++ [mkLaunch [g] [l] c_args] /\
    (1 <= l <= 128)%Z /\ (g mod l = 0)%Z /\
    (product (default size global_size) <= g)%Z.
Proof.
  intros Hl Hs Hpos Hmax H Hb.
  pose proof (product_pos _ Hpos) as Hn.
  assert (np_prod (default size global_size) = product (default size global_size))
    as Hp by (apply np_prod_exact; [exact Hpos|lia]).
  destruct (Kernel_call_cases _ _ _ _ _ _ _ H)
    as [(_ & _ & [Hr|Hr]) |
        (first' & rest' & size' & gs & ls & c_args & wm &
         E1 & E2 & _ & E4 & _ & _ & _ & _ & E6 & _)];
    [congruence|congruence|].
  injection E1 as <- <-. rewrite Hs in E2. injection E2 as <-.
  rewrite Hp in E4. cbn [launch_geometry] in E4. unfold _get_workgroup_size in E4.
  rewrite Splay.splay_int64_exact in E4 by assumption.
  pose proof (Splay.splay_groups_cover _ _ _ Hl Hn) as Hc.
  pose proof (Splay.splay_groups_le_128 _ _ _ Hl Hn) as H128.
  unfold Splay.splay in E4.
  destruct (Splay.splay_groups (queue self) (product (default size global_size))
              (Some (_max_work_group_size self))) as [gc wi].
  cbn [fst snd] in H128. destruct Hc as [Hw Hcov]. injection E4 as <- <-.
  exists (gc * wi)%Z, wi, c_args. split; [exact E6|].
  split; [lia|]. split; [apply Z.mod_mul; lia|exact Hcov].
Qed.

End Pysph.

(** ** A small program: one kernel, one helper, one recursive function *)

Module Demo.

(** Word characters as a Python 2 byte string has them. *)
Definition ascii_only : ascii -> bool := fun _ => false.

(** A few of the names [dir(math)] lists. *)
Definition math_names : list str :=
  [txt "__doc__"; txt "__name__"; txt "cos"; txt "pi"; txt "sin"; txt "sqrt"].

(** Object 0 is the kernel [axpy], which calls [helper] and [sin]; object 1
    is [helper], which calls [sqrt]; object 2 is [fact], which calls
    itself. Objects 10 and 11 are [math.sin] and [math.sqrt], for which
    [inspect] has no source. *)
Definition sources (i : nat) : option (list str) :=
  match i with
  | 0 => Some [txt "helper"; txt "sin"]
  | 1 => Some [txt "sqrt"]
  | 2 => Some [txt "fact"]
  | _ => None
  end%nat.

(** [math.sin] and [math.sqrt] are written in C. *)
Definition builtins (i : nat) : bool := Nat.eqb i 10 || Nat.eqb i 11.

Definition module_attr (_ : nat) (name : str) : option PyObj :=
  if bool_decide (name = txt "axpy") then Some (Obj 0)
  else if bool_decide (name = txt "helper") then Some (Obj 1)
  else if bool_decide (name = txt "fact") then Some (Obj 2)
  else if bool_decide (name = txt "sin") then Some (Obj 10)
  else if bool_decide (name = txt "sqrt") then Some (Obj 11)
  else None.

Definition axpy_code : str := txt "void axpy(GLOBAL_MEM double* x, double a)
{
    x[GID_0] = helper(a)*x[GID_0] + sin(a);
}".

Definition helper_code : str := txt "double helper(double a)
{
    return sqrt(a);
}".

Definition fact_code : str := txt "int fact(int n)
{
    return n*fact(n - 1);
}".

Definition translated (o : PyObj) : exn + str :=
  match o with
  | Obj 0 => inr axpy_code
  | Obj 1 => inr helper_code
  | Obj 2 => inr fact_code
  | _ => inl TranslatorError
  end.

Definition preamble : str := txt "#define KERNEL __kernel
#define GLOBAL_MEM __global
#define GID_0 get_global_id(0)".

Definition float64 : Dtype := mkDtype (txt "float64") 8.
Definition float32 : Dtype := mkDtype (txt "float32") 4.
Definition int32 : Dtype := mkDtype (txt "int32") 4.

Definition dtypes (c : str) : option Dtype :=
  if bool_decide (c = txt "double") then Some float64
  else if bool_decide (c = txt "float") then Some float32
  else if bool_decide (c = txt "int") then Some int32
  else None.

Definition backend_of (b : option Backend) : Backend := default OpenCL b.

Definition device : Splay.Device := Splay.mkDevice 256 20.

Local Abbreviation add' := (add math_names sources builtins module_attr translated translated).
Local Abbreviation built' :=
  (built_from math_names sources builtins module_attr translated translated preamble).
Local Abbreviation calls' := (calls math_names sources builtins module_attr).
Local Abbreviation reaches' := (reaches math_names sources builtins module_attr).
Local Abbreviation on_cycle' := (on_cycle math_names sources builtins module_attr).
Local Abbreviation gaf' := (get_all_functions math_names sources builtins module_attr).

Definition tp0 : Transpiler := Transpiler_init preamble OpenCL.

(** The transpiler after [add(axpy)]. *)
Definition tp1 : Transpiler :=
  mkTranspiler OpenCL
    [mkCodeBlock (Obj 1) helper_code; mkCodeBlock (Obj 0) axpy_code]
    (Some (preamble ++ opencl_defines)) [].

Example add_axpy : add' 3 tp0 (Obj 0) = Done tp1.
Proof. vm_compute. reflexivity. Qed.

Example add_axpy_out_of_fuel : add' 1 tp0 (Obj 0) = Diverged.
Proof. vm_compute. reflexivity. Qed.

Example add_math_sin_raises : add' 5 tp0 (Obj 10) = Raised TypeError tp0.
Proof. vm_compute. reflexivity. Qed.

Example splay_ten_items :
  Splay.splay (Splay.mkDevice 128 20) 10 None = ([64%Z], [64%Z]).
Proof. reflexivity. Qed.

Example splay_hundred_thousand_items :
  Splay.splay (Splay.mkDevice 128 20) 100000 None = ([100096%Z], [128%Z]).
Proof. vm_compute. reflexivity. Qed.

Example rewrite_sample :
  convert_to_float_if_needed ascii_only false
    (txt "double x; double_t y; mydouble z; (double)w; double") =
  txt "float x; double_t y; mydouble z; (float)w; float".
Proof. vm_compute. reflexivity. Qed.

Example splitlines_sample :
  splitlines (LF :: txt "a" ++ [CR; LF] ++ txt "b" ++ [CR] ++ txt "c" ++ [LF]) =
  [[]; txt "a"; txt "b"; txt "c"].
Proof. vm_compute. reflexivity. Qed.

(** *** The call graph of the program *)

Lemma calls_axpy g : calls' (Obj 0) g -> g = Obj 1.
Proof.
  intros [fs [E H]]. vm_compute in E. injection E as <-.
  destruct H as [<-|[]]. reflexivity.
Qed.

Lemma calls_helper g : ~ calls' (Obj 1) g.
Proof. intros [fs [E H]]. vm_compute in E. injection E as <-. destruct H. Qed.

Lemma calls_fact g : calls' (Obj 2) g -> g = Obj 2.
Proof.
  intros [fs [E H]]. vm_compute in E. injection E as <-.
  destruct H as [<-|[]]. reflexivity.
Qed.

Lemma axpy_calls_helper : calls' (Obj 0) (Obj 1).
Proof. exists [Obj 1]. split; [vm_compute; reflexivity|left; reflexivity]. Qed.

Lemma fact_on_cycle : on_cycle' (Obj 2).
Proof.
  apply t_step. exists [Obj 2]. split; [vm_compute; reflexivity|left; reflexivity].
Qed.

Lemma reaches_axpy g : reaches' (Obj 0) g -> In g [Obj 0; Obj 1].
Proof.
  intros H. apply clos_rt_rtn1 in H. induction H as [|y z Hyz _ IH].
  - left. reflexivity.
  - destruct IH as [<-|[<-|[]]].
    + right. left. symmetry. apply calls_axpy. exact Hyz.
    + destruct (calls_helper z Hyz).
Qed.

Lemma reaches_fact g : reaches' (Obj 2) g -> g = Obj 2.
Proof.
  intros H. apply clos_rt_rtn1 in H. induction H as [|y z Hyz _ IH].
  - reflexivity.
  - subst y. apply calls_fact. exact Hyz.
Qed.

Lemma axpy_acyclic g : reaches' (Obj 0) g -> ~ on_cycle' g.
Proof.
  assert (forall x y, clos_trans_1n PyObj calls' x y ->
            (x = Obj 0 -> y = Obj 1) /\ x <> Obj 1) as H.
  { intros x y Hxy. induction Hxy as [x y Hxy | x y z Hxy _ [_ IH]].
    - split.
      + intros ->. apply calls_axpy. exact Hxy.
      + intros ->. destruct (calls_helper y Hxy).
    - split.
      + intros ->. apply calls_axpy in Hxy. contradiction.
      + intros ->. destruct (calls_helper y Hxy). }
  intros Hg Hc. apply clos_trans_t1n in Hc.
  destruct (H g g Hc) as [H0 H1].
  destruct (reaches_axpy g Hg) as [<-|[<-|[]]].
  - discriminate (H0 eq_refl).
  - apply H1. reflexivity.
Qed.

Lemma built_tp1 : built' [Obj 0] tp1.
Proof.
  apply (built_add _ _ _ _ _ _ _ [] tp0 3 (Obj 0) tp1).
  - apply built_init.
  - vm_compute. reflexivity.
Defined.

(** *** The theorems at this program *)

Lemma add_idempotent_witness :
  add' 3 tp0 (Obj 0) = Done tp1 /\
  add' 1 tp1 (Obj 0) = Done tp1 /\
  built' [] tp0 /\
  NoDup (objs (blocks tp1)) /\
  (forall g, reaches' (Obj 0) g -> In g (objs (blocks tp1))).
Proof.
  assert (built' [] tp0) as Hb by apply built_init.
  assert (add' 3 tp0 (Obj 0) = Done tp1) as Ha by (vm_compute; reflexivity).
  split; [exact Ha|].
  destruct (add_idempotent _ _ _ _ _ _ preamble _ _ _ _ Ha) as (H1 & _ & H3 & _).
  split; [apply H1; repeat constructor|]. split; [exact Hb|].
  exact (H3 [] Hb).
Defined.

Lemma add_dependency_order_witness :
  built' [Obj 0] tp1 /\
  (forall text, get_code tp1 = inr text ->
     exists a m z, text = a ++ helper_code ++ m ++ axpy_code ++ z) /\
  (forall u, In u (objs (blocks tp1)) ->
     In u [Obj 0] \/
     exists i cs c, sources i = Some cs /\ In c cs /\
       is_builtin math_names c = false /\ module_attr i c = Some u).
Proof.
  split; [exact built_tp1|].
  destruct (add_dependency_order _ _ _ _ _ _ _ _ _ built_tp1) as (_ & H2 & H3 & _).
  split; [|exact H3].
  destruct (H2 1%nat 0%nat (mkCodeBlock (Obj 0) axpy_code)
              (mkCodeBlock (Obj 1) helper_code) eq_refl eq_refl axpy_calls_helper)
    as [_ Ht].
  exact Ht.
Defined.

Lemma add_terminates_iff_acyclic_witness :
  built' [] tp0 /\
  (exists r n, r <> Diverged /\ forall m, (n <= m)%nat -> add' m tp0 (Obj 0) = r) /\
  on_cycle' (Obj 2) /\
  (forall n, add' n tp0 (Obj 2) = Diverged).
Proof.
  assert (built' [] tp0) as Hb by apply built_init.
  split; [exact Hb|]. split.
  - apply (proj1 (add_terminates_iff_acyclic math_names sources builtins module_attr
                    translated translated preamble tp0 (Obj 0))
             [Obj 0; Obj 1] reaches_axpy axpy_acyclic).
  - split; [exact fact_on_cycle|].
    apply (proj2 (add_terminates_iff_acyclic math_names sources builtins module_attr
                    translated translated preamble tp0 (Obj 2)) [] Hb fact_on_cycle).
    intros g Hg. rewrite (reaches_fact g Hg). split.
    + exists [Obj 2]. vm_compute. reflexivity.
    + exists fact_code. reflexivity.
Defined.

(** *** A builtin that gets registered *)

(** Object 20 is [local_barrier] of [pysph.cpy.low_level], a Python
    function with source (its body is [pass]). Object 21 is a kernel whose
    module imports it a second time under the name [barrier] and calls it
    by that name; object 22 is a kernel that calls it as [local_barrier]. *)
Definition barrier_sources (i : nat) : option (list str) :=
  match i with
  | 20 => Some []
  | 21 => Some [txt "barrier"]
  | 22 => Some [txt "local_barrier"]
  | _ => None
  end%nat.

Definition barrier_module_attr (_ : nat) (name : str) : option PyObj :=
  if bool_decide (name = txt "local_barrier") then Some (Obj 20)
  else if bool_decide (name = txt "barrier") then Some (Obj 20)
  else if bool_decide (name = txt "reduce") then Some (Obj 21)
  else if bool_decide (name = txt "scan") then Some (Obj 22)
  else None.

Definition local_barrier_code : str := txt "void local_barrier()
{
    ;
}".

Definition reduce_code : str := txt "void reduce(GLOBAL_MEM double* x)
{
    barrier();
}".

Definition scan_code : str := txt "void scan(GLOBAL_MEM double* x)
{
    local_barrier();
}".

Definition barrier_translated (o : PyObj) : exn + str :=
  match o with
  | Obj 20 => inr local_barrier_code
  | Obj 21 => inr reduce_code
  | Obj 22 => inr scan_code
  | _ => inl TranslatorError
  end.

(** [local_barrier] is on the allow-list, and its function is registered
    as a unit both when it is passed to [add] and when a kernel calls it
    under its second name; called under the name [local_barrier] it is
    left out. *)
Lemma add_registers_local_barrier :
  is_builtin math_names (txt "local_barrier") = true /\
  bound_to_builtin math_names barrier_module_attr (Obj 20) /\
  add math_names barrier_sources builtins barrier_module_attr
    barrier_translated barrier_translated 2 tp0 (Obj 20) =
  Done (set_blocks tp0 [mkCodeBlock (Obj 20) local_barrier_code]) /\
  add math_names barrier_sources builtins barrier_module_attr
    barrier_translated barrier_translated 3 tp0 (Obj 21) =
  Done (set_blocks tp0 [mkCodeBlock (Obj 20) local_barrier_code;
                        mkCodeBlock (Obj 21) reduce_code]) /\
  add math_names barrier_sources builtins barrier_module_attr
    barrier_translated barrier_translated 3 tp0 (Obj 22) =
  Done (set_blocks tp0 [mkCodeBlock (Obj 22) scan_code]).
Proof.
  split; [vm_compute; reflexivity|]. split.
  { exists 21%nat, (txt "local_barrier"). split; vm_compute; reflexivity. }
  split; [vm_compute; reflexivity|]. split; vm_compute; reflexivity.
Qed.

(** *** A kernel under the 32-bit policy *)

Definition axpy_argspec : ArgSpec :=
  mkArgSpec [txt "x"; txt "a"]
    (<[txt "x" := mkKnownType (txt "double*") (txt "double")]>
       (<[txt "a" := mkKnownType (txt "double") []]> ∅)).

Definition no_kernel : Kernel :=
  mkKernel tp0 OpenCL (Obj 0) [] false device ([], mkKnownType [] []) 0.

(** [Kernel(axpy)] with [use_double] off, on a device that grants the
    kernel work-groups of 256 items. *)
Definition kernel32 : Kernel :=
  Eval vm_compute in
    match Kernel_init ascii_only math_names sources builtins module_attr translated translated
            preamble backend_of 3 (Obj 0) axpy_argspec None false device 256 with
    | Some (inr k) => k
    | _ => no_kernel
    end.

Definition w0 : World Z := mkWorld Z ∅ [] [] 0.

(** A runtime on which every kernel call and every [finish] returns. *)
Definition returns : Launch Z -> option exn := fun _ => None.

Example kernel32_built :
  Kernel_init ascii_only math_names sources builtins module_attr translated translated
    preamble backend_of 3 (Obj 0) axpy_argspec None false device 256
  = Some (inr kernel32).
Proof. vm_compute. reflexivity. Qed.

Example kernel32_func_info :
  fst (_func_info kernel32) =
  [(txt "x", mkKnownType (txt "float*") (txt "float"));
   (txt "a", mkKnownType (txt "float") [])].
Proof. vm_compute. reflexivity. Qed.

Example kernel32_last_unit :
  last (blocks (tp kernel32)) =
  Some (mkCodeBlock (Obj 0) (txt "KERNEL " ++ axpy_code)).
Proof. vm_compute. reflexivity. Qed.

Lemma precision_rewrite_witness :
  boundary_before ascii_only (txt "GLOBAL_MEM ") = true /\
  forallb (is_word ascii_only) (txt "double_t") = true /\
  boundary_after ascii_only (txt "* x, double a") = true /\
  txt "double_t" <> double_kw /\
  convert_to_float_if_needed ascii_only false
    (txt "GLOBAL_MEM " ++ txt "double_t" ++ txt "* x, double a") =
  txt "GLOBAL_MEM " ++ txt "double_t" ++ txt "* x, float a" /\
  exists t',
    compile ascii_only false tp1 =
      inr (t', Some (CLProgram
             (convert_to_float_if_needed ascii_only false
                (join newline [preamble ++ opencl_defines; helper_code; axpy_code]))
             [txt "-w"])).
Proof.
  assert (boundary_before ascii_only (txt "GLOBAL_MEM ") = true) as H1 by reflexivity.
  assert (forallb (is_word ascii_only) (txt "double_t") = true) as H2 by reflexivity.
  assert (boundary_after ascii_only (txt "* x, double a") = true) as H3 by reflexivity.
  assert (txt "double_t" <> double_kw) as H4 by discriminate.
  destruct (precision_rewrite ascii_only) as (_ & _ & Hkeep & Hcompile).
  repeat (split; [assumption|]). split.
  - rewrite (Hkeep _ _ _ H1 H2 H3 H4). reflexivity.
  - destruct (Hcompile false tp1 _ eq_refl eq_refl) as [t' [Ht' _]].
    exists t'. exact Ht'.
Defined.

Lemma explicit_local_size_geometry_witness :
  (1 <= 1000)%Z /\ Forall (fun x => 1 <= x)%Z [8%Z; 8%Z] /\
  (1000 + product [8%Z; 8%Z] - 1 <= Splay.int64_max)%Z /\
  launch_geometry kernel32 1000 (Some [8%Z; 8%Z]) = ([1024%Z], [8%Z; 8%Z]) /\
  (1024 = 16 * product [8%Z; 8%Z])%Z /\
  (forall m, (exists k, m = k * product [8%Z; 8%Z])%Z -> (1000 <= m)%Z ->
     (1024 <= m)%Z) /\
  Kernel_call dtypes Z returns returns kernel32
    [ArrayArg Z [1000%Z] 0; ScalarArg Z 2%Z] None (Some [8%Z; 8%Z]) w0 =
  (inr tt,
   mkWorld Z ∅ []
     [mkLaunch Z [1024%Z] [8%Z; 8%Z] [DevData Z 0; HostArray Z [2%Z] float32]] 1) /\
  launch_geometry kernel32 1000 None = ([1024%Z], [64%Z]).
Proof.
  assert (1 <= 1000)%Z as H1 by lia.
  assert (Forall (fun x => 1 <= x)%Z [8%Z; 8%Z]) as H2 by (repeat constructor; lia).
  assert (1000 + product [8%Z; 8%Z] - 1 <= Splay.int64_max)%Z as H3
    by (vm_compute; discriminate).
  split; [exact H1|]. split; [exact H2|]. split; [exact H3|].
  destruct (explicit_local_size_geometry dtypes Z returns returns kernel32 1000
              [8%Z; 8%Z] H1 H2 H3) as ((g & Hg & _ & _ & _ & Hleast & _) & Hs & _).
  assert (g = 1024%Z) as -> by (vm_compute in Hg; injection Hg as <-; reflexivity).
  split; [exact Hg|]. split; [reflexivity|]. split; [exact Hleast|].
  split; [vm_compute; reflexivity|].
  rewrite Hs. vm_compute. reflexivity.
Defined.

(** A global size of [2^63 - 1] items with work-groups of two items:
    [n + local_size - 1] leaves the 64 bits of a numpy integer and the
    global size comes out as [-2^63], below [n]. The kernel is called with
    it. A grid of [2^32] by [2^32] items is counted as [n = 0], and the
    global size is 0. *)
Lemma explicit_local_size_wraps :
  np_prod [(2 ^ 63 - 1)%Z] = (2 ^ 63 - 1)%Z /\
  (1 <= 2 ^ 63 - 1)%Z /\
  launch_geometry kernel32 (2 ^ 63 - 1) (Some [2%Z]) = ([(- 2 ^ 63)%Z], [2%Z]) /\
  ~ (2 ^ 63 - 1 <= - 2 ^ 63)%Z /\
  Kernel_call dtypes Z returns returns kernel32
    [ArrayArg Z [1000%Z] 0; ScalarArg Z 2%Z] (Some [(2 ^ 63 - 1)%Z]) (Some [2%Z]) w0 =
  (inr tt,
   mkWorld Z ∅ []
     [mkLaunch Z [(- 2 ^ 63)%Z] [2%Z] [DevData Z 0; HostArray Z [2%Z] float32]] 1) /\
  np_prod [(2 ^ 32)%Z; (2 ^ 32)%Z] = 0%Z /\
  launch_geometry kernel32 (np_prod [(2 ^ 32)%Z; (2 ^ 32)%Z]) (Some [64%Z]) =
    ([0%Z], [64%Z]).
Proof.
  split; [vm_compute; reflexivity|]. split; [vm_compute; discriminate|].
  split; [vm_compute; reflexivity|].
  split; [vm_compute; intros H; apply H; reflexivity|].
  split; [vm_compute; reflexivity|].
  split; vm_compute; reflexivity.
Qed.

Lemma scalar_marshalled_as_float_witness :
  Kernel_init ascii_only math_names sources builtins module_attr translated translated
    preamble backend_of 3 (Obj 0) axpy_argspec None false device 256
    = Some (inr kernel32) /\
  args axpy_argspec !! 1%nat = Some (txt "a") /\
  annotations axpy_argspec !! txt "a" = Some (mkKnownType (txt "double") []) /\
  dtypes (txt "float") = Some float32 /\ itemsize float32 = 4%Z /\
  [ArrayArg Z [1000%Z] 0; ScalarArg Z 2%Z] !! 1%nat = Some (ScalarArg Z 2%Z) /\
  Kernel_call dtypes Z returns returns kernel32
    [ArrayArg Z [1000%Z] 0; ScalarArg Z 2%Z] None None w0 =
  (inr tt,
   mkWorld Z ∅ []
     [mkLaunch Z [1024%Z] [64%Z] [DevData Z 0; HostArray Z [2%Z] float32]] 1) /\
  fst (_func_info kernel32) !! 1%nat = Some (txt "a", mkKnownType (txt "float") []) /\
  launch_args Z
    (mkLaunch Z [1024%Z] [64%Z] [DevData Z 0; HostArray Z [2%Z] float32]) !! 1%nat =
  Some (HostArray Z [2%Z] float32).
Proof.
  assert (Kernel_init ascii_only math_names sources builtins module_attr translated
            translated preamble backend_of 3 (Obj 0) axpy_argspec None false device 256
          = Some (inr kernel32)) as H1 by (vm_compute; reflexivity).
  assert (args axpy_argspec !! 1%nat = Some (txt "a")) as H2 by reflexivity.
  assert (annotations axpy_argspec !! txt "a" = Some (mkKnownType (txt "double") []))
    as H3 by (vm_compute; reflexivity).
  assert (dtypes (txt "float") = Some float32) as H4 by reflexivity.
  assert (itemsize float32 = 4%Z) as H5 by reflexivity.
  assert ([ArrayArg Z [1000%Z] 0; ScalarArg Z 2%Z] !! 1%nat = Some (ScalarArg Z 2%Z))
    as H6 by reflexivity.
  assert (Kernel_call dtypes Z returns returns kernel32
            [ArrayArg Z [1000%Z] 0; ScalarArg Z 2%Z] None None w0 =
          (inr tt,
           mkWorld Z ∅ []
             [mkLaunch Z [1024%Z] [64%Z] [DevData Z 0; HostArray Z [2%Z] float32]] 1))
    as H7 by (vm_compute; reflexivity).
  repeat (split; [assumption|]).
  destruct (scalar_marshalled_as_float ascii_only math_names sources builtins module_attr
              translated translated preamble dtypes backend_of Z returns returns
              3 (Obj 0) axpy_argspec None device 256 kernel32 1%nat (txt "a")
              [] 2%Z float32 _ None None w0 _ _ _ H1 H2 H3 H4 H5 H6 H7 eq_refl)
    as ((kt & Hkt & _ & _) & Hl & _).
  split; [|exact Hl].
  rewrite Hkt. vm_compute in Hkt. injection Hkt as <-. reflexivity.
Defined.

Lemma kernel_marker_on_last_unit_witness :
  _correct_opencl_address_space tp1 =
    inr (set_blocks tp1 [mkCodeBlock (Obj 1) helper_code;
                         mkCodeBlock (Obj 0) (txt "KERNEL " ++ axpy_code)]) /\
  exists init cb line0 rest,
    blocks tp1 = init ++ [cb] /\ splitlines (code cb) = line0 :: rest /\
    blocks (set_blocks tp1 [mkCodeBlock (Obj 1) helper_code;
                            mkCodeBlock (Obj 0) (txt "KERNEL " ++ axpy_code)]) =
      init ++ [mkCodeBlock (obj cb)
                 (join newline ((txt "KERNEL " ++ line0) :: rest))].
Proof.
  assert (_correct_opencl_address_space tp1 =
            inr (set_blocks tp1 [mkCodeBlock (Obj 1) helper_code;
                                 mkCodeBlock (Obj 0) (txt "KERNEL " ++ axpy_code)]))
    as H by (vm_compute; reflexivity).
  split; [exact H|].
  destruct (kernel_marker_on_last_unit _ _ H)
    as (init & cb & line0 & rest & H1 & H2 & H3 & _).
  exists init, cb, line0, rest. split; [exact H1|]. split; [exact H2|exact H3].
Defined.

(** Two [get] calls with one key: the second returns the object of the
    first and the list of requests keeps its single entry. *)
Definition lm0 : LocalMem := mkLocalMem OpenCL 2 ∅.
Definition lm1 : LocalMem :=
  mkLocalMem OpenCL 2 {[ (txt "double", 128%Z) := mkLocalMemory 0 2048 ]}.

Lemma LocalMem_get_second_call_requests_nothing :
  LocalMem_get dtypes lm0 (txt "double") 128 [] =
    (inr (mkLocalMemory 0 2048), lm1, [2048%Z]) /\
  LocalMem_get dtypes lm1 (txt "double") 128 [2048%Z] =
    (inr (mkLocalMemory 0 2048), lm1, [2048%Z]).
Proof. split; reflexivity. Qed.

Lemma LocalMem_get_cached_witness :
  _cache lm0 !! (txt "double", 128%Z) = None /\ lm_backend lm0 = OpenCL /\
  dtypes (txt "double") = Some float64 /\
  LocalMem_get dtypes lm0 (txt "double") 128 [] =
    (inr (mkLocalMemory 0 2048), lm1, [2048%Z]) /\
  LocalMem_get dtypes lm1 (txt "double") 128 [2048%Z] =
    (inr (mkLocalMemory 0 2048), lm1, [2048%Z]).
Proof.
  assert (_cache lm0 !! (txt "double", 128%Z) = None) as H1 by reflexivity.
  assert (lm_backend lm0 = OpenCL) as H2 by reflexivity.
  assert (dtypes (txt "double") = Some float64) as H3 by reflexivity.
  repeat (split; [assumption|]).
  destruct (LocalMem_get_cached dtypes lm0 (txt "double") 128%Z [])
    as (Hagain & Hfirst & _).
  pose proof (Hfirst float64 H1 H2 H3) as Hf.
  assert (LocalMem_get dtypes lm0 (txt "double") 128 [] =
            (inr (mkLocalMemory 0 2048), lm1, [2048%Z])) as Hf'.
  { rewrite Hf. reflexivity. }
  split; [exact Hf'|]. exact (Hagain _ _ _ Hf').
Defined.

(** Three positional arguments for the two parameters of [axpy]: the call
    returns, and the kernel was launched with two arguments. *)
Lemma call_with_surplus_argument_launches :
  length [ArrayArg Z [1000%Z] 0; ScalarArg Z 2%Z; ScalarArg Z 99%Z]
    <> length (fst (_func_info kernel32)) /\
  Kernel_call dtypes Z returns returns kernel32
    [ArrayArg Z [1000%Z] 0; ScalarArg Z 2%Z; ScalarArg Z 99%Z] None None w0 =
  (inr tt,
   mkWorld Z ∅ []
     [mkLaunch Z [1024%Z] [64%Z] [DevData Z 0; HostArray Z [2%Z] float32]] 1).
Proof. split; [discriminate|]. vm_compute. reflexivity. Qed.

Lemma call_zips_arguments_witness :
  (1 <= length [ArrayArg Z [1000%Z] 0; ScalarArg Z 2%Z])%nat /\
  (length (fst (_func_info kernel32))
     <= length [ArrayArg Z [1000%Z] 0; ScalarArg Z 2%Z])%nat /\
  Kernel_call dtypes Z returns returns kernel32
    ([ArrayArg Z [1000%Z] 0; ScalarArg Z 2%Z] ++ [ScalarArg Z 99%Z]) None None w0 =
  Kernel_call dtypes Z returns returns kernel32
    [ArrayArg Z [1000%Z] 0; ScalarArg Z 2%Z] None None w0 /\
  kernel_backend kernel32 = OpenCL /\
  exists w' l,
    Kernel_call dtypes Z returns returns kernel32 [ArrayArg Z [1000%Z] 0] None None w0
      = (inr tt, w') /\
    launches Z w' = launches Z w0 ++ [l] /\
    length (launch_args Z l) =
      Nat.min (length [ArrayArg Z [1000%Z] 0]) (length (fst (_func_info kernel32))).
Proof.
  assert (1 <= length [ArrayArg Z [1000%Z] 0; ScalarArg Z 2%Z])%nat as H1
    by (simpl; lia).
  assert (length (fst (_func_info kernel32))
            <= length [ArrayArg Z [1000%Z] 0; ScalarArg Z 2%Z])%nat as H2
    by (simpl; lia).
  assert (kernel_backend kernel32 = OpenCL) as H3 by reflexivity.
  split; [exact H1|]. split; [exact H2|]. split.
  - apply (proj1 (call_zips_arguments dtypes Z returns returns kernel32
                    [ArrayArg Z [1000%Z] 0; ScalarArg Z 2%Z] None None w0)
             [ScalarArg Z 99%Z] H1 H2).
  - split; [exact H3|].
    destruct (Kernel_call dtypes Z returns returns kernel32 [ArrayArg Z [1000%Z] 0] None None w0)
      as [[e|[]] w'] eqn:E.
    + vm_compute in E. discriminate E.
    + destruct (proj2 (call_zips_arguments dtypes Z returns returns kernel32
                         [ArrayArg Z [1000%Z] 0] None None w0) w' E H3) as [l [Hl1 Hl2]].
      exists w', l. split; [reflexivity|]. split; [exact Hl1|exact Hl2].
Defined.

(** *** The further properties at this program *)

Lemma splay_covers_in_whole_groups_witness :
  Splay.limits_ok device (Some 96%Z) /\ (1 <= 41000)%Z /\
  exists g l,
    Splay.splay device 41000 (Some 96%Z) = ([g], [l]) /\
    (1 <= l <= 128)%Z /\ (g mod l = 0)%Z /\ (41000 <= g)%Z.
Proof.
  assert (Splay.limits_ok device (Some 96%Z)) as H1 by (vm_compute; intuition discriminate).
  assert (1 <= 41000)%Z as H2 by lia.
  split; [exact H1|]. split; [exact H2|].
  exact (Splay.splay_covers_in_whole_groups device 41000 (Some 96%Z) H1 H2).
Defined.

Lemma splay_within_cap_witness :
  Splay.limits_ok device (Some 96%Z) /\ (1 <= 1000)%Z /\
  (1000 < Splay.full_groups device * Splay.min_work_items device (Some 96%Z))%Z /\
  (Splay.local_size device 1000 (Some 96%Z)
     <= Splay.max_work_items device (Some 96%Z))%Z.
Proof.
  assert (Splay.limits_ok device (Some 96%Z)) as H1 by (vm_compute; intuition discriminate).
  assert (1 <= 1000)%Z as H2 by lia.
  assert (1000 < Splay.full_groups device * Splay.min_work_items device (Some 96%Z))%Z
    as H3 by reflexivity.
  split; [exact H1|]. split; [exact H2|]. split; [exact H3|].
  apply (Splay.splay_within_cap device 1000 (Some 96%Z) H1 H2).
  right. right. left. exact H3.
Defined.

Lemma splay_padding_witness :
  Splay.limits_ok device (Some 96%Z) /\ (1 <= 1000)%Z /\
  (1000 < Splay.full_groups device * Splay.min_work_items device (Some 96%Z))%Z /\
  (Splay.global_size device 1000 (Some 96%Z)
     < 1000 + Splay.local_size device 1000 (Some 96%Z))%Z.
Proof.
  assert (Splay.limits_ok device (Some 96%Z)) as H1 by (vm_compute; intuition discriminate).
  assert (1 <= 1000)%Z as H2 by lia.
  assert (1000 < Splay.full_groups device * Splay.min_work_items device (Some 96%Z))%Z
    as H3 by reflexivity.
  split; [exact H1|]. split; [exact H2|]. split; [exact H3|].
  apply (proj1 (Splay.splay_padding device 1000 (Some 96%Z) H1 H2)).
  left. exact H3.
Defined.

Lemma add_only_appends_witness :
  final (add' 3 tp0 (Obj 0)) tp1 /\
  exists mid,
    blocks tp1 = blocks tp0 ++ mid /\ header tp1 = header tp0 /\
    backend tp1 = backend tp0 /\
    (forall text, get_code tp0 = inr text ->
       get_code tp1 =
         inr (text ++ concat (map (fun c => newline ++ c) (map code mid)))).
Proof.
  assert (final (add' 3 tp0 (Obj 0)) tp1) as H by (vm_compute; reflexivity).
  split; [exact H|].
  exact (add_only_appends math_names sources builtins module_attr translated translated
           3 tp0 (Obj 0) tp1 H).
Defined.

Lemma built_units_are_translations_witness :
  built' [Obj 0] tp1 /\
  forall cb, In cb (blocks tp1) ->
    generate translated translated (backend tp1) (obj cb) = inr (code cb) /\
    (exists i, obj cb = Obj i /\ sources i <> None).
Proof.
  split; [exact built_tp1|].
  exact (built_units_are_translations math_names sources builtins module_attr translated
           translated preamble [Obj 0] tp1 built_tp1).
Defined.

Definition tp_cuda : Transpiler := Transpiler_init preamble OtherBackend.

Lemma add_other_backend_registers_nothing_witness :
  backend tp_cuda = OtherBackend /\
  add' 3 tp_cuda (Obj 0) = Raised UnboundLocalError tp_cuda /\
  final (add' 3 tp_cuda (Obj 0)) tp_cuda /\
  (add' 3 tp_cuda (Obj 0) = Done tp_cuda -> contains (Obj 0) (blocks tp_cuda) = true).
Proof.
  assert (backend tp_cuda = OtherBackend) as H1 by reflexivity.
  assert (final (add' 3 tp_cuda (Obj 0)) tp_cuda) as H2 by (vm_compute; reflexivity).
  split; [exact H1|]. split; [vm_compute; reflexivity|]. split; [exact H2|].
  exact (proj2 (add_other_backend_registers_nothing math_names sources builtins module_attr
                  translated translated 3 tp_cuda (Obj 0) tp_cuda H1 H2)).
Defined.

Lemma add_raised_leaves_unregistered_witness :
  built' [] tp0 /\ add' 5 tp0 (Obj 10) = Raised TypeError tp0 /\
  contains (Obj 10) (blocks tp0) = false /\
  exists g, reaches' (Obj 10) g /\
    (gaf' g = inl TypeError \/
     generate translated translated (backend tp0) g = inl TypeError).
Proof.
  assert (built' [] tp0) as H1 by apply built_init.
  assert (add' 5 tp0 (Obj 10) = Raised TypeError tp0) as H2 by (vm_compute; reflexivity).
  split; [exact H1|]. split; [exact H2|].
  exact (add_raised_leaves_unregistered math_names sources builtins module_attr translated
           translated preamble [] tp0 5 (Obj 10) TypeError tp0 H1 H2).
Defined.

Lemma add_appends_after_callees_witness :
  contains (Obj 0) (blocks tp0) = false /\ add' 3 tp0 (Obj 0) = Done tp1 /\
  exists init c fs,
    blocks tp1 = init ++ [mkCodeBlock (Obj 0) c] /\
    generate translated translated (backend tp0) (Obj 0) = inr c /\
    gaf' (Obj 0) = inr fs /\
    (forall g, In g fs -> contains g init = true) /\
    (exists mid, init = blocks tp0 ++ mid).
Proof.
  assert (contains (Obj 0) (blocks tp0) = false) as H1 by reflexivity.
  assert (add' 3 tp0 (Obj 0) = Done tp1) as H2 by (vm_compute; reflexivity).
  split; [exact H1|]. split; [exact H2|].
  exact (add_appends_after_callees math_names sources builtins module_attr translated
           translated 3 tp0 (Obj 0) tp1 H1 H2).
Defined.

Definition lm_cuda : LocalMem := mkLocalMem OtherBackend 2 ∅.

Lemma LocalMem_get_errors_witness :
  LocalMem_get dtypes lm_cuda (txt "double") 128 [] =
    (inl NotImplementedError, lm_cuda, []) /\
  LocalMem_get dtypes lm0 (txt "half") 128 [] = (inl KeyError, lm0, []) /\
  _cache lm0 !! (txt "half", 128%Z) = None.
Proof.
  assert (LocalMem_get dtypes lm_cuda (txt "double") 128 [] =
            (inl NotImplementedError, lm_cuda, [])) as H1 by reflexivity.
  assert (LocalMem_get dtypes lm0 (txt "half") 128 [] = (inl KeyError, lm0, []))
    as H2 by reflexivity.
  split; [exact H1|]. split; [exact H2|].
  destruct (LocalMem_get_errors dtypes backend_of lm0 (txt "half") 128%Z []
              KeyError lm0 [] H2) as (_ & _ & H & _).
  exact H.
Defined.

Lemma cache_ok_lm0 : cache_ok dtypes lm0 [].
Proof. intros c wg mem H. cbn [_cache lm0] in H. rewrite lookup_empty in H. discriminate H. Defined.

Definition lm2 : LocalMem :=
  mkLocalMem OpenCL 2
    (<[(txt "float", 128%Z) := mkLocalMemory 1 1024]>
       {[ (txt "double", 128%Z) := mkLocalMemory 0 2048 ]}).

Lemma LocalMem_get_sized_witness :
  cache_ok dtypes lm0 [] /\
  LocalMem_get dtypes lm0 (txt "double") 128 [] =
    (inr (mkLocalMemory 0 2048), lm1, [2048%Z]) /\
  (exists dt, dtypes (txt "double") = Some dt /\
     alloc_size (mkLocalMemory 0 2048) = (itemsize dt * size lm0 * 128)%Z) /\
  cache_ok dtypes lm1 [2048%Z].
Proof.
  assert (LocalMem_get dtypes lm0 (txt "double") 128 [] =
            (inr (mkLocalMemory 0 2048), lm1, [2048%Z])) as H by reflexivity.
  split; [exact cache_ok_lm0|]. split; [exact H|].
  destruct (LocalMem_get_sized dtypes backend_of lm0 (txt "double") 128%Z [] _ _ _
              cache_ok_lm0 H) as (H1 & _ & H3 & _).
  split; [exact H1|exact H3].
Defined.

Lemma LocalMem_get_distinct_keys_witness :
  cache_ok dtypes lm0 [] /\
  LocalMem_get dtypes lm0 (txt "double") 128 [] =
    (inr (mkLocalMemory 0 2048), lm1, [2048%Z]) /\
  LocalMem_get dtypes lm1 (txt "float") 128 [2048%Z] =
    (inr (mkLocalMemory 1 1024), lm2, [2048%Z; 1024%Z]) /\
  (txt "double", 128%Z) <> (txt "float", 128%Z) /\
  _cache lm0 !! (txt "float", 128%Z) = None /\
  alloc_id (mkLocalMemory 0 2048) <> alloc_id (mkLocalMemory 1 1024) /\
  _cache lm2 !! (txt "double", 128%Z) = Some (mkLocalMemory 0 2048).
Proof.
  assert (LocalMem_get dtypes lm0 (txt "double") 128 [] =
            (inr (mkLocalMemory 0 2048), lm1, [2048%Z])) as H1 by reflexivity.
  assert (LocalMem_get dtypes lm1 (txt "float") 128 [2048%Z] =
            (inr (mkLocalMemory 1 1024), lm2, [2048%Z; 1024%Z])) as H2
    by (vm_compute; reflexivity).
  assert ((txt "double", 128%Z) <> (txt "float", 128%Z)) as H3 by discriminate.
  assert (_cache lm0 !! (txt "float", 128%Z) = None) as H4 by reflexivity.
  split; [exact cache_ok_lm0|]. split; [exact H1|]. split; [exact H2|].
  split; [exact H3|]. split; [exact H4|].
  destruct (LocalMem_get_distinct_keys dtypes _ _ _ _ _ _ _ _ _ _ _ _
              cache_ok_lm0 H1 H2 H3 H4) as (Hid & Hk & _).
  split; [exact Hid|exact Hk].
Defined.

Lemma Kernel_init_builds_opencl_kernel_witness :
  Kernel_init ascii_only math_names sources builtins module_attr translated translated
    preamble backend_of 3 (Obj 0) axpy_argspec None false device 256
    = Some (inr kernel32) /\
  kernel_backend kernel32 = OpenCL /\
  has_standalone ascii_only false (kernel_source kernel32) = false /\
  exists init c line0 rest,
    translated (Obj 0) = inr c /\ splitlines c = line0 :: rest /\
    blocks (tp kernel32) =
      init ++ [mkCodeBlock (Obj 0) (join newline ((txt "KERNEL " ++ line0) :: rest))].
Proof.
  assert (Kernel_init ascii_only math_names sources builtins module_attr translated translated
            preamble backend_of 3 (Obj 0) axpy_argspec None false device 256
          = Some (inr kernel32)) as H by (vm_compute; reflexivity).
  split; [exact H|].
  destruct (Kernel_init_builds_opencl_kernel ascii_only math_names sources builtins module_attr
              translated translated preamble backend_of
              3 (Obj 0) axpy_argspec None false device 256%Z kernel32 H)
    as (_ & Hb & _ & _ & _ & _ & _ & Hlast & _ & Hclean).
  split; [exact Hb|]. split; [exact (Hclean eq_refl)|exact Hlast].
Defined.

(** A kernel with a scratch parameter, and a world holding the [LocalMem]
    object passed for it. *)
Definition kernel_scratch : Kernel :=
  mkKernel (tp kernel32) OpenCL (Obj 0) (kernel_source kernel32) false device
    ([(txt "x", mkKnownType (txt "float*") (txt "float"));
      (txt "scratch", mkKnownType (txt "LOCAL_MEM float*") (txt "float"))],
     mkKnownType (txt "void") [])
    256.

Definition w_scratch : World Z := mkWorld Z {[ 7%nat := lm0 ]} [] [] 0.

Definition scratch_args : list (PyArg Z) :=
  [ArrayArg Z [1000%Z] 0; LocalMemArg Z 7].

Definition w_scratch1 : World Z :=
  Eval vm_compute in
    snd (Kernel_call dtypes Z returns returns kernel_scratch scratch_args None None w_scratch).

Lemma Kernel_call_repeated_witness :
  Kernel_call dtypes Z returns returns kernel_scratch scratch_args None None w_scratch
    = (inr tt, w_scratch1) /\
  kernel_backend kernel_scratch = OpenCL /\
  local_allocs Z w_scratch1 = [512%Z] /\
  exists l,
    launches Z w_scratch1 = launches Z w_scratch ++ [l] /\
    Kernel_call dtypes Z returns returns kernel_scratch scratch_args None None w_scratch1 =
      (inr tt,
       mkWorld Z (heap Z w_scratch1) (local_allocs Z w_scratch1)
         (launches Z w_scratch1 ++ [l]) (S (finishes Z w_scratch1))).
Proof.
  assert (Kernel_call dtypes Z returns returns kernel_scratch scratch_args None None w_scratch
            = (inr tt, w_scratch1)) as H1 by (vm_compute; reflexivity).
  assert (kernel_backend kernel_scratch = OpenCL) as H2 by reflexivity.
  split; [exact H1|]. split; [exact H2|]. split; [reflexivity|].
  exact (Kernel_call_repeated dtypes Z returns returns kernel_scratch scratch_args None None
           w_scratch w_scratch1 H1 H2).
Defined.

(** A kernel of one scalar parameter, called with a numpy scalar: the
    scalar has a [data] attribute of shape [()], so the call goes through
    and one work-group is launched; called with a Python number it raises
    [AttributeError]. *)
Definition kernel_scale : Kernel :=
  mkKernel (tp kernel32) OpenCL (Obj 0) (kernel_source kernel32) false device
    ([(txt "a", mkKnownType (txt "float") [])], mkKnownType (txt "void") [])
    256.

Example numpy_scalar_first_argument :
  Kernel_call dtypes Z returns returns kernel_scale [ShapedArg Z 3%Z []] None None w0 =
  (inr tt, mkWorld Z ∅ [] [mkLaunch Z [64%Z] [64%Z] [HostArray Z [3%Z] float32]] 1) /\
  Kernel_call dtypes Z returns returns kernel_scale [ScalarArg Z 3%Z] None None w0 =
  (inl AttributeError, w0).
Proof. split; vm_compute; reflexivity. Qed.

(** A runtime that rejects every kernel call: the call is issued, the
    dispatcher raises what the runtime raised and the queue is not
    finished. *)
Definition rejects : Launch Z -> option exn := fun _ => Some CLError.

Example kernel_call_rejected :
  Kernel_call dtypes Z rejects returns kernel32
    [ArrayArg Z [1000%Z] 0; ScalarArg Z 2%Z] None None w0 =
  (inl CLError,
   mkWorld Z ∅ []
     [mkLaunch Z [1024%Z] [64%Z] [DevData Z 0; HostArray Z [2%Z] float32]] 0).
Proof. vm_compute. reflexivity. Qed.

Example np_prod_sample :
  np_prod [4%Z; 5%Z; 6%Z] = 120%Z /\
  np_prod [(2 ^ 62)%Z; 2%Z] = (- 2 ^ 63)%Z.
Proof. split; vm_compute; reflexivity. Qed.

Lemma Kernel_call_default_geometry_witness :
  Splay.limits_ok (queue kernel32) (Some (_max_work_group_size kernel32)) /\
  data_shape Z (ArrayArg Z [1000%Z] 0) = Some [1000%Z] /\
  Forall (fun x => 1 <= x)%Z (default [1000%Z] None) /\
  (2 * product (default [1000%Z] None) + 128 <= Splay.int64_max)%Z /\
  Kernel_call dtypes Z returns returns kernel32
    [ArrayArg Z [1000%Z] 0; ScalarArg Z 2%Z] None None w0 =
    (inr tt,
     mkWorld Z ∅ []
       [mkLaunch Z [1024%Z] [64%Z] [DevData Z 0; HostArray Z [2%Z] float32]] 1) /\
  kernel_backend kernel32 = OpenCL /\
  exists g l c_args,
    [mkLaunch Z [1024%Z] [64%Z] [DevData Z 0; HostArray Z [2%Z] float32]] =
      launches Z w0 ++ [mkLaunch Z [g] [l] c_args] /\
    (1 <= l <= 128)%Z /\ (g mod l = 0)%Z /\
    (product (default [1000%Z] None) <= g)%Z.
Proof.
  assert (Splay.limits_ok (queue kernel32) (Some (_max_work_group_size kernel32)))
    as H1 by (vm_compute; intuition discriminate).
  assert (data_shape Z (ArrayArg Z [1000%Z] 0) = Some [1000%Z]) as H2 by reflexivity.
  assert (Forall (fun x => 1 <= x)%Z (default [1000%Z] None)) as H3
    by (repeat constructor; lia).
  assert (2 * product (default [1000%Z] None) + 128 <= Splay.int64_max)%Z as H4
    by (vm_compute; discriminate).
  assert (Kernel_call dtypes Z returns returns kernel32
            [ArrayArg Z [1000%Z] 0; ScalarArg Z 2%Z] None None w0 =
          (inr tt,
           mkWorld Z ∅ []
             [mkLaunch Z [1024%Z] [64%Z] [DevData Z 0; HostArray Z [2%Z] float32]] 1))
    as H5 by (vm_compute; reflexivity).
  assert (kernel_backend kernel32 = OpenCL) as H6 by reflexivity.
  split; [exact H1|]. split; [exact H2|]. split; [exact H3|]. split; [exact H4|].
  split; [exact H5|]. split; [exact H6|].
  exact (Kernel_call_default_geometry dtypes Z returns returns kernel32
           (ArrayArg Z [1000%Z] 0) [1000%Z] [ScalarArg Z 2%Z] None w0 _
           H1 H2 H3 H4 H5 H6).
Defined.

End Demo.
